(** * The Daebus WebSocket client

    A shallow embedding of [src/websocket/client.ts] and the properties of
    its connection life cycle, request correlator, channel registry and
    message router.

    The class [DaebusWebSocketClient] is event driven: public methods are
    called by the application, socket events ([open], [message], [close],
    [error]) are delivered by the transport, and timers fire.  Each of these
    runs to completion before the next one starts, so the program is modelled
    as a step function over a [World]: the private fields of the client
    together with the part of the runtime the client talks to (sockets,
    timers, promises).  Everything the client does to the outside is
    recorded in a log of [Effect]s.

    What stands outside the embedding:
    - the transport.  A socket is a handle with a [readyState]; the
      transport delivers [open] on a connecting socket, [message] on an
      open one, [close] and [error] on one that is not closed.  [send]
      is that of the [ws] package, which the client imports: it throws
      on a socket that is connecting and drops the frame on one that is
      closing or closed; serialising a frame and sending it on an open
      socket do not fail;
    - what the listeners of the client's events do.  [emit] is logged;
      for a channel event the log also has the call of each handler that
      [subscribeToChannel] registered.  A listener is taken to return.
      Of the listeners of the application the world keeps one number:
      how many are on the [error] event (put there with [on], taken off
      with [off]), because [emit('error', e)] throws [e] when there is
      none;
    - the order of microtasks.  The handler that [scheduleReconnect]
      attaches with [.catch] runs inside the call that rejects the
      promise, which in the code is the last statement of its turn;
    - JavaScript numbers.  Clock readings, delays and the request counter
      are exact integers (the counter stays far below 2^53); a number
      inside a frame is kept as what the code observes of it;
    - the iteration order of [Map] and [Set] (insertion order): the
      pending requests are a [gmap] and the subscribed channels a [gset],
      visited in the order of [map_to_list] and [elements]. *)

From Stdlib Require Import Ascii.
From stdpp Require Import gmap strings list fin_maps pretty.
From Equations Require Equations.

(** ** Values *)

(** A JavaScript number as this code observes it: only through its
    truthiness (is it [0] or [-0]) and its [String()] rendering. *)
Record Number := { num_is_zero : bool; num_text : string }.

(** What [JSON.parse] can return.  The property list of [JObj] holds the own
    properties of the parsed object, first binding first. *)
#[warnings="-register-all"]
Inductive json :=
  | JNull
  | JBool (b : bool)
  | JNum (n : Number)
  | JStr (s : string)
  | JArr (items : list json)
  | JObj (props : list (string * json)).

(** A JavaScript value at the places the client reads one: [None] is
    [undefined]. *)
Abbreviation jsval := (option json).
Abbreviation undefined := (@None json).

Fixpoint assoc (k : string) (l : list (string * json)) : jsval :=
  match l with
  | [] => None
  | (k', v) :: l' => if decide (k = k') then Some v else assoc k l'
  end.

(** [o.k] for the property names the client reads ([type], [channel],
    [data], [request_id], [success], [error]): none of them exists on a
    primitive or on an array.  [JNull] is excluded by the callers, which
    raise the [TypeError] themselves (see [prop]). *)
Definition get_prop (o : json) (k : string) : jsval :=
  match o with
  | JObj props => assoc k props
  | _ => None
  end.

(** JavaScript truthiness. *)
Definition truthy (v : jsval) : bool :=
  match v with
  | None => false
  | Some JNull => false
  | Some (JBool b) => b
  | Some (JNum n) => negb (num_is_zero n)
  | Some (JStr s) => negb (String.eqb s "")
  | Some (JArr _) => true
  | Some (JObj _) => true
  end.

Fixpoint join (sep : string) (l : list string) : string :=
  match l with
  | [] => ""
  | [s] => s
  | s :: l' => s +:+ sep +:+ join sep l'
  end.

(** [String(v)], as a template literal computes it. *)
Fixpoint to_string (v : json) : string :=
  match v with
  | JNull => "null"
  | JBool true => "true"
  | JBool false => "false"
  | JNum n => num_text n
  | JStr s => s
  | JArr items =>
      join "," (map (fun x => match x with JNull => "" | _ => to_string x end) items)
  | JObj _ => "[object Object]"
  end.

Definition js_string (v : jsval) : string :=
  match v with
  | None => "undefined"
  | Some x => to_string x
  end.

(** [v === s] for a string literal [s]. *)
Definition is_str (v : jsval) (s : string) : bool :=
  match v with
  | Some (JStr s') => String.eqb s' s
  | _ => false
  end.

(** [v === false]. *)
Definition is_false (v : jsval) : bool :=
  match v with
  | Some (JBool false) => true
  | _ => false
  end.

(** ** Errors ([src/types/index.ts]) *)

(** [DaebusTimeoutError] and [DaebusConnectionError] extend [DaebusError];
    [NativeError] stands for any other exception ([TypeError],
    [SyntaxError], an error of the transport), with the [name] and the
    [message] of the error object. *)
Inductive Error :=
  | DaebusError (message : string)
  | DaebusTimeoutError (message : string)
  | DaebusConnectionError (message : string)
  | NativeError (name message : string).

(** [error.name], as the constructors of [src/types/index.ts] set it. *)
Definition error_name (e : Error) : string :=
  match e with
  | DaebusError _ => "DaebusError"
  | DaebusTimeoutError _ => "DaebusTimeoutError"
  | DaebusConnectionError _ => "DaebusConnectionError"
  | NativeError n _ => n
  end.

(** [error.message]. *)
Definition error_message (e : Error) : string :=
  match e with
  | DaebusError m | DaebusTimeoutError m | DaebusConnectionError m => m
  | NativeError _ m => m
  end.

(** [`${error}`], that is [Error.prototype.toString]: the name, a colon
    and the message, or the name alone when the message is empty. *)
Definition error_to_string (e : Error) : string :=
  if String.eqb (error_message e) "" then error_name e
  else error_name e +:+ ": " +:+ error_message e.

(** How a promise is settled. *)
Inductive Outcome :=
  | Resolved (v : jsval)
  | Rejected (e : Error).

(** ** The runtime the client talks to *)

(** Handles of sockets, timers and promises, and the handlers the
    application passes to [subscribeToChannel], are numbered. *)
Abbreviation sock := nat (only parsing).
Abbreviation timer := nat (only parsing).
Abbreviation promise := nat (only parsing).
Abbreviation handler := nat (only parsing).

Inductive ReadyState := CONNECTING | OPEN | CLOSING | CLOSED.

Global Instance ReadyState_eq_dec : EqDecision ReadyState.
Proof. solve_decision. Defined.

(** A socket made by [connect]: its state, and the promise whose
    [resolve]/[reject] the handlers registered on it have captured. *)
Record Socket := { readyState : ReadyState; sock_promise : promise }.

(** The callback a timer runs: the timeout of [sendAction] (it captures
    [requestId], [reject] and [action]) or the retry of
    [scheduleReconnect]. *)
Inductive TimerTask :=
  | RequestTimeout (requestId : string) (p : promise) (action : string)
  | Reconnect.

(** [DaebusMessage], the action envelope. *)
Record DaebusMessage := {
  action : string;
  payload : json;
  reply_channel : string;
  request_id : string;
  timestamp : N
}.

(** The objects the client serialises and sends. *)
Inductive Frame :=
  | FSubscribe (channel : string)
  | FUnsubscribe (channel : string)
  | FPublish (channel : string) (data : DaebusMessage)
  | FBroadcast (channel : string) (data : json).

(** The events the client emits on itself. *)
Inductive Emitted :=
  | EvConnect
  | EvDisconnect (code : nat) (reason : string)
  | EvError (e : Error)
  | EvMessage (message : json)
  | EvChannel (event : string) (data : jsval).

(** The method whose call made a promise. *)
Inductive Origin := OfConnect | OfSendAction | OfSubscribe | OfUnsubscribe.

Global Instance Origin_eq_dec : EqDecision Origin.
Proof. solve_decision. Defined.

(** What the client does to the runtime and to the application. *)
Inductive Effect :=
  | ENewPromise (p : promise) (by_ : Origin)
  | ESettle (p : promise) (o : Outcome)
  | ENewSocket (s : sock)
  | ESend (s : sock) (f : Frame)
  | EClose (s : sock) (code : nat) (reason : string)
  | ESetTimeout (t : timer) (task : TimerTask) (ms : N)
  | EClearTimeout (t : timer)
  | EEmit (ev : Emitted)
  | EInvoke (h : handler) (data : jsval)
  | EThrow (e : Error).

(** ** The client *)

(** Delays and clock readings are in milliseconds. *)
Record WebSocketClientOptions := {
  reconnectInterval : option N;
  maxReconnectAttempts : option nat;
  timeout : option N
}.

(** [PendingRequest].  Its [resolve] and [reject] are the wrappers built in
    [sendAction]: they clear [timeout] and settle the promise of the call
    (see [req_resolve], [req_reject]). *)
Record PendingRequest := { req_promise : promise; req_timeout : timer }.

Global Instance PendingRequest_eq_dec : EqDecision PendingRequest.
Proof. solve_decision. Defined.

Record World := {
  (* the private fields of DaebusWebSocketClient *)
  options : WebSocketClientOptions;
  ws : option sock;
  reconnectAttempts : nat;
  isConnecting : bool;
  isReconnecting : bool;
  pendingRequests : gmap string PendingRequest;
  requestCounter : nat;
  subscribedChannels : gset string;
  (* the listeners of the client as an EventEmitter: those that
     subscribeToChannel puts on the channel events, and the number of
     listeners on the error event (they are put there from outside, by the
     application or by DaebusClient) *)
  listeners : gmap string (list handler);
  errorListeners : nat;
  (* the runtime *)
  sockets : list Socket;
  timers : gmap timer TimerTask;
  nextTimer : timer;
  settled : gmap promise Outcome;
  catchers : gset promise;
  nextPromise : promise
}.

Definition init (o : WebSocketClientOptions) : World :=
  {| options := o; ws := None; reconnectAttempts := 0;
     isConnecting := false; isReconnecting := false;
     pendingRequests := ∅; requestCounter := 0;
     subscribedChannels := ∅; listeners := ∅; errorListeners := 0;
     sockets := []; timers := ∅; nextTimer := 0;
     settled := ∅; catchers := ∅; nextPromise := 0 |}.

Definition set_ws (x : option sock) (w : World) : World :=
  {| options := options w; ws := x; reconnectAttempts := reconnectAttempts w;
     isConnecting := isConnecting w; isReconnecting := isReconnecting w;
     pendingRequests := pendingRequests w; requestCounter := requestCounter w;
     subscribedChannels := subscribedChannels w; listeners := listeners w;
     errorListeners := errorListeners w; sockets := sockets w; timers := timers w;
     nextTimer := nextTimer w; settled := settled w; catchers := catchers w;
     nextPromise := nextPromise w |}.

Definition set_reconnectAttempts (x : nat) (w : World) : World :=
  {| options := options w; ws := ws w; reconnectAttempts := x;
     isConnecting := isConnecting w; isReconnecting := isReconnecting w;
     pendingRequests := pendingRequests w; requestCounter := requestCounter w;
     subscribedChannels := subscribedChannels w; listeners := listeners w;
     errorListeners := errorListeners w; sockets := sockets w; timers := timers w;
     nextTimer := nextTimer w; settled := settled w; catchers := catchers w;
     nextPromise := nextPromise w |}.

Definition set_isConnecting (x : bool) (w : World) : World :=
  {| options := options w; ws := ws w; reconnectAttempts := reconnectAttempts w;
     isConnecting := x; isReconnecting := isReconnecting w;
     pendingRequests := pendingRequests w; requestCounter := requestCounter w;
     subscribedChannels := subscribedChannels w; listeners := listeners w;
     errorListeners := errorListeners w; sockets := sockets w; timers := timers w;
     nextTimer := nextTimer w; settled := settled w; catchers := catchers w;
     nextPromise := nextPromise w |}.

Definition set_isReconnecting (x : bool) (w : World) : World :=
  {| options := options w; ws := ws w; reconnectAttempts := reconnectAttempts w;
     isConnecting := isConnecting w; isReconnecting := x;
     pendingRequests := pendingRequests w; requestCounter := requestCounter w;
     subscribedChannels := subscribedChannels w; listeners := listeners w;
     errorListeners := errorListeners w; sockets := sockets w; timers := timers w;
     nextTimer := nextTimer w; settled := settled w; catchers := catchers w;
     nextPromise := nextPromise w |}.

Definition set_pendingRequests (x : gmap string PendingRequest) (w : World) : World :=
  {| options := options w; ws := ws w; reconnectAttempts := reconnectAttempts w;
     isConnecting := isConnecting w; isReconnecting := isReconnecting w;
     pendingRequests := x; requestCounter := requestCounter w;
     subscribedChannels := subscribedChannels w; listeners := listeners w;
     errorListeners := errorListeners w; sockets := sockets w; timers := timers w;
     nextTimer := nextTimer w; settled := settled w; catchers := catchers w;
     nextPromise := nextPromise w |}.

Definition set_requestCounter (x : nat) (w : World) : World :=
  {| options := options w; ws := ws w; reconnectAttempts := reconnectAttempts w;
     isConnecting := isConnecting w; isReconnecting := isReconnecting w;
     pendingRequests := pendingRequests w; requestCounter := x;
     subscribedChannels := subscribedChannels w; listeners := listeners w;
     errorListeners := errorListeners w; sockets := sockets w; timers := timers w;
     nextTimer := nextTimer w; settled := settled w; catchers := catchers w;
     nextPromise := nextPromise w |}.

Definition set_subscribedChannels (x : gset string) (w : World) : World :=
  {| options := options w; ws := ws w; reconnectAttempts := reconnectAttempts w;
     isConnecting := isConnecting w; isReconnecting := isReconnecting w;
     pendingRequests := pendingRequests w; requestCounter := requestCounter w;
     subscribedChannels := x; listeners := listeners w;
     errorListeners := errorListeners w; sockets := sockets w; timers := timers w;
     nextTimer := nextTimer w; settled := settled w; catchers := catchers w;
     nextPromise := nextPromise w |}.

Definition set_listeners (x : gmap string (list handler)) (w : World) : World :=
  {| options := options w; ws := ws w; reconnectAttempts := reconnectAttempts w;
     isConnecting := isConnecting w; isReconnecting := isReconnecting w;
     pendingRequests := pendingRequests w; requestCounter := requestCounter w;
     subscribedChannels := subscribedChannels w; listeners := x;
     errorListeners := errorListeners w; sockets := sockets w; timers := timers w;
     nextTimer := nextTimer w; settled := settled w; catchers := catchers w;
     nextPromise := nextPromise w |}.

Definition set_errorListeners (x : nat) (w : World) : World :=
  {| options := options w; ws := ws w; reconnectAttempts := reconnectAttempts w;
     isConnecting := isConnecting w; isReconnecting := isReconnecting w;
     pendingRequests := pendingRequests w; requestCounter := requestCounter w;
     subscribedChannels := subscribedChannels w; listeners := listeners w;
     errorListeners := x; sockets := sockets w; timers := timers w;
     nextTimer := nextTimer w; settled := settled w; catchers := catchers w;
     nextPromise := nextPromise w |}.

Definition set_sockets (x : list Socket) (w : World) : World :=
  {| options := options w; ws := ws w; reconnectAttempts := reconnectAttempts w;
     isConnecting := isConnecting w; isReconnecting := isReconnecting w;
     pendingRequests := pendingRequests w; requestCounter := requestCounter w;
     subscribedChannels := subscribedChannels w; listeners := listeners w;
     errorListeners := errorListeners w; sockets := x; timers := timers w;
     nextTimer := nextTimer w; settled := settled w; catchers := catchers w;
     nextPromise := nextPromise w |}.

Definition set_timers (x : gmap timer TimerTask) (w : World) : World :=
  {| options := options w; ws := ws w; reconnectAttempts := reconnectAttempts w;
     isConnecting := isConnecting w; isReconnecting := isReconnecting w;
     pendingRequests := pendingRequests w; requestCounter := requestCounter w;
     subscribedChannels := subscribedChannels w; listeners := listeners w;
     errorListeners := errorListeners w; sockets := sockets w; timers := x;
     nextTimer := nextTimer w; settled := settled w; catchers := catchers w;
     nextPromise := nextPromise w |}.

Definition set_nextTimer (x : timer) (w : World) : World :=
  {| options := options w; ws := ws w; reconnectAttempts := reconnectAttempts w;
     isConnecting := isConnecting w; isReconnecting := isReconnecting w;
     pendingRequests := pendingRequests w; requestCounter := requestCounter w;
     subscribedChannels := subscribedChannels w; listeners := listeners w;
     errorListeners := errorListeners w; sockets := sockets w; timers := timers w;
     nextTimer := x; settled := settled w; catchers := catchers w;
     nextPromise := nextPromise w |}.

Definition set_settled (x : gmap promise Outcome) (w : World) : World :=
  {| options := options w; ws := ws w; reconnectAttempts := reconnectAttempts w;
     isConnecting := isConnecting w; isReconnecting := isReconnecting w;
     pendingRequests := pendingRequests w; requestCounter := requestCounter w;
     subscribedChannels := subscribedChannels w; listeners := listeners w;
     errorListeners := errorListeners w; sockets := sockets w; timers := timers w;
     nextTimer := nextTimer w; settled := x; catchers := catchers w;
     nextPromise := nextPromise w |}.

Definition set_catchers (x : gset promise) (w : World) : World :=
  {| options := options w; ws := ws w; reconnectAttempts := reconnectAttempts w;
     isConnecting := isConnecting w; isReconnecting := isReconnecting w;
     pendingRequests := pendingRequests w; requestCounter := requestCounter w;
     subscribedChannels := subscribedChannels w; listeners := listeners w;
     errorListeners := errorListeners w; sockets := sockets w; timers := timers w;
     nextTimer := nextTimer w; settled := settled w; catchers := x;
     nextPromise := nextPromise w |}.

Definition set_nextPromise (x : promise) (w : World) : World :=
  {| options := options w; ws := ws w; reconnectAttempts := reconnectAttempts w;
     isConnecting := isConnecting w; isReconnecting := isReconnecting w;
     pendingRequests := pendingRequests w; requestCounter := requestCounter w;
     subscribedChannels := subscribedChannels w; listeners := listeners w;
     errorListeners := errorListeners w; sockets := sockets w; timers := timers w;
     nextTimer := nextTimer w; settled := settled w; catchers := catchers w;
     nextPromise := x |}.

(** ** Running code: state, effect log and exceptions *)

(** How a piece of code ends: with a value, or with an exception. *)
Inductive Res (A : Type) :=
  | Ok (a : A)
  | Thrown (e : Error).
Arguments Ok {A} a.
Arguments Thrown {A} e.

(** A piece of client code: from a world to its result, the world it leaves
    and what it did. *)
Definition M (A : Type) : Type := World → Res A * World * list Effect.

Definition ret {A} (a : A) : M A := λ w, (Ok a, w, []).

Definition bind {A B} (m : M A) (f : A → M B) : M B := λ w,
  match m w with
  | (Ok a, w1, l1) => let '(r, w2, l2) := f a w1 in (r, w2, l1 ++ l2)
  | (Thrown e, w1, l1) => (Thrown e, w1, l1)
  end.

Notation "x <- m ;; k" := (bind m (λ x, k))
  (at level 100, m at next level, right associativity).
Notation "m ;; k" := (bind m (λ _, k))
  (at level 100, right associativity).

Definition throw {A} (e : Error) : M A := λ w, (Thrown e, w, []).

(** [try { m } catch (e) { h e }]. *)
Definition try_catch {A} (m : M A) (h : Error → M A) : M A := λ w,
  match m w with
  | (Thrown e, w1, l1) => let '(r, w2, l2) := h e w1 in (r, w2, l1 ++ l2)
  | x => x
  end.

(** Reading the world, changing it, and logging an effect. *)
Definition get : M World := λ w, (Ok w, w, []).
Definition modify (f : World → World) : M unit := λ w, (Ok tt, f w, []).
Definition effect (e : Effect) : M unit := λ w, (Ok tt, w, [e]).

(** [for (const x of l) { f x }]. *)
Fixpoint for_each {A} (l : list A) (f : A → M unit) : M unit :=
  match l with
  | [] => ret tt
  | x :: l' => f x ;; for_each l' f
  end.

(** *** Runtime primitives *)

(** [this.emit(event, ...)].  The [error] event is special in Node: when
    the emitter has no listener for it, [emit] throws the error instead
    of returning. *)
Definition emit (ev : Emitted) : M unit := λ w,
  match ev with
  | EvError e =>
      if bool_decide (errorListeners w = 0) then (Thrown e, w, [EEmit ev])
      else (Ok tt, w, [EEmit ev])
  | _ => (Ok tt, w, [EEmit ev])
  end.

(** The promise of a call of an [async] method or of [new Promise]. *)
Definition new_promise (o : Origin) : M promise :=
  w <- get ;;
  modify (set_nextPromise (S (nextPromise w))) ;;
  effect (ENewPromise (nextPromise w) o) ;;
  ret (nextPromise w).

Definition setTimeout (task : TimerTask) (ms : N) : M timer :=
  w <- get ;;
  modify (set_nextTimer (S (nextTimer w))) ;;
  modify (set_timers (<[nextTimer w := task]> (timers w))) ;;
  effect (ESetTimeout (nextTimer w) task ms) ;;
  ret (nextTimer w).

Definition clearTimeout (t : timer) : M unit :=
  modify (λ w, set_timers (delete t (timers w)) w) ;;
  effect (EClearTimeout t).

(** [new WebSocket(url, protocols)], when the constructor returns: a fresh
    handle in state [CONNECTING]; the handlers [connect] registers on it
    capture the promise [p]. *)
Definition new_WebSocket (p : promise) : M sock :=
  w <- get ;;
  modify (set_sockets (sockets w ++ [{| readyState := CONNECTING; sock_promise := p |}])) ;;
  effect (ENewSocket (length (sockets w))) ;;
  ret (length (sockets w)).

(** The socket [s] changes state; the handlers on it stay. *)
Definition set_readyState (s : sock) (r : ReadyState) (w : World) : World :=
  set_sockets (alter (λ k, {| readyState := r; sock_promise := sock_promise k |}) s (sockets w)) w.

Definition sock_state (w : World) (s : sock) : option ReadyState :=
  readyState <$> sockets w !! s.

(** [s.close(code, reason)]: a socket that is connecting or open starts
    closing; its [close] event comes later, from the transport. *)
Definition sock_close (s : sock) (code : nat) (reason : string) : M unit :=
  w <- get ;;
  effect (EClose s code reason) ;;
  match sock_state w s with
  | Some CONNECTING | Some OPEN => modify (set_readyState s CLOSING)
  | _ => ret tt
  end.

(** [this.ws?.readyState === WebSocket.OPEN]. *)
Definition isConnected (w : World) : bool :=
  match ws w with
  | Some s => bool_decide (sock_state w s = Some OPEN)
  | None => false
  end.

(** [this.ws!.send(JSON.stringify(f))].  With [this.ws] null the property
    access raises a [TypeError].  The socket is one of the [ws] package:
    its [send] throws while the socket is connecting, sends on an open
    socket, and on a socket that is closing or closed takes the frame and
    drops it (no callback is passed that it could report to). *)
Definition ws_send (f : Frame) : M unit :=
  w <- get ;;
  match ws w with
  | None => throw (NativeError "TypeError" "Cannot read properties of null (reading 'send')")
  | Some s =>
      match sock_state w s with
      | Some OPEN => effect (ESend s f)
      | Some CONNECTING =>
          throw (NativeError "Error" "WebSocket is not open: readyState 0 (CONNECTING)")
      | _ => ret tt
      end
  end.

(** [this.emit(event, data)] for a channel event: the listeners registered
    under [event] are called in registration order. *)
Definition emit_channel (event : string) (data : jsval) : M unit :=
  w <- get ;;
  emit (EvChannel event data) ;;
  for_each (default [] (listeners w !! event)) (λ h, effect (EInvoke h data)).

(** [message.k]; reading a property of [null] raises a [TypeError]. *)
Definition prop (o : json) (k : string) : M jsval :=
  match o with
  | JNull =>
      throw (NativeError "TypeError"
               ("Cannot read properties of null (reading '" +:+ k +:+ "')"))
  | _ => ret (get_prop o k)
  end.

(** ** The methods of [DaebusWebSocketClient] *)

(** [`req_${now}_${counter}`]. *)
Definition request_id_of (now : N) (counter : nat) : string :=
  "req_" +:+ pretty now +:+ "_" +:+ pretty counter.

Definition generateRequestId (now : N) : M string :=
  w <- get ;;
  modify (set_requestCounter (S (requestCounter w))) ;;
  ret (request_id_of now (S (requestCounter w))).

Definition scheduleReconnect : M unit :=
  w <- get ;;
  if bool_decide (default 5 (maxReconnectAttempts (options w)) ≤ reconnectAttempts w) then
    emit (EvError (DaebusConnectionError "Max reconnection attempts exceeded"))
  else
    modify (set_isReconnecting true) ;;
    modify (set_reconnectAttempts (S (reconnectAttempts w))) ;;
    _ <- setTimeout Reconnect (default 5000%N (reconnectInterval (options w))) ;;
    ret tt.

(** The handler [scheduleReconnect] attaches with [.catch] to the promise
    of its own [connect] call. *)
Definition reconnect_failed (error : Error) : M unit :=
  emit (EvError error) ;;
  scheduleReconnect.

(** A handler that a promise runs.  An exception that leaves it goes to
    nobody (it rejects the promise [.catch] returned, which has no
    handler): it is logged, and the code that settled the promise goes
    on. *)
Definition callback (m : M unit) : M unit :=
  try_catch m (λ e, effect (EThrow e)).

(** Calling the [resolve] of a promise.  Only the first call of [resolve]
    or [reject] settles the promise; every call is logged. *)
Definition resolve (p : promise) (v : jsval) : M unit :=
  w <- get ;;
  effect (ESettle p (Resolved v)) ;;
  match settled w !! p with
  | Some _ => ret tt
  | None => modify (set_settled (<[p := Resolved v]> (settled w)))
  end.

(** Calling the [reject] of a promise; a rejection handler attached to it
    runs when the call settles the promise. *)
Definition reject (p : promise) (e : Error) : M unit :=
  w <- get ;;
  effect (ESettle p (Rejected e)) ;;
  match settled w !! p with
  | Some _ => ret tt
  | None =>
      modify (set_settled (<[p := Rejected e]> (settled w))) ;;
      if bool_decide (p ∈ catchers w) then callback (reconnect_failed e) else ret tt
  end.

(** [promise.catch(reconnect_failed)]. *)
Definition attach_catch (p : promise) : M unit :=
  w <- get ;;
  match settled w !! p with
  | Some (Rejected e) => callback (reconnect_failed e)
  | Some (Resolved _) => ret tt
  | None => modify (set_catchers ({[p]} ∪ catchers w))
  end.

Definition resubscribeToChannels : M unit :=
  w <- get ;;
  for_each (elements (subscribedChannels w)) (λ channel, ws_send (FSubscribe channel)).

(** [connect()].  [ctor] is what [new WebSocket(...)] does: [None] when it
    returns a socket, [Some e] when it throws [e].  The result is the
    promise the call returns. *)
Definition connect (ctor : option Error) : M promise :=
  p <- new_promise OfConnect ;;
  w <- get ;;
  if isConnecting w || isConnected w then
    resolve p undefined ;; ret p
  else
    modify (set_isConnecting true) ;;
    match ctor with
    | None =>
        s <- new_WebSocket p ;;
        modify (set_ws (Some s)) ;;
        ret p
    | Some error =>
        modify (set_isConnecting false) ;;
        reject p error ;;
        ret p
    end.

(** The handlers [connect] registers on the socket. *)
Definition on_open (p : promise) : M unit :=
  modify (set_isConnecting false) ;;
  modify (set_reconnectAttempts 0) ;;
  emit EvConnect ;;
  w <- get ;;
  (if isReconnecting w then
     resubscribeToChannels ;;
     modify (set_isReconnecting false)
   else ret tt) ;;
  resolve p undefined.

Definition on_close (code : nat) (reason : string) : M unit :=
  modify (set_isConnecting false) ;;
  emit (EvDisconnect code reason) ;;
  w <- get ;;
  if bool_decide (code ≠ 1000) && negb (isReconnecting w) then scheduleReconnect
  else ret tt.

Definition on_error (p : promise) (error : Error) : M unit :=
  modify (set_isConnecting false) ;;
  emit (EvError error) ;;
  reject p (DaebusConnectionError ("WebSocket connection failed: " +:+ error_message error)).

(** The wrappers stored in a [PendingRequest]. *)
Definition req_resolve (r : PendingRequest) (data : jsval) : M unit :=
  clearTimeout (req_timeout r) ;;
  resolve (req_promise r) data.

Definition req_reject (r : PendingRequest) (error : Error) : M unit :=
  clearTimeout (req_timeout r) ;;
  reject (req_promise r) error.

(** The body of the loop of [disconnect], for one entry
    [[_id, request]] of the map. *)
Definition reject_entry : string * PendingRequest → M unit :=
  λ '(_, request),
    clearTimeout (req_timeout request) ;;
    req_reject request (DaebusConnectionError "Connection closed").

Definition disconnect : M unit :=
  w <- get ;;
  match ws w with
  | Some s => sock_close s 1000 "Client disconnect" ;; modify (set_ws None)
  | None => ret tt
  end ;;
  w <- get ;;
  for_each (map_to_list (pendingRequests w)) reject_entry ;;
  modify (set_pendingRequests ∅).

Definition sendToChannel (channel : string) (message : DaebusMessage) : M unit :=
  w <- get ;;
  if negb (isConnected w) then throw (DaebusConnectionError "WebSocket is not connected")
  else ws_send (FPublish channel message).

(** [sendAction(serviceName, action, payload, timeout)].  [now_id] and
    [now_ts] are the two readings of [Date.now()], in [generateRequestId]
    and for the [timestamp] of the envelope; [timeout_arg] is [None] when the
    caller leaves the argument out.  An exception inside the executor of the
    promise rejects the promise. *)
Definition sendAction (serviceName action_name : string) (payload_arg : json)
    (timeout_arg : option N) (now_id now_ts : N) : M promise :=
  p <- new_promise OfSendAction ;;
  w <- get ;;
  if negb (isConnected w) then
    reject p (DaebusConnectionError "WebSocket is not connected") ;; ret p
  else
    requestId <- generateRequestId now_id ;;
    let message :=
      {| action := action_name; payload := payload_arg;
         reply_channel := "reply_" +:+ requestId;
         request_id := requestId; timestamp := now_ts |} in
    let ms := default (default 30000%N (timeout (options w))) timeout_arg in
    try_catch
      (timeoutHandle <- setTimeout (RequestTimeout requestId p action_name) ms ;;
       w <- get ;;
       modify (set_pendingRequests
                 (<[requestId := {| req_promise := p; req_timeout := timeoutHandle |}]>
                    (pendingRequests w))) ;;
       sendToChannel serviceName message)
      (λ e, reject p e) ;;
    ret p.

(** The callback of the timer of [sendAction]. *)
Definition on_request_timeout (requestId : string) (p : promise) (action_name : string) : M unit :=
  w <- get ;;
  modify (set_pendingRequests (delete requestId (pendingRequests w))) ;;
  reject p (DaebusTimeoutError ("Action " +:+ action_name +:+ " timed out")).

(** The callback of the timer of [scheduleReconnect]. *)
Definition on_reconnect_timer (ctor : option Error) : M unit :=
  w <- get ;;
  if isReconnecting w then
    p <- connect ctor ;;
    attach_catch p
  else ret tt.

Definition subscribeToChannel (channelName : string) (h : handler) : M promise :=
  p <- new_promise OfSubscribe ;;
  w <- get ;;
  if negb (isConnected w) then
    reject p (DaebusConnectionError "WebSocket is not connected") ;; ret p
  else
    try_catch
      (modify (set_subscribedChannels ({[channelName]} ∪ subscribedChannels w)) ;;
       modify (set_listeners
                 (<["channel:" +:+ channelName :=
                     default [] (listeners w !! ("channel:" +:+ channelName)) ++ [h]]>
                    (listeners w))) ;;
       ws_send (FSubscribe channelName) ;;
       resolve p undefined)
      (λ e, reject p e) ;;
    ret p.

Definition unsubscribeFromChannel (channelName : string) : M promise :=
  p <- new_promise OfUnsubscribe ;;
  try_catch
    (w <- get ;;
     modify (set_subscribedChannels (subscribedChannels w ∖ {[channelName]})) ;;
     modify (set_listeners (delete ("channel:" +:+ channelName) (listeners w))) ;;
     w <- get ;;
     (if isConnected w then ws_send (FUnsubscribe channelName) else ret tt) ;;
     resolve p undefined)
    (λ e, reject p e) ;;
  ret p.

Definition broadcast (channelName : string) (data : json) : M unit :=
  w <- get ;;
  if negb (isConnected w) then throw (DaebusConnectionError "WebSocket is not connected")
  else ws_send (FBroadcast channelName data).

(** [this.pendingRequests.get(requestId)]: the keys of the map are strings,
    any other value finds nothing. *)
Definition pending_get (w : World) (requestId : jsval) : option PendingRequest :=
  match requestId with
  | Some (JStr id) => pendingRequests w !! id
  | _ => None
  end.

(** [this.pendingRequests.delete(requestId)]. *)
Definition pending_delete (requestId : jsval) (w : World) : World :=
  match requestId with
  | Some (JStr id) => set_pendingRequests (delete id (pendingRequests w)) w
  | _ => w
  end.

Definition handleResponse (response : json) : M unit :=
  requestId <- prop response "request_id" ;;
  w <- get ;;
  match pending_get w requestId with
  | Some pendingRequest =>
      modify (pending_delete requestId) ;;
      success <- prop response "success" ;;
      if is_false success then
        error <- prop response "error" ;;
        req_reject pendingRequest
          (DaebusError (if truthy error then js_string error else "Unknown error"))
      else
        data <- prop response "data" ;;
        req_resolve pendingRequest data
  | None => ret tt
  end.

Definition handleChannelMessage (message : json) : M unit :=
  channel <- prop message "channel" ;;
  data <- prop message "data" ;;
  emit_channel ("channel:" +:+ js_string channel) data.

(** What [JSON.parse(data.toString())] does with a frame: it returns a
    value or throws an error (a [SyntaxError]). *)
Inductive ParseResult :=
  | ParseOk (v : json)
  | ParseThrows (error : Error).

Definition handleMessage (parsed : ParseResult) : M unit :=
  try_catch
    (message <- match parsed with
                | ParseOk v => ret v
                | ParseThrows error => throw error
                end ;;
     type <- prop message "type" ;;
     if is_str type "response" then handleResponse message
     else if is_str type "channel_message" then handleChannelMessage message
     else
       channel <- prop message "channel" ;;
       data <- prop message "data" ;;
       if truthy channel && truthy data then
         emit_channel ("channel:" +:+ js_string channel) data
       else
         requestId <- prop message "request_id" ;;
         w <- get ;;
         if truthy requestId && bool_decide (is_Some (pending_get w requestId)) then
           handleResponse message
         else emit (EvMessage message))
    (λ error,
       emit (EvError (DaebusError ("Failed to parse message: " +:+ error_to_string error)))).

(** ** The event loop *)

Inductive Event :=
  (* calls of the application *)
  | CallConnect (ctor : option Error)
  | CallDisconnect
  | CallSendAction (serviceName action_name : string) (payload_arg : json)
      (timeout_arg : option N) (now_id now_ts : N)
  | CallSubscribe (channelName : string) (h : handler)
  | CallUnsubscribe (channelName : string)
  | CallBroadcast (channelName : string) (data : json)
  (* the application puts a listener on the error event of the client
     with [on], or takes one off with [off] *)
  | CallOnError
  | CallOffError
  (* events of the transport on a socket *)
  | SockOpen (s : sock)
  | SockMessage (s : sock) (parsed : ParseResult)
  | SockClose (s : sock) (code : nat) (reason : string)
  | SockError (s : sock) (error : Error)
  (* a timer fires; [ctor] is what [new WebSocket] does if the callback
     gets to it *)
  | TimerFire (t : timer) (ctor : option Error).

(** The code an event runs, after the runtime has done its own part of it
    (the state of the socket, the removal of the timer); [None] when the
    event cannot happen in this world. *)
Definition dispatch (w : World) (e : Event) : option (World * M unit) :=
  match e with
  | CallConnect ctor => Some (w, _ <- connect ctor ;; ret tt)
  | CallDisconnect => Some (w, disconnect)
  | CallSendAction sv a pl tm n1 n2 => Some (w, _ <- sendAction sv a pl tm n1 n2 ;; ret tt)
  | CallSubscribe c h => Some (w, _ <- subscribeToChannel c h ;; ret tt)
  | CallUnsubscribe c => Some (w, _ <- unsubscribeFromChannel c ;; ret tt)
  | CallBroadcast c d => Some (w, broadcast c d)
  | CallOnError => Some (w, modify (λ w, set_errorListeners (S (errorListeners w)) w))
  | CallOffError => Some (w, modify (λ w, set_errorListeners (pred (errorListeners w)) w))
  | SockOpen s =>
      match sockets w !! s with
      | Some {| readyState := CONNECTING; sock_promise := p |} =>
          Some (set_readyState s OPEN w, on_open p)
      | _ => None
      end
  | SockMessage s parsed =>
      match sockets w !! s with
      | Some {| readyState := OPEN |} => Some (w, handleMessage parsed)
      | _ => None
      end
  | SockClose s code reason =>
      match sockets w !! s with
      | Some k =>
          if decide (readyState k = CLOSED) then None
          else Some (set_readyState s CLOSED w, on_close code reason)
      | None => None
      end
  | SockError s error =>
      match sockets w !! s with
      | Some k =>
          if decide (readyState k = CLOSED) then None
          else Some (w, on_error (sock_promise k) error)
      | None => None
      end
  | TimerFire t ctor =>
      match timers w !! t with
      | Some task =>
          Some (set_timers (delete t (timers w)) w,
                match task with
                | RequestTimeout requestId p a => on_request_timeout requestId p a
                | Reconnect => on_reconnect_timer ctor
                end)
      | None => None
      end
  end.

(** One turn of the event loop.  An exception that leaves the code of the
    turn is logged as [EThrow], last in the log of the turn. *)
Definition step (w : World) (e : Event) : option (World * list Effect) :=
  match dispatch w e with
  | Some (w0, m) =>
      match m w0 with
      | (Ok _, w1, l) => Some (w1, l)
      | (Thrown err, w1, l) => Some (w1, l ++ [EThrow err])
      end
  | None => None
  end.

Fixpoint run (w : World) (es : list Event) : option (World * list Effect) :=
  match es with
  | [] => Some (w, [])
  | e :: es' =>
      match step w e with
      | Some (w1, l1) =>
          match run w1 es' with
          | Some (w2, l2) => Some (w2, l1 ++ l2)
          | None => None
          end
      | None => None
      end
  end.

Inductive reachable : World → Prop :=
  | reach_init o : reachable (init o)
  | reach_step w e w' l : reachable w → step w e = Some (w', l) → reachable w'.

Definition default_options : WebSocketClientOptions :=
  {| reconnectInterval := None; maxReconnectAttempts := None; timeout := None |}.

(** * Definitions for the statements *)

(** ** Results of a run *)

(** The result, the final world and the log of a run. *)
Definition world_of {A} (x : Res A * World * list Effect) : World := x.1.2.
Definition log_of {A} (x : Res A * World * list Effect) : list Effect := x.2.

(** The world after the events [es], from a fresh client. *)
Definition after (o : WebSocketClientOptions) (es : list Event) : World :=
  match run (init o) es with
  | Some (w, _) => w
  | None => init o
  end.

(** The log of the events [es], from a fresh client. *)
Definition log_after (o : WebSocketClientOptions) (es : list Event) : list Effect :=
  match run (init o) es with
  | Some (_, l) => l
  | None => []
  end.

(** ** Reading the log *)

(** The calls of [resolve] and [reject] on the promise [p], in order. *)
Definition settle_calls (p : promise) (l : list Effect) : list Outcome :=
  omap (λ e, match e with
             | ESettle q o => if decide (q = p) then Some o else None
             | _ => None
             end) l.

(** The frames sent, with the socket they went to. *)
Definition frames_sent (l : list Effect) : list (sock * Frame) :=
  omap (λ e, match e with ESend s f => Some (s, f) | _ => None end) l.

(** The sockets opened. *)
Definition sockets_made (l : list Effect) : list sock :=
  omap (λ e, match e with ENewSocket s => Some s | _ => None end) l.

(** ** Request ids *)

(** Does the string contain an underscore? *)
Fixpoint has_underscore (s : string) : bool :=
  match s with
  | EmptyString => false
  | String c s' => bool_decide (c = "_"%char) || has_underscore s'
  end.

(** ** Errors and events the statements name *)

(** The exception of [this.ws!.send] when there is no socket, or one that
    is connecting. *)
Definition not_open_error (w : World) : Error :=
  match ws w with
  | Some _ => NativeError "Error" "WebSocket is not open: readyState 0 (CONNECTING)"
  | None => NativeError "TypeError" "Cannot read properties of null (reading 'send')"
  end.

(** [send] throws: there is no socket, or the socket is connecting. *)
Definition send_throws (w : World) : bool :=
  match ws w with
  | Some s => bool_decide (sock_state w s = Some CONNECTING)
  | None => true
  end.

(** How [emit('error', e)] ends in the world [w]: it throws [e] when the
    client has no listener for the event. *)
Definition emit_result (w : World) (e : Error) : Res unit :=
  if bool_decide (errorListeners w = 0) then Thrown e else Ok tt.

(** The [TypeError] of [message.type] on [null], with the message Node
    gives it. *)
Definition null_type_error : Error :=
  NativeError "TypeError" "Cannot read properties of null (reading 'type')".

(** What the router reports for a frame it could not read: the error,
    and the event that carries it. *)
Definition parse_error (error : Error) : Error :=
  DaebusError ("Failed to parse message: " +:+ error_to_string error).

Definition parse_failure (error : Error) : Effect :=
  EEmit (EvError (parse_error error)).

(** The error of a frame that cannot be read: the one [JSON.parse] threw,
    or, for the frame [null], the one of reading its [type]. *)
Definition unreadable (parsed : ParseResult) : option Error :=
  match parsed with
  | ParseThrows error => Some error
  | ParseOk JNull => Some null_type_error
  | ParseOk _ => None
  end.

(** How [handleMessage] ends: normally, but for a frame that cannot be
    read on a client with no listener for [error]. *)
Definition frame_result (w : World) (parsed : ParseResult) : Res unit :=
  match unreadable parsed with
  | Some error => emit_result w (parse_error error)
  | None => Ok tt
  end.

(** [new DaebusConnectionError('Connection closed')], the error of
    [disconnect]. *)
Definition connection_closed : Error := DaebusConnectionError "Connection closed".

(** ** The invariant of the request correlator *)

(** [p] is the promise of a request that is pending. *)
Definition pending_promise (P : gmap string PendingRequest) (p : promise) : Prop :=
  ∃ id pr, P !! id = Some pr ∧ req_promise pr = p.

(** [p] is the promise of the [connect] call that made some socket. *)
Definition socket_promise (K : list Socket) (p : promise) : Prop :=
  ∃ s k, K !! s = Some k ∧ sock_promise k = p.

(** The invariant, over the fields it reads: the pending map [P], the
    timers [T], [requestCounter], [nextTimer], [nextPromise], the settled
    promises [S], the promises with a rejection handler [C] and the
    sockets [K]. *)
Record InvF (P : gmap string PendingRequest) (T : gmap timer TimerTask)
    (c nt np : nat) (S : gmap promise Outcome) (C : gset promise)
    (K : list Socket) : Prop := {
  (* a pending request has its timer running *)
  inv_timer_of_pending : ∀ id pr, P !! id = Some pr →
    ∃ a, T !! req_timeout pr = Some (RequestTimeout id (req_promise pr) a);
  (* a running request timer belongs to a pending request *)
  inv_pending_of_timer : ∀ t id p a, T !! t = Some (RequestTimeout id p a) →
    P !! id = Some {| req_promise := p; req_timeout := t |};
  (* pending ids were made by generateRequestId *)
  inv_issued : ∀ id pr, P !! id = Some pr →
    ∃ now k, id = request_id_of now k ∧ k ≤ c;
  inv_timer_fresh : ∀ t task, T !! t = Some task → t < nt;
  (* the promise of a pending request is not settled *)
  inv_pending_unsettled : ∀ p, pending_promise P p → S !! p = None ∧ p ∉ C;
  inv_promise_fresh : ∀ p,
    is_Some (S !! p) ∨ p ∈ C ∨ pending_promise P p ∨ socket_promise K p → p < np;
  inv_pending_not_socket : ∀ p, pending_promise P p → ¬ socket_promise K p;
  (* pending requests have promises of their own *)
  inv_promise_inj : ∀ id1 id2 pr1 pr2, P !! id1 = Some pr1 → P !! id2 = Some pr2 →
    req_promise pr1 = req_promise pr2 → id1 = id2
}.

(** The invariant, of a world. *)
Definition Inv (w : World) : Prop :=
  InvF (pendingRequests w) (timers w) (requestCounter w) (nextTimer w)
    (nextPromise w) (settled w) (catchers w) (sockets w).

(** ** What [handleResponse] and [disconnect] compute *)

(** How [handleResponse] settles the request a response belongs to. *)
Definition response_outcome (response : json) : Outcome :=
  if is_false (get_prop response "success") then
    Rejected (DaebusError
                (if truthy (get_prop response "error")
                 then js_string (get_prop response "error")
                 else "Unknown error"))
  else Resolved (get_prop response "data").

(** Calling [resolve] or [reject], as the outcome says. *)
Definition settle (p : promise) (o : Outcome) : M unit :=
  match o with
  | Resolved v => resolve p v
  | Rejected e => reject p e
  end.

(** The first call of [resolve] or [reject] settles a promise. *)
Definition settle_in (p : promise) (o : Outcome) (S : gmap promise Outcome) :
    gmap promise Outcome :=
  match S !! p with
  | Some _ => S
  | None => <[p := o]> S
  end.

(** What the loop of [disconnect] does to the timers, over the entries [l]
    of the pending map. *)
Definition cleared (l : list (string * PendingRequest)) (T : gmap timer TimerTask) :
    gmap timer TimerTask :=
  foldl (λ T x, delete (req_timeout x.2) T) T l.

(** What the loop of [disconnect] does to the promises. *)
Definition rejected (l : list (string * PendingRequest)) (S : gmap promise Outcome) :
    gmap promise Outcome :=
  foldl (λ S x, settle_in (req_promise x.2) (Rejected connection_closed) S) S l.

(** What the loop of [disconnect] logs: for each entry, [clearTimeout] by the
    loop, [clearTimeout] and [reject] by the wrapper of the entry. *)
Definition rejections (l : list (string * PendingRequest)) : list Effect :=
  l ≫= λ x, [EClearTimeout (req_timeout x.2); EClearTimeout (req_timeout x.2);
             ESettle (req_promise x.2) (Rejected connection_closed)].

(** [this.ws.close(1000, 'Client disconnect'); this.ws = null], when there
    is a socket. *)
Definition close_socket (w : World) : World :=
  match ws w with
  | Some s =>
      set_ws None
        match sock_state w s with
        | Some CONNECTING | Some OPEN => set_readyState s CLOSING w
        | _ => w
        end
  | None => w
  end.

(** What [disconnect] logs for the socket. *)
Definition close_log (w : World) : list Effect :=
  match ws w with
  | Some s => [EClose s 1000 "Client disconnect"]
  | None => []
  end.

(** The world [disconnect] leaves. *)
Definition disconnected (w : World) : World :=
  set_pendingRequests ∅
    (set_settled (rejected (map_to_list (pendingRequests w)) (settled w))
       (set_timers (cleared (map_to_list (pendingRequests w)) (timers w))
          (close_socket w))).

(** ** A turn of the event loop, summarised *)

(** Why a request left the pending map in the turn of the event [e], and
    the calls that turn made on its promise. *)
Definition removal_cause (e : Event) (id : string) (pr : PendingRequest)
    (calls : list Outcome) : Prop :=
  (e = CallDisconnect ∧ calls = [Rejected connection_closed])
  ∨ (∃ ctor a, e = TimerFire (req_timeout pr) ctor
               ∧ calls = [Rejected (DaebusTimeoutError ("Action " +:+ a +:+ " timed out"))])
  ∨ (∃ s message, e = SockMessage s (ParseOk message)
                  ∧ get_prop message "request_id" = Some (JStr id)
                  ∧ calls = [response_outcome message]).

(** The summary of a turn from [w] to [w'], with [calls p] the calls of
    [resolve] and [reject] it made on the promise [p]. *)
Record Summary (w : World) (e : Event) (w' : World)
    (calls : promise → list Outcome) : Prop := {
  sum_nextPromise : nextPromise w ≤ nextPromise w';
  sum_requestCounter : requestCounter w ≤ requestCounter w';
  sum_sockets : ∀ p, socket_promise (sockets w') p →
    socket_promise (sockets w) p ∨ nextPromise w ≤ p;
  sum_settled_mono : ∀ p, is_Some (settled w !! p) → is_Some (settled w' !! p);
  sum_calls_settled : ∀ p, calls p ≠ [] → is_Some (settled w' !! p);
  sum_calls_target : ∀ p, calls p ≠ [] →
    nextPromise w ≤ p ∨ socket_promise (sockets w) p
    ∨ pending_promise (pendingRequests w) p;
  sum_entered : ∀ id pr, pendingRequests w' !! id = Some pr →
    pendingRequests w !! id = Some pr
    ∨ (∃ now, id = request_id_of now (S (requestCounter w)))
      ∧ requestCounter w' = S (requestCounter w)
      ∧ req_promise pr = nextPromise w ∧ calls (nextPromise w) = [];
  sum_left : ∀ id pr, pendingRequests w !! id = Some pr →
    (pendingRequests w' !! id = Some pr ∧ calls (req_promise pr) = [])
    ∨ (pendingRequests w' !! id = None ∧ removal_cause e id pr (calls (req_promise pr)))
}.

(** A turn that does not touch the requests: it may make promises and
    sockets, and settle promises of its own or of a socket. *)
Record Quiet (w w' : World) (l : list Effect) : Prop := {
  quiet_pending : pendingRequests w' = pendingRequests w;
  quiet_counter : requestCounter w' = requestCounter w;
  quiet_nextPromise : nextPromise w ≤ nextPromise w';
  quiet_sockets : ∀ p, socket_promise (sockets w') p →
    socket_promise (sockets w) p ∨ nextPromise w ≤ p;
  quiet_settled_mono : ∀ p, is_Some (settled w !! p) → is_Some (settled w' !! p);
  quiet_calls_settled : ∀ p, settle_calls p l ≠ [] → is_Some (settled w' !! p);
  quiet_calls_target : ∀ p, settle_calls p l ≠ [] →
    nextPromise w ≤ p ∨ socket_promise (sockets w) p
}.

(** The id was made by [generateRequestId] and is not pending (any more). *)
Definition retired (w : World) (id : string) : Prop :=
  (∃ now k, id = request_id_of now k ∧ k ≤ requestCounter w)
  ∧ pendingRequests w !! id = None.

(** Nothing refers to the promise [p] any more: it is not the promise of
    a pending request nor of a socket, and it is not one still to be
    made. *)
Definition dead (w : World) (p : promise) : Prop :=
  p < nextPromise w
  ∧ ¬ pending_promise (pendingRequests w) p
  ∧ ¬ socket_promise (sockets w) p.

(** ** Example runs *)

(** A client that connects and sends one action. *)
Definition ping_trace : list Event :=
  [CallConnect None; SockOpen 0;
   CallSendAction "svc" "ping" (JObj []) None 1700 1701].

(** A response that reports a failure of the first request. *)
Definition boom_response : json :=
  JObj [("request_id", JStr "req_1700_1"); ("success", JBool false);
        ("error", JStr "boom")].

(** A direct channel message that also names the pending request of
    [ping_trace]. *)
Definition tagged_channel_frame : json :=
  JObj [("channel", JStr "alerts"); ("data", JStr "x");
        ("request_id", JStr "req_1700_1")].

(** The request of [ping_trace] gets a response, then a second copy of the
    response; later its timer cannot fire any more. *)
Definition answered_twice_trace : list Event :=
  [SockMessage 0 (ParseOk (JObj [("type", JStr "response");
                                 ("request_id", JStr "req_1700_1");
                                 ("data", JStr "pong")]));
   SockMessage 0 (ParseOk (JObj [("type", JStr "response");
                                 ("request_id", JStr "req_1700_1");
                                 ("data", JStr "pong")]));
   CallDisconnect].

(** A client whose application listens to its [error] events, that calls
    [connect] twice, and whose first attempt then fails. *)
Definition two_connects_trace : list Event :=
  [CallOnError;
   CallConnect None; CallConnect None; SockError 0 (NativeError "Error" "refused")].

(** A connected client subscribed to one channel. *)
Definition subscribed_trace : list Event :=
  [CallConnect None; SockOpen 0; CallSubscribe "alerts" 7].

(** A client with two subscriptions, one of them withdrawn, whose
    connection is lost and whose reconnection is under way on socket 1. *)
Definition reconnecting_trace : list Event :=
  [CallConnect None; SockOpen 0;
   CallSubscribe "alerts" 7; CallSubscribe "metrics" 8; CallSubscribe "alerts" 9;
   CallUnsubscribe "metrics";
   SockClose 0 1006 "lost"; TimerFire 0 None].

(** A client whose connection is lost. *)
Definition lost_trace : list Event :=
  [CallConnect None; SockOpen 0; SockClose 0 1006 "lost"].

(** A client whose connection is lost, and which then disconnects. *)
Definition lost_then_disconnect_trace : list Event :=
  [CallConnect None; SockOpen 0; SockClose 0 1006 "lost"; CallDisconnect].

(** A client whose application listens to its [error] events, with a
    request pending, loses its connection; the five reconnections that
    [maxReconnectAttempts] allows by default all fail. *)
Definition reconnects_exhausted_trace : list Event :=
  [CallOnError; CallConnect None; SockOpen 0;
   CallSendAction "svc" "ping" (JObj []) None 1700 1701;
   SockClose 0 1006 "lost";
   TimerFire 1 None; SockError 1 (NativeError "Error" "refused");
   TimerFire 2 None; SockError 2 (NativeError "Error" "refused");
   TimerFire 3 None; SockError 3 (NativeError "Error" "refused");
   TimerFire 4 None; SockError 4 (NativeError "Error" "refused");
   TimerFire 5 None].

(** * More definitions for the statements *)

(** ** Frames on the wire *)

(** The action envelopes published, with the channel they went to. *)
Definition publishes (l : list Effect) : list (string * DaebusMessage) :=
  omap (λ e, match e with ESend _ (FPublish c m) => Some (c, m) | _ => None end) l.

(** The request ids put on the wire, in order. *)
Definition ids_sent (l : list Effect) : list string :=
  (λ x, request_id x.2) <$> publishes l.

(** The error of the methods that need an open connection. *)
Definition not_connected : Error := DaebusConnectionError "WebSocket is not connected".

(** ** A turn of the event loop, in full *)

(** What a turn logs when its code ends with [r]. *)
Definition thrown_log {A} (r : Res A) : list Effect :=
  match r with
  | Ok _ => []
  | Thrown err => [EThrow err]
  end.

(** What a frame can make the client tell the application: an [error],
    [message] or channel event, or the call of a channel handler. *)
Definition is_report (e : Effect) : bool :=
  match e with
  | EEmit (EvError _) | EEmit (EvMessage _) | EEmit (EvChannel _ _) | EInvoke _ _ => true
  | _ => false
  end.

(** The ids on the wire after a run that left the world [w] and logged
    [L]: the [k]-th publish frame carries the id made with the counter at
    [k], every pending id is among them, and the reply channel of an envelope
    is named after its id. *)
Record Wire (w : World) (L : list Effect) : Prop := {
  wire_ids : ∃ nows : list N,
    length nows = requestCounter w
    ∧ ids_sent L = (λ x, request_id_of x.1 x.2) <$> zip nows (seq 1 (requestCounter w));
  wire_pending : ∀ id, is_Some (pendingRequests w !! id) → id ∈ ids_sent L;
  wire_reply : ∀ x, x ∈ publishes L → reply_channel x.2 = "reply_" +:+ request_id x.2
}.

(** ** Reconnection *)

(** The reconnections scheduled since the last [connect] event, counting
    from [n]. *)
Definition reconnects_since_open (n : nat) (l : list Effect) : nat :=
  foldl (λ n e, match e with
                | EEmit EvConnect => 0
                | ESetTimeout _ Reconnect _ => S n
                | _ => n
                end) n l.

(** The delays of the reconnection timers set. *)
Definition reconnect_delays (l : list Effect) : list N :=
  omap (λ e, match e with ESetTimeout _ Reconnect ms => Some ms | _ => None end) l.

(** ** Promises *)

(** The promises the client has handed out, with the method that made
    each. *)
Definition promises_made (l : list Effect) : list (promise * Origin) :=
  omap (λ e, match e with ENewPromise p o => Some (p, o) | _ => None end) l.

(** The promise [p], made by [o], is accounted for in [w]: it is settled,
    or it is held by what can still settle it, a pending request (whose
    timer is running) or a socket. *)
Definition accounted (w : World) (p : promise) (o : Origin) : Prop :=
  is_Some (settled w !! p)
  ∨ (o = OfSendAction ∧ pending_promise (pendingRequests w) p)
  ∨ (o = OfConnect ∧ socket_promise (sockets w) p).

(** ** The channel registry *)

(** The registry is consistent, over the fields it reads: the subscribed
    channels [C] are the channels with a handler in [L], and every listener
    is the handler of a channel. *)
Record RegistryF (C : gset string) (L : gmap string (list handler)) : Prop := {
  reg_subscribed : ∀ c, c ∈ C ↔ is_Some (L !! ("channel:" +:+ c));
  reg_handlers : ∀ event hs, L !! event = Some hs → hs ≠ [] ∧ ∃ c, event = "channel:" +:+ c
}.

Definition Registry (w : World) : Prop :=
  RegistryF (subscribedChannels w) (listeners w).

(** The handlers registered for the channel [c], in registration order. *)
Definition handlers_of (w : World) (c : string) : list handler :=
  default [] (listeners w !! ("channel:" +:+ c)).

(** What delivering [data] on the channel [c] logs. *)
Definition delivery (w : World) (c : string) (data : jsval) : list Effect :=
  EEmit (EvChannel ("channel:" +:+ c) data) :: ((λ h, EInvoke h data) <$> handlers_of w c).

(** ** Events of the socket *)

(** The error [connect] rejects with when the socket reports [error]. *)
Definition connection_failed (error : Error) : Error :=
  DaebusConnectionError ("WebSocket connection failed: " +:+ error_message error).

(** The error of [scheduleReconnect] when the attempts are used up, and
    the event that carries it. *)
Definition attempts_error : Error :=
  DaebusConnectionError "Max reconnection attempts exceeded".

Definition attempts_exceeded : Effect := EEmit (EvError attempts_error).

(** The exception of [emit('error', e)] on a client with no listener for
    the event, as it shows in the log when nothing catches it. *)
Definition unheard (w : World) (e : Error) : list Effect :=
  if bool_decide (errorListeners w = 0) then [EThrow e] else [].

(** What [scheduleReconnect] logs when it is the last call of a turn or of
    a promise handler: the timer it starts or, with the attempts used up,
    the error event, with its exception when nobody listens. *)
Definition reconnect_log (w : World) : list Effect :=
  if bool_decide (reconnectAttempts w < default 5 (maxReconnectAttempts (options w)))
  then [ESetTimeout (nextTimer w) Reconnect (default 5000%N (reconnectInterval (options w)))]
  else attempts_exceeded :: unheard w attempts_error.

(** What the rejection handler of a reconnection logs, [e] being the error
    its promise was rejected with: the [error] event and then what
    [scheduleReconnect] does or, on a client with no listener for the
    event, the exception of the [emit], after which [scheduleReconnect] is
    not called. *)
Definition reconnect_failed_log (w : World) (e : Error) : list Effect :=
  EEmit (EvError e)
    :: if bool_decide (errorListeners w = 0) then [EThrow e] else reconnect_log w.

(** The exceptions that left the code of a turn or of a promise handler. *)
Definition thrown (l : list Effect) : list Error :=
  omap (λ e, match e with EThrow err => Some err | _ => None end) l.



(** * The HTTP client ([src/http/client.ts]) *)

Module Http.
Import Equations.Prop.Equations.

(** [HttpClientOptions], as the constructor takes them: a property that is
    left out is [None].  Times are in milliseconds. *)
Module Options.
Record t := {
  baseUrl : string;
  timeout : option N;
  retryAttempts : option nat;
  retryDelay : option N;
  headers : option (gmap string string)
}.
End Options.

(** [Partial<HttpClientOptions>], as [updateConfig] takes them. *)
Module Partial.
Record t := {
  baseUrl : option string;
  timeout : option N;
  retryAttempts : option nat;
  retryDelay : option N;
  headers : option (gmap string string)
}.
End Partial.

(** The private fields of [DaebusHttpClient]. *)
Record DaebusHttpClient := {
  baseUrl : string;
  timeout : N;
  retryAttempts : nat;
  retryDelay : N;
  defaultHeaders : gmap string string
}.

(** [s.replace(/\/$/, '')]: the string without its last character, when
    that is a slash. *)
Fixpoint remove_trailing_slash (s : string) : string :=
  match s with
  | EmptyString => EmptyString
  | String c EmptyString => if decide (c = "/"%char) then EmptyString else s
  | String c s' => String c (remove_trailing_slash s')
  end.

(** [{ ...a, ...b }]: the properties of [b] win. *)
Definition spread (a b : gmap string string) : gmap string string := b ∪ a.

(** The constructor. *)
Definition new (options : Options.t) : DaebusHttpClient :=
  {| baseUrl := remove_trailing_slash (Options.baseUrl options);
     timeout := default 30000%N (Options.timeout options);
     retryAttempts := default 3 (Options.retryAttempts options);
     retryDelay := default 1000%N (Options.retryDelay options);
     defaultHeaders :=
       spread {["Content-Type" := "application/json"]}
         (default ∅ (Options.headers options)) |}.

(** [updateConfig(options)].  A base URL that is the empty string is falsy
    and is ignored; headers that are given, even empty, are merged in. *)
Definition updateConfig (options : Partial.t) (c : DaebusHttpClient) : DaebusHttpClient :=
  {| baseUrl :=
       match Partial.baseUrl options with
       | Some url => if String.eqb url "" then baseUrl c else remove_trailing_slash url
       | None => baseUrl c
       end;
     timeout := default (timeout c) (Partial.timeout options);
     retryAttempts := default (retryAttempts c) (Partial.retryAttempts options);
     retryDelay := default (retryDelay c) (Partial.retryDelay options);
     defaultHeaders :=
       match Partial.headers options with
       | Some h => spread (defaultHeaders c) h
       | None => defaultHeaders c
       end |}.

(** A client after the updates [ps], in order. *)
Definition updated (c : DaebusHttpClient) (ps : list Partial.t) : DaebusHttpClient :=
  foldl (λ c p, updateConfig p c) c ps.

(** The update that gives nothing. *)
Definition nothing : Partial.t :=
  {| Partial.baseUrl := None; Partial.timeout := None; Partial.retryAttempts := None;
     Partial.retryDelay := None; Partial.headers := None |}.

(** What [makeRequestWithRetry] does to the outside: a call of [fetch],
    and a wait of [delay]. *)
Inductive Effect :=
  | EFetch (url : string)
  | EDelay (ms : N).

(** [makeRequestWithRetry(url, init, attempt)].  [fetch k] is how the call
    of [fetch] made by attempt [k] ends: with a response, or with an
    exception.  The result is how the method ends, with what it did. *)
Equations makeRequestWithRetry {Response : Type} (c : DaebusHttpClient)
    (fetch : nat → Res Response) (url : string) (attempt : nat) :
    Res Response * list Effect
    by wf (retryAttempts c - attempt) lt :=
  makeRequestWithRetry c fetch url attempt with fetch attempt := {
    | Ok response => (Ok response, [EFetch url])
    | Thrown error with decide (attempt < retryAttempts c) := {
        | left _ =>
            let '(r, l) := makeRequestWithRetry c fetch url (S attempt) in
            (r, EFetch url :: EDelay (retryDelay c * N.of_nat attempt) :: l)
        | right _ => (Thrown error, [EFetch url]) } }.
Next Obligation. lia. Qed.

(** The log of [k] attempts in a row, the first of them attempt [first]:
    each but the last is followed by its wait. *)
Definition attempts_log (c : DaebusHttpClient) (url : string) (first k : nat) : list Effect :=
  flat_map (λ j, [EFetch url; EDelay (retryDelay c * N.of_nat j)]) (seq first (k - 1))
    ++ [EFetch url].

(** The calls of [fetch] in a log, and the time spent in [delay]. *)
Definition fetches (l : list Effect) : nat :=
  length (omap (λ e, match e with EFetch u => Some u | _ => None end) l).

Definition waited (l : list Effect) : N :=
  foldr (λ e n, match e with EDelay ms => (ms + n)%N | _ => n end) 0%N l.

(** [fetch] threw. *)
Definition failed {A} (r : Res A) : Prop :=
  match r with
  | Ok _ => False
  | Thrown _ => True
  end.

End Http.

(** * The client ([src/client.ts]) *)

(** [DaebusClient] holds an HTTP client and a WebSocket client and
    forwards to them.  Its methods [get], [post] and [request], which
    need [fetch], are outside the embedding; [waitForConnection] is in
    [Wait] below.  The [schema] option, which the code stores and never
    reads, is left out. *)
Module Client.

(** [DaebusClientOptions]; a property that is left out is [None]. *)
Module Options.
Record t := {
  serviceName : string;
  httpBaseUrl : option string;
  wsUrl : option string;
  timeout : option N;
  retryAttempts : option nat;
  retryDelay : option N;
  headers : option (gmap string string);
  autoConnect : option bool
}.
End Options.

(** [Partial<DaebusClientOptions>], as [updateConfig] takes them: a
    property is left out ([None]), or is there with [undefined]
    ([Some None]) or with a value.  A [serviceName] that is there is a
    string. *)
Module Partial.
Record t := {
  serviceName : option string;
  httpBaseUrl : option (option string);
  wsUrl : option (option string);
  timeout : option (option N);
  retryAttempts : option (option nat);
  retryDelay : option (option N);
  headers : option (option (gmap string string));
  autoConnect : option (option bool)
}.
End Partial.

(** The fields of [DaebusClient].  [wsClient] is the WebSocket client with
    the runtime it talks to; [watched] is the promise of the [connect] call
    of the constructor, which carries the rejection handler attached
    there. *)
Record DaebusClient := {
  options : Options.t;
  serviceName : string;
  httpClient : option Http.DaebusHttpClient;
  wsClient : option World;
  watched : option promise
}.

Definition set_wsClient (w : World) (c : DaebusClient) : DaebusClient :=
  {| options := options c; serviceName := serviceName c; httpClient := httpClient c;
     wsClient := Some w; watched := watched c |}.

(** Truthiness of a URL option: given, and not the empty string. *)
Definition given (url : option string) : bool :=
  match url with
  | Some u => negb (String.eqb u "")
  | None => false
  end.

(** The options the constructor passes to [DaebusHttpClient]. *)
Definition http_options (o : Options.t) : Http.Options.t :=
  {| Http.Options.baseUrl := default "" (Options.httpBaseUrl o);
     Http.Options.timeout := Options.timeout o;
     Http.Options.retryAttempts := Options.retryAttempts o;
     Http.Options.retryDelay := Options.retryDelay o;
     Http.Options.headers := Options.headers o |}.

(** The options the constructor passes to [DaebusWebSocketClient]. *)
Definition ws_options (o : Options.t) : WebSocketClientOptions :=
  {| reconnectInterval := Some (default 5000%N (Options.retryDelay o));
     maxReconnectAttempts := Some (default 5 (Options.retryAttempts o));
     timeout := Options.timeout o |}.

(** The WebSocket client the constructor makes, with the listeners it
    puts on it to pass its events on: the one on [error] counts for
    [emit]. *)
Definition made (o : Options.t) : World :=
  set_errorListeners 1 (init (ws_options o)).

(** The constructor.  [ctor] is what [new WebSocket] does if [connect]
    gets to it.  The result is the client, with what its WebSocket client
    did. *)
Definition new (o : Options.t) (ctor : option Error) : DaebusClient * list Effect :=
  let http := if given (Options.httpBaseUrl o) then Some (Http.new (http_options o)) else None in
  if given (Options.wsUrl o) then
    if bool_decide (Options.autoConnect o ≠ Some false) then
      match connect ctor (made o) with
      | (Ok p, w, l) =>
          ({| options := o; serviceName := Options.serviceName o; httpClient := http;
              wsClient := Some w; watched := Some p |}, l)
      | (Thrown _, w, l) =>
          ({| options := o; serviceName := Options.serviceName o; httpClient := http;
              wsClient := Some w; watched := None |}, l)
      end
    else
      ({| options := o; serviceName := Options.serviceName o; httpClient := http;
          wsClient := Some (made o); watched := None |}, [])
  else
    ({| options := o; serviceName := Options.serviceName o; httpClient := http;
        wsClient := None; watched := None |}, []).

(** The error of the WebSocket methods of a client made without
    [wsUrl]. *)
Definition not_configured : Error :=
  DaebusConnectionError "WebSocket client not configured. Provide wsUrl in options.".

(** How an [async] method of the client ends: the promise it returns
    follows a promise of the WebSocket client, is resolved at once, or is
    rejected at once. *)
Inductive Async :=
  | Follows (p : promise)
  | Fulfilled
  | RejectedWith (e : Error).

(** [return this.wsClient.m(...)] in an [async] method, after the test
    that [wsClient] is there. *)
Definition forward (m : M promise) (c : DaebusClient) : Async * DaebusClient * list Effect :=
  match wsClient c with
  | None => (RejectedWith not_configured, c, [])
  | Some w =>
      match m w with
      | (Ok p, w', l) => (Follows p, set_wsClient w' c, l)
      | (Thrown e, w', l) => (RejectedWith e, set_wsClient w' c, l)
      end
  end.

Definition connect (ctor : option Error) : DaebusClient → Async * DaebusClient * list Effect :=
  forward (connect ctor).

Definition disconnect (c : DaebusClient) : Res unit * DaebusClient * list Effect :=
  match wsClient c with
  | Some w => let '(r, w', l) := disconnect w in (r, set_wsClient w' c, l)
  | None => (Ok tt, c, [])
  end.

Definition sendAction (action_name : string) (payload_arg : json) (timeout_arg : option N)
    (now_id now_ts : N) (c : DaebusClient) : Async * DaebusClient * list Effect :=
  forward (sendAction (serviceName c) action_name payload_arg timeout_arg
             now_id now_ts) c.

Definition subscribe (channel : string) (h : handler) :
    DaebusClient → Async * DaebusClient * list Effect :=
  forward (subscribeToChannel channel h).

Definition unsubscribe (channel : string) : DaebusClient → Async * DaebusClient * list Effect :=
  forward (unsubscribeFromChannel channel).

Definition broadcast (channel : string) (data : json) (c : DaebusClient) :
    Res unit * DaebusClient * list Effect :=
  match wsClient c with
  | None => (Thrown not_configured, c, [])
  | Some w => let '(r, w', l) := broadcast channel data w in (r, set_wsClient w' c, l)
  end.

Definition isConnected (c : DaebusClient) : bool :=
  match wsClient c with
  | Some w => isConnected w
  | None => false
  end.

Definition ensureConnection (ctor : option Error) (c : DaebusClient) :
    Async * DaebusClient * list Effect :=
  if negb (isConnected c) && bool_decide (is_Some (wsClient c)) then connect ctor c
  else (Fulfilled, c, []).

(** Reading a property of a partial object: [undefined] when it is left
    out. *)
Definition read {A} (x : option (option A)) : option A := x ≫= id.

(** Truthiness of a number option. *)
Definition truthy_N (x : option N) : bool :=
  match x with
  | Some n => negb (n =? 0)%N
  | None => false
  end.

Definition truthy_nat (x : option nat) : bool :=
  match x with
  | Some n => negb (n =? 0)
  | None => false
  end.

(** [Object.assign(o, p)]: the properties [p] has replace those of [o],
    also by [undefined]. *)
Definition assign (o : Options.t) (p : Partial.t) : Options.t :=
  {| Options.serviceName := default (Options.serviceName o) (Partial.serviceName p);
     Options.httpBaseUrl := default (Options.httpBaseUrl o) (Partial.httpBaseUrl p);
     Options.wsUrl := default (Options.wsUrl o) (Partial.wsUrl p);
     Options.timeout := default (Options.timeout o) (Partial.timeout p);
     Options.retryAttempts := default (Options.retryAttempts o) (Partial.retryAttempts p);
     Options.retryDelay := default (Options.retryDelay o) (Partial.retryDelay p);
     Options.headers := default (Options.headers o) (Partial.headers p);
     Options.autoConnect := default (Options.autoConnect o) (Partial.autoConnect p) |}.

(** The object [updateConfig] passes to the HTTP client. *)
Definition http_update (o : Options.t) (p : Partial.t) : Http.Partial.t :=
  {| Http.Partial.baseUrl :=
       if given (read (Partial.httpBaseUrl p)) then read (Partial.httpBaseUrl p)
       else Options.httpBaseUrl o;
     Http.Partial.timeout := read (Partial.timeout p);
     Http.Partial.retryAttempts := read (Partial.retryAttempts p);
     Http.Partial.retryDelay := read (Partial.retryDelay p);
     Http.Partial.headers := read (Partial.headers p) |}.

(** [updateConfig(options)]. *)
Definition updateConfig (p : Partial.t) (c : DaebusClient) : DaebusClient :=
  {| options := assign (options c) p;
     serviceName := serviceName c;
     httpClient :=
       match httpClient c with
       | Some http =>
           if given (read (Partial.httpBaseUrl p))
              || truthy_N (read (Partial.timeout p))
              || truthy_nat (read (Partial.retryAttempts p))
              || truthy_N (read (Partial.retryDelay p))
              || bool_decide (is_Some (read (Partial.headers p)))
           then Some (Http.updateConfig (http_update (options c) p) http)
           else Some http
       | None => None
       end;
     wsClient := wsClient c;
     watched := watched c |}.

(** A client after the updates [ps], in order. *)
Definition updated (c : DaebusClient) (ps : list Partial.t) : DaebusClient :=
  foldl (λ c p, updateConfig p c) c ps.

(** [forService(serviceName)]: a client made from the options of this
    one, with the service name replaced. *)
Definition forService (name : string) (ctor : option Error) (c : DaebusClient) :
    DaebusClient * list Effect :=
  new {| Options.serviceName := name;
         Options.httpBaseUrl := Options.httpBaseUrl (options c);
         Options.wsUrl := Options.wsUrl (options c);
         Options.timeout := Options.timeout (options c);
         Options.retryAttempts := Options.retryAttempts (options c);
         Options.retryDelay := Options.retryDelay (options c);
         Options.headers := Options.headers (options c);
         Options.autoConnect := Options.autoConnect (options c) |} ctor.

(** An update whose properties for the HTTP client all have a truthy
    value, and that has no headers. *)
Definition gives_values (p : Partial.t) : bool :=
  match Partial.httpBaseUrl p with Some u => given u | None => true end
  && match Partial.timeout p with Some t => truthy_N t | None => true end
  && match Partial.retryAttempts p with Some n => truthy_nat n | None => true end
  && match Partial.retryDelay p with Some t => truthy_N t | None => true end
  && bool_decide (Partial.headers p = None).

(** What the listeners the constructor puts on the WebSocket client make
    the client itself emit: the [connect], [disconnect], [error] and
    [message] events, as they are; a channel event is not passed on.  The
    application is taken to listen to the [error] events of the client:
    Node throws an [error] event that has no listener. *)
Definition proxied (l : list Effect) : list Emitted :=
  omap (λ e, match e with
             | EEmit (EvChannel _ _) => None
             | EEmit ev => Some ev
             | _ => None
             end) l.

(** The [error] event of the rejection handler of the constructor: it
    runs when the turn with the log [l], from the world [w], has rejected
    the promise [watched]. *)
Definition reported (c : DaebusClient) (w : World) (l : list Effect) : list Emitted :=
  match watched c with
  | Some p =>
      match settled w !! p, settle_calls p l with
      | None, Rejected e :: _ => [EvError e]
      | _, _ => []
      end
  | None => []
  end.

End Client.

(** The options of a client of the service [svc] over WebSocket, with
    everything else left out. *)
Definition svc_options : Client.Options.t :=
  {| Client.Options.serviceName := "svc"; Client.Options.httpBaseUrl := None;
     Client.Options.wsUrl := Some "ws://localhost:8081"; Client.Options.timeout := None;
     Client.Options.retryAttempts := None; Client.Options.retryDelay := None;
     Client.Options.headers := None; Client.Options.autoConnect := None |}.

(** * Waiting for the connection ([waitForConnection] of [src/client.ts]) *)

(** [waitForConnection] puts a listener on the [connect] event of the
    client with [once] and starts a timer; the two race.  The state below is
    the part of the client as an event emitter that the method uses: the
    listeners it has put on [connect], its timers and its promises (which
    are numbered apart from those of the WebSocket client). *)
Module Wait.

(** A call that is waiting: the promise it returned and its timer, which
    [onConnect] and the callback of the timer have both captured. *)
Record Waiter := { wait_promise : promise; wait_timer : timer }.

Global Instance Waiter_eq_dec : EqDecision Waiter.
Proof. solve_decision. Defined.

Record Waiters := {
  onConnect : list Waiter;
  timers : gmap timer Waiter;
  nextTimer : timer;
  nextPromise : promise;
  settled : gmap promise Outcome
}.

Definition empty : Waiters :=
  {| onConnect := []; timers := ∅; nextTimer := 0; nextPromise := 0; settled := ∅ |}.

Inductive Effect :=
  | ENewPromise (p : promise)
  | ESetTimeout (t : timer) (ms : N)
  | EClearTimeout (t : timer)
  | EOnce (w : Waiter)
  | EOff (w : Waiter)
  | ESettle (p : promise) (o : Outcome).

(** The first call of [resolve] or [reject] settles the promise. *)
Definition settle (p : promise) (o : Outcome) (s : Waiters) : Waiters :=
  {| onConnect := onConnect s; timers := timers s; nextTimer := nextTimer s;
     nextPromise := nextPromise s;
     settled := match settled s !! p with
                | Some _ => settled s
                | None => <[p := o]> (settled s)
                end |}.

(** [removeListener]: the listener leaves the list. *)
Definition remove_listener (w : Waiter) (s : Waiters) : Waiters :=
  {| onConnect := filter (λ x, x ≠ w) (onConnect s); timers := timers s;
     nextTimer := nextTimer s; nextPromise := nextPromise s; settled := settled s |}.

Definition clear_timer (t : timer) (s : Waiters) : Waiters :=
  {| onConnect := onConnect s; timers := delete t (timers s); nextTimer := nextTimer s;
     nextPromise := nextPromise s; settled := settled s |}.

Definition timeout_error : Error := DaebusConnectionError "Connection timeout".

(** [waitForConnection(timeout)], on the client [c]; [timeout_arg] is
    [None] when the argument is left out.  The result is the promise made,
    or [None] when the method returns at once. *)
Definition waitForConnection (timeout_arg : option N) (c : Client.DaebusClient)
    (s : Waiters) : option promise * Waiters * list Effect :=
  if Client.isConnected c then (None, s, [])
  else
    let w := {| wait_promise := nextPromise s; wait_timer := nextTimer s |} in
    (Some (nextPromise s),
     {| onConnect := onConnect s ++ [w];
        timers := <[nextTimer s := w]> (timers s);
        nextTimer := S (nextTimer s);
        nextPromise := S (nextPromise s);
        settled := settled s |},
     [ENewPromise (nextPromise s); ESetTimeout (nextTimer s) (default 10000%N timeout_arg);
      EOnce w]).

(** The wrapper [once] makes around [onConnect]: it takes itself off the
    event, then calls [onConnect], which clears the timer and resolves. *)
Definition run_onConnect (w : Waiter) (s : Waiters) : Waiters * list Effect :=
  (settle (wait_promise w) (Resolved undefined)
     (clear_timer (wait_timer w) (remove_listener w s)),
   [EClearTimeout (wait_timer w); ESettle (wait_promise w) (Resolved undefined)]).

(** [emit('connect')]: the listeners that are on the event when it is
    emitted are called, in order. *)
Definition emit_connect (s : Waiters) : Waiters * list Effect :=
  foldl (λ '(s, l) w, let '(s', l') := run_onConnect w s in (s', l ++ l'))
    (s, []) (onConnect s).

(** The callback of the timer of a call. *)
Definition on_timeout (w : Waiter) (s : Waiters) : Waiters * list Effect :=
  (settle (wait_promise w) (Rejected timeout_error) (remove_listener w s),
   [EOff w; ESettle (wait_promise w) (Rejected timeout_error)]).

Inductive Event :=
  | Call (timeout_arg : option N) (c : Client.DaebusClient)
  | Connect
  | TimerFire (t : timer).

(** One turn; [None] when the timer is not running. *)
Definition step (s : Waiters) (e : Event) : option (Waiters * list Effect) :=
  match e with
  | Call timeout_arg c => let '(_, s', l) := waitForConnection timeout_arg c s in Some (s', l)
  | Connect => Some (emit_connect s)
  | TimerFire t =>
      match timers s !! t with
      | Some w => Some (on_timeout w (clear_timer t s))
      | None => None
      end
  end.

Fixpoint run (s : Waiters) (es : list Event) : option (Waiters * list Effect) :=
  match es with
  | [] => Some (s, [])
  | e :: es' =>
      match step s e with
      | Some (s1, l1) =>
          match run s1 es' with
          | Some (s2, l2) => Some (s2, l1 ++ l2)
          | None => None
          end
      | None => None
      end
  end.

(** The state after the events [es], from the start, and their log. *)
Definition after (es : list Event) : Waiters :=
  match run empty es with
  | Some (s, _) => s
  | None => empty
  end.

Definition log_after (es : list Event) : list Effect :=
  match run empty es with
  | Some (_, l) => l
  | None => []
  end.

(** The calls of [resolve] and [reject] on the promise [p]. *)
Definition settle_calls (p : promise) (l : list Effect) : list Outcome :=
  omap (λ e, match e with
             | ESettle q o => if decide (q = p) then Some o else None
             | _ => None
             end) l.

(** The promises made. *)
Definition promises_made (l : list Effect) : list promise :=
  omap (λ e, match e with ENewPromise p => Some p | _ => None end) l.

(** The state is consistent: a call is waiting exactly when its timer is
    running, the waiting calls are distinct and have promises and timers of
    their own, and a promise is settled exactly when it was made and is not
    waiting. *)
Record Inv (s : Waiters) : Prop := {
  inv_timer : ∀ t w, timers s !! t = Some w ↔ (w ∈ onConnect s ∧ wait_timer w = t);
  inv_nodup : NoDup (onConnect s);
  inv_promise : ∀ w1 w2, w1 ∈ onConnect s → w2 ∈ onConnect s →
    wait_promise w1 = wait_promise w2 → w1 = w2;
  inv_fresh : ∀ w, w ∈ onConnect s →
    wait_promise w < nextPromise s ∧ wait_timer w < nextTimer s;
  inv_settled : ∀ p, is_Some (settled s !! p) ↔
    (p < nextPromise s ∧ ∀ w, w ∈ onConnect s → wait_promise w ≠ p)
}.

(** What the listeners [l] log when [connect] is emitted. *)
Definition released (l : list Waiter) : list Effect :=
  l ≫= λ w, [EClearTimeout (wait_timer w); ESettle (wait_promise w) (Resolved undefined)].

(** The log [L] of a run accounts for the promises of the state [s] it
    led to: the promises made are the first [nextPromise s] ones, nothing
    has been called on the promise of a call that is waiting, and one call
    has settled each promise that is settled, resolving it or rejecting it
    with the timeout error. *)
Record Account (s : Waiters) (L : list Effect) : Prop := {
  acc_made : promises_made L = seq 0 (nextPromise s);
  acc_waiting : ∀ w, w ∈ onConnect s → settle_calls (wait_promise w) L = [];
  acc_settled : ∀ p o, settled s !! p = Some o →
    settle_calls p L = [o] ∧ (o = Resolved undefined ∨ o = Rejected timeout_error);
  acc_fresh : ∀ p, nextPromise s ≤ p → settle_calls p L = []
}.

End Wait.

(** A client that is not connected, and three calls on it, of which the
    second times out before the connection comes. *)
Definition idle_client : Client.DaebusClient := (Client.new svc_options None).1.

Definition waiting_trace : list Wait.Event :=
  [Wait.Call None idle_client; Wait.Call (Some 500%N) idle_client;
   Wait.TimerFire 1; Wait.Call None idle_client].

(** Two updates of a client: the first gives a WebSocket URL and new
    retry settings, the second a base URL for HTTP. *)
Definition retry_update : Client.Partial.t :=
  {| Client.Partial.serviceName := None; Client.Partial.httpBaseUrl := None;
     Client.Partial.wsUrl := Some (Some "ws://localhost:9000");
     Client.Partial.timeout := Some (Some 2000%N);
     Client.Partial.retryAttempts := Some (Some 7);
     Client.Partial.retryDelay := None; Client.Partial.headers := None;
     Client.Partial.autoConnect := None |}.

Definition url_update : Client.Partial.t :=
  {| Client.Partial.serviceName := Some "other"; Client.Partial.httpBaseUrl := Some (Some "http://h2/");
     Client.Partial.wsUrl := None; Client.Partial.timeout := None;
     Client.Partial.retryAttempts := None; Client.Partial.retryDelay := None;
     Client.Partial.headers := None; Client.Partial.autoConnect := None |}.

(** The options of a client of the service [svc] over HTTP only. *)
Definition http_only_options : Client.Options.t :=
  {| Client.Options.serviceName := "svc"; Client.Options.httpBaseUrl := Some "http://h/";
     Client.Options.wsUrl := None; Client.Options.timeout := None;
     Client.Options.retryAttempts := None; Client.Options.retryDelay := None;
     Client.Options.headers := Some {["X-Token" := "t"]}; Client.Options.autoConnect := None |}.

(** A connected client: its socket is open. *)
Definition connected_trace : list Event := [CallConnect None; SockOpen 0].

(** A channel message for the channel of [subscribed_trace]. *)
Definition alert_frame : json :=
  JObj [("type", JStr "channel_message"); ("channel", JStr "alerts"); ("data", JStr "fire")].

(** The response to the request of [ping_trace]. *)
Definition pong_response : json :=
  JObj [("type", JStr "response"); ("request_id", JStr "req_1700_1");
        ("data", JStr "pong")].

(** A client that connects for the first time. *)
Definition connecting_trace : list Event := [CallConnect None].

(** * Properties *)

(** ** Request ids *)

Lemma pretty_N_char_not_underscore x : pretty_N_char x ≠ "_"%char.
Proof. unfold pretty_N_char. repeat case_match; discriminate. Qed.

Lemma pretty_N_go_no_underscore x s :
  has_underscore s = false → has_underscore (pretty_N_go x s) = false.
Proof.
  revert s. induction (N.lt_wf_0 x) as [x _ IH]; intros s Hs.
  destruct (decide (x = 0)%N) as [->|Hx].
  - by rewrite pretty_N_go_0.
  - rewrite pretty_N_go_step by lia. apply IH.
    + apply N.div_lt; lia.
    + simpl. rewrite Hs, orb_false_r.
      apply bool_decide_eq_false, pretty_N_char_not_underscore.
Qed.

Lemma pretty_N_no_underscore (n : N) : has_underscore (pretty n) = false.
Proof.
  unfold pretty, pretty_N.
  case_decide; [done|]. by apply pretty_N_go_no_underscore.
Qed.

Lemma pretty_nat_no_underscore (n : nat) : has_underscore (pretty n) = false.
Proof. apply pretty_N_no_underscore. Qed.

Lemma split_at_underscore s1 s2 r1 r2 :
  has_underscore s1 = false → has_underscore s2 = false →
  s1 +:+ "_" +:+ r1 = s2 +:+ "_" +:+ r2 → s1 = s2 ∧ r1 = r2.
Proof.
  revert s2. induction s1 as [|c s1 IH]; intros [|d s2] H1 H2 Heq; simpl in *.
  - by simplify_eq.
  - injection Heq as <- _. by rewrite bool_decide_eq_true_2 in H2.
  - injection Heq as -> _. by rewrite bool_decide_eq_true_2 in H1.
  - apply orb_false_iff in H1 as [_ H1]. apply orb_false_iff in H2 as [_ H2].
    injection Heq as -> Heq. destruct (IH s2 H1 H2 Heq) as [-> ->]. done.
Qed.

(** The rendering of [(now, counter)] is injective: two ids are equal only
    when made from the same clock reading and the same counter value. *)
Lemma request_id_of_inj n1 k1 n2 k2 :
  request_id_of n1 k1 = request_id_of n2 k2 → n1 = n2 ∧ k1 = k2.
Proof.
  unfold request_id_of. intros H. simpl in H. simplify_eq.
  apply split_at_underscore in H as [Hn Hk];
    auto using pretty_nat_no_underscore, pretty_N_no_underscore.
  split; by apply (inj pretty).
Qed.

(** ** Symbolic execution of client code *)

Ltac unfold_prims :=
  unfold emit_channel, prop, ws_send, sock_close, new_WebSocket, clearTimeout,
    setTimeout, new_promise, emit, effect, modify, get, throw, ret in *.

Ltac unfold_methods :=
  unfold handleMessage, handleResponse, handleChannelMessage, broadcast,
    unsubscribeFromChannel, subscribeToChannel, on_reconnect_timer,
    on_request_timeout, sendAction, sendToChannel, disconnect, req_reject,
    req_resolve, on_error, on_close, on_open, connect,
    attach_catch, reject, resolve, callback, reconnect_failed, scheduleReconnect,
    generateRequestId in *.

Ltac unfold_m := unfold_methods; unfold_prims; unfold try_catch, bind in *.

Lemma for_each_effects {A} (f : A → Effect) (l : list A) (w : World) :
  for_each l (λ x, effect (f x)) w = (Ok tt, w, f <$> l).
Proof.
  induction l as [|x l IH]; [done|].
  simpl. unfold bind at 1. unfold effect at 1. by rewrite IH.
Qed.

Lemma emit_channel_eq event data w :
  emit_channel event data w =
    (Ok tt, w,
     EEmit (EvChannel event data)
       :: ((λ h, EInvoke h data) <$> default [] (listeners w !! event))).
Proof.
  unfold emit_channel, bind, get, emit.
  by rewrite for_each_effects.
Qed.

(** A loop leaves alone what its body leaves alone. *)
Lemma for_each_frame {A B} (f : World → B) (body : A → M unit) (l : list A) :
  (∀ x w, f (world_of (body x w)) = f w) →
  ∀ w, f (world_of (for_each l body w)) = f w.
Proof.
  unfold world_of. intros Hbody. induction l as [|x l IH]; intros w; [done|].
  simpl. unfold bind. specialize (Hbody x w).
  destruct (body x w) as [[[[]|e] w1] l1]; simpl in *; [|done].
  specialize (IH w1). destruct (for_each l body w1) as [[r w2] l2]; simpl in *.
  congruence.
Qed.

Lemma send_each_eq (l : list string) w :
  for_each l (λ channel, ws_send (FSubscribe channel)) w =
    if isConnected w then
      (Ok tt, w, (λ channel, ESend (default 0 (ws w)) (FSubscribe channel)) <$> l)
    else if send_throws w then
      match l with
      | [] => (Ok tt, w, [])
      | _ => (Thrown (not_open_error w), w, [])
      end
    else (Ok tt, w, []).
Proof.
  unfold isConnected, send_throws, not_open_error, sock_state.
  destruct (ws w) as [s|] eqn:Hws.
  - destruct (sockets w !! s) as [[[] p]|] eqn:Hs; simpl.
    + destruct l as [|x l]; [done|].
      cbn [for_each]. unfold bind at 1. unfold ws_send at 1, bind, get, sock_state.
      by rewrite Hws, Hs.
    + induction l as [|x l IH]; [done|].
      cbn [for_each]. unfold bind at 1. unfold ws_send at 1, bind, get, sock_state.
      rewrite Hws, Hs. simpl. unfold effect. rewrite IH. done.
    + induction l as [|x l IH]; [done|].
      cbn [for_each]. unfold bind at 1. unfold ws_send at 1, bind, get, sock_state.
      rewrite Hws, Hs. simpl. unfold ret. rewrite IH. done.
    + induction l as [|x l IH]; [done|].
      cbn [for_each]. unfold bind at 1. unfold ws_send at 1, bind, get, sock_state.
      rewrite Hws, Hs. simpl. unfold ret. rewrite IH. done.
    + induction l as [|x l IH]; [done|].
      cbn [for_each]. unfold bind at 1. unfold ws_send at 1, bind, get, sock_state.
      rewrite Hws, Hs. simpl. unfold ret. rewrite IH. done.
  - destruct l as [|x l]; [done|].
    cbn [for_each]. unfold bind at 1. unfold ws_send at 1, bind, get.
    rewrite Hws. done.
Qed.

Lemma resubscribeToChannels_eq w :
  resubscribeToChannels w =
    if isConnected w then
      (Ok tt, w, (λ channel, ESend (default 0 (ws w)) (FSubscribe channel))
                   <$> elements (subscribedChannels w))
    else if send_throws w then
      match elements (subscribedChannels w) with
      | [] => (Ok tt, w, [])
      | _ => (Thrown (not_open_error w), w, [])
      end
    else (Ok tt, w, []).
Proof.
  unfold resubscribeToChannels, bind, get. rewrite send_each_eq.
  destruct (isConnected w); [done|]. destruct (send_throws w); [|done].
  by destruct (elements _).
Qed.

(** ** The message router: frames that cannot be parsed *)

Lemma handleMessage_unparsable error w :
  handleMessage (ParseThrows error) w =
    (emit_result w (parse_error error), w, [parse_failure error]).
Proof.
  unfold handleMessage, try_catch, bind, throw, emit, emit_result. simpl.
  by case_bool_decide.
Qed.

Lemma handleMessage_null w :
  handleMessage (ParseOk JNull) w =
    (emit_result w (parse_error null_type_error), w, [parse_failure null_type_error]).
Proof.
  unfold handleMessage, try_catch, bind, throw, emit, emit_result. simpl.
  by case_bool_decide.
Qed.

(** ** The invariant of the request correlator *)

Lemma Inv_init o : Inv (init o).
Proof.
  split; simpl; unfold pending_promise, socket_promise;
    try (intros; simplify_map_eq; done).
  all: try (intros ? (?&?&?&?); simplify_map_eq; done).
  intros p [[x Hx]|[Hp|[(?&?&?&?)|(?&?&Hs&?)]]]; simplify_map_eq.
  set_solver.
Qed.

Section InvF_updates.
Context {P : gmap string PendingRequest} {T : gmap timer TimerTask}
  {c nt np : nat} {S : gmap promise Outcome} {C : gset promise}
  {K : list Socket}.
Hypothesis HI : InvF P T c nt np S C K.

Lemma InvF_new_promise : InvF P T c nt (Datatypes.S np) S C K.
Proof.
  destruct HI. split; auto.
  intros p Hp. apply Nat.lt_lt_succ_r. auto.
Qed.

Lemma InvF_reconnect_timer :
  InvF P (<[nt := Reconnect]> T) c (Datatypes.S nt) np S C K.
Proof.
  destruct HI as [I1 I2 I3 I4 I5 I6 I7 I8]. split; auto.
  - intros id pr Hpr. destruct (I1 _ _ Hpr) as [a Ha]. exists a.
    rewrite lookup_insert_ne; [done|]. apply I4 in Ha. lia.
  - intros t id p a. rewrite lookup_insert.
    case_decide; [done|]. apply I2.
  - intros t task. rewrite lookup_insert.
    case_decide; [intros; lia|]. intros Ht%I4. lia.
Qed.

Lemma InvF_timer_fired t : T !! t = Some Reconnect → InvF P (delete t T) c nt np S C K.
Proof.
  intros Ht. destruct HI as [I1 I2 I3 I4 I5 I6 I7 I8]. split; auto.
  - intros id pr Hpr. destruct (I1 _ _ Hpr) as [a Ha]. exists a.
    rewrite lookup_delete_ne; [done|]. congruence.
  - intros t' id p a Ht'. apply lookup_delete_Some in Ht' as [_ Ht']. eauto.
  - intros t' task Ht'. apply lookup_delete_Some in Ht' as [_ Ht']. eauto.
Qed.

Lemma InvF_settle p o :
  ¬ pending_promise P p → p < np → InvF P T c nt np (<[p := o]> S) C K.
Proof.
  intros Hp Hlt. destruct HI as [I1 I2 I3 I4 I5 I6 I7 I8]. split; auto.
  - intros q Hq. destruct (I5 _ Hq) as [HS HC]. split; [|done].
    rewrite lookup_insert_ne; [done|]. by intros ->.
  - intros q [Hq|Hq]; [|by auto].
    rewrite lookup_insert in Hq. case_decide; [by subst|]. auto.
Qed.

Lemma InvF_catcher p :
  ¬ pending_promise P p → p < np → InvF P T c nt np S ({[p]} ∪ C) K.
Proof.
  intros Hp Hlt. destruct HI as [I1 I2 I3 I4 I5 I6 I7 I8]. split; auto.
  - intros q Hq. destruct (I5 _ Hq) as [HS HC]. split; [done|].
    intros [->%elem_of_singleton|?]%elem_of_union; done.
  - intros q [Hq|[Hq|Hq]]; [by auto| |by auto].
    apply elem_of_union in Hq as [->%elem_of_singleton|?]; auto.
Qed.

Lemma InvF_new_socket p r :
  ¬ pending_promise P p → p < np →
  InvF P T c nt np S C (K ++ [{| readyState := r; sock_promise := p |}]).
Proof.
  intros Hp Hlt. destruct HI as [I1 I2 I3 I4 I5 I6 I7 I8].
  assert (∀ q, socket_promise (K ++ [{| readyState := r; sock_promise := p |}]) q →
               socket_promise K q ∨ q = p) as Hsock.
  { intros q (s & k & Hs & <-). apply lookup_app_Some in Hs as [Hs|[_ Hs]].
    - left. by exists s, k.
    - right. apply list_lookup_singleton_Some in Hs as [_ <-]. done. }
  split; auto.
  - intros q [Hq|[Hq|[Hq|Hq]]]; [by auto..|].
    apply Hsock in Hq as [Hq| ->]; auto.
  - intros q Hq Hq'. apply Hsock in Hq' as [Hq'| ->]; [by eapply I7|done].
Qed.

Lemma InvF_readyState s r :
  InvF P T c nt np S C
    (alter (λ k, {| readyState := r; sock_promise := sock_promise k |}) s K).
Proof.
  destruct HI as [I1 I2 I3 I4 I5 I6 I7 I8].
  assert (∀ q, socket_promise
                 (alter (λ k, {| readyState := r; sock_promise := sock_promise k |}) s K) q →
               socket_promise K q) as Hsock.
  { intros q (s' & k & Hs & <-). rewrite list_lookup_alter in Hs.
    case_decide; [subst s'|by exists s', k].
    destruct (K !! s) as [k'|] eqn:Hk; simplify_eq/=. by exists s, k'. }
  split; auto.
  - intros q [Hq|[Hq|[Hq|Hq]]]; auto 10.
  - intros q Hq Hq'. eapply I7; eauto.
Qed.

(** A request leaves: its entry and its timer go together. *)
Lemma InvF_remove id pr :
  P !! id = Some pr →
  InvF (delete id P) (delete (req_timeout pr) T) c nt np S C K.
Proof.
  intros Hid. destruct HI as [I1 I2 I3 I4 I5 I6 I7 I8].
  assert (∀ q, pending_promise (delete id P) q → pending_promise P q) as Hpend.
  { intros q (i & r & Hi & <-). apply lookup_delete_Some in Hi as [_ Hi].
    by exists i, r. }
  split; auto.
  - intros i r Hi. apply lookup_delete_Some in Hi as [Hne Hi].
    destruct (I1 _ _ Hi) as [a Ha]. exists a.
    rewrite lookup_delete_ne; [done|]. intros Heq.
    destruct (I1 _ _ Hid) as [a' Ha']. rewrite Heq in Ha'. congruence.
  - intros t i p a Ht. apply lookup_delete_Some in Ht as [Hne Ht].
    specialize (I2 _ _ _ _ Ht). rewrite lookup_delete_ne; [done|].
    intros <-. rewrite Hid in I2. by simplify_eq/=.
  - intros i r Hi. apply lookup_delete_Some in Hi as [_ Hi]. eauto.
  - intros t task Ht. apply lookup_delete_Some in Ht as [_ Ht]. eauto.
  - intros q [Hq|[Hq|[Hq|Hq]]]; auto 10.
  - intros i1 i2 r1 r2 H1 H2. apply lookup_delete_Some in H1 as [_ H1].
    apply lookup_delete_Some in H2 as [_ H2]. eauto.
Qed.

(** A request enters, with a fresh id, a fresh timer and a promise
    nothing else knows. *)
Lemma InvF_add now p a :
  S !! p = None → p ∉ C → ¬ pending_promise P p → ¬ socket_promise K p → p < np →
  InvF (<[request_id_of now (Datatypes.S c) := {| req_promise := p; req_timeout := nt |}]> P)
       (<[nt := RequestTimeout (request_id_of now (Datatypes.S c)) p a]> T)
       (Datatypes.S c) (Datatypes.S nt) np S C K.
Proof.
  intros HS HC HP HK Hlt. destruct HI as [I1 I2 I3 I4 I5 I6 I7 I8].
  set (id := request_id_of now (Datatypes.S c)).
  assert (P !! id = None) as Hfresh.
  { destruct (P !! id) as [r|] eqn:Hr; [|done].
    destruct (I3 _ _ Hr) as (n' & k' & Heq & Hle).
    apply request_id_of_inj in Heq as [_ <-]. lia. }
  assert (T !! nt = None) as Htfresh.
  { destruct (T !! nt) as [x|] eqn:Hx; [|done]. apply I4 in Hx. lia. }
  assert (∀ q, pending_promise (<[id := {| req_promise := p; req_timeout := nt |}]> P) q →
               pending_promise P q ∨ q = p) as Hpend.
  { intros q (i & r & Hi & <-). rewrite lookup_insert in Hi.
    case_decide; simplify_eq/=; [by right|left; by exists i, r]. }
  split.
  - intros i r Hi. rewrite lookup_insert in Hi. case_decide; simplify_eq/=.
    + exists a. by rewrite lookup_insert_eq.
    + destruct (I1 _ _ Hi) as [a' Ha']. exists a'.
      rewrite lookup_insert_ne; [done|]. intros Heq. rewrite <-Heq in Ha'. congruence.
  - intros t i q a' Ht. rewrite lookup_insert in Ht. case_decide; simplify_eq/=.
    + by rewrite lookup_insert_eq.
    + specialize (I2 _ _ _ _ Ht). rewrite lookup_insert_ne; [done|].
      intros <-. congruence.
  - intros i r Hi. rewrite lookup_insert in Hi. case_decide; simplify_eq/=.
    + by exists now, (Datatypes.S c).
    + destruct (I3 _ _ Hi) as (n' & k' & -> & Hle). exists n', k'. split; [done|lia].
  - intros t task Ht. rewrite lookup_insert in Ht. case_decide; simplify_eq/=; [lia|].
    apply I4 in Ht. lia.
  - intros q Hq. apply Hpend in Hq as [Hq| ->]; auto.
  - intros q [Hq|[Hq|[Hq|Hq]]]; auto 10.
    apply Hpend in Hq as [Hq| ->]; auto 10.
  - intros q Hq. apply Hpend in Hq as [Hq| ->]; auto.
  - intros i1 i2 r1 r2 H1 H2 Heq. rewrite lookup_insert in H1, H2.
    repeat case_decide; simplify_eq/=; eauto.
    all: destruct HP; unfold pending_promise; eauto.
Qed.
End InvF_updates.

(** ** The loop of [disconnect] *)

Lemma reject_all_eq l w :
  (∀ x, x ∈ l → req_promise x.2 ∉ catchers w) →
  for_each l reject_entry w =
    (Ok tt, set_settled (rejected l (settled w)) (set_timers (cleared l (timers w)) w),
     rejections l).
Proof.
  revert w. induction l as [|[id pr] l IH]; intros w Hl.
  - by destruct w.
  - assert (req_promise pr ∉ catchers w) as Hpr.
    { apply (Hl (id, pr)). by left. }
    cbn [for_each]. unfold bind at 1.
    assert (reject_entry (id, pr) w =
              (Ok tt,
               set_settled (settle_in (req_promise pr) (Rejected connection_closed) (settled w))
                 (set_timers (delete (req_timeout pr) (timers w)) w),
               [EClearTimeout (req_timeout pr); EClearTimeout (req_timeout pr);
                ESettle (req_promise pr) (Rejected connection_closed)])) as ->.
    { unfold reject_entry, settle_in. unfold_m. simpl.
      rewrite delete_delete_eq.
      destruct (settled w !! req_promise pr) eqn:Hs; simpl.
      - by destruct w.
      - by rewrite bool_decide_eq_false_2. }
    rewrite IH.
    + reflexivity.
    + intros x Hx. simpl. apply Hl. by right.
Qed.

Lemma cleared_lookup l T t task :
  cleared l T !! t = Some task ↔
  T !! t = Some task ∧ ∀ x, x ∈ l → req_timeout x.2 ≠ t.
Proof.
  revert T. induction l as [|x l IH]; intros T; simpl.
  - split; [intros ?; split; [done|]; by intros ? ?%elem_of_nil|tauto].
  - rewrite IH, lookup_delete_Some. split.
    + intros [[Hne HT] Hl]. split; [done|].
      intros y [->|Hy]%elem_of_cons; auto.
    + intros [HT Hl]. split; [split; [|done]|].
      * apply Hl. by left.
      * intros y Hy. apply Hl. by right.
Qed.

Lemma settle_in_lookup p o S q :
  settle_in p o S !! q =
    if decide (p = q) then Some (default o (S !! p)) else S !! q.
Proof.
  unfold settle_in. destruct (S !! p) eqn:Hp; case_decide; subst; simpl; try done.
  - by rewrite lookup_insert_eq.
  - by rewrite lookup_insert_ne.
Qed.

Lemma rejected_lookup_other l S q :
  (∀ x, x ∈ l → req_promise x.2 ≠ q) → rejected l S !! q = S !! q.
Proof.
  revert S. induction l as [|x l IH]; intros S Hl; simpl; [done|].
  rewrite IH.
  - rewrite settle_in_lookup. case_decide as Hx; [|done].
    destruct (Hl x); [by left|done].
  - intros y Hy. apply Hl. by right.
Qed.

Lemma rejected_keeps l S q o : S !! q = Some o → rejected l S !! q = Some o.
Proof.
  revert S. induction l as [|x l IH]; intros S HS; simpl; [done|].
  apply IH. rewrite settle_in_lookup. case_decide as Hx; [|done].
  by rewrite Hx, HS.
Qed.

(** A promise that was not settled and is rejected by the loop ends
    rejected with the connection error. *)
Lemma rejected_lookup_in l S q :
  (∃ x, x ∈ l ∧ req_promise x.2 = q) → S !! q = None →
  rejected l S !! q = Some (Rejected connection_closed).
Proof.
  revert S. induction l as [|x l IH]; intros S [y [Hy Hq]] HS; simpl.
  - by apply elem_of_nil in Hy.
  - destruct (decide (req_promise x.2 = q)) as [Hx|Hx].
    + apply rejected_keeps.
      rewrite settle_in_lookup, decide_True by done. by rewrite Hx, HS.
    + apply IH.
      * apply elem_of_cons in Hy as [->|Hy]; [done|]. by exists y.
      * rewrite settle_in_lookup, decide_False by done. done.
Qed.

Lemma rejected_is_Some l S q :
  is_Some (rejected l S !! q) →
  is_Some (S !! q) ∨ ∃ x, x ∈ l ∧ req_promise x.2 = q.
Proof.
  destruct (decide (Exists (λ x, req_promise x.2 = q) l)) as [He|Hn].
  { right. by apply Exists_exists in He. }
  rewrite rejected_lookup_other; [by left|].
  intros x Hx Hq. apply Hn, Exists_exists. by exists x.
Qed.

Lemma InvF_clear P T c nt np S C K :
  InvF P T c nt np S C K →
  InvF ∅ (cleared (map_to_list P) T) c nt np (rejected (map_to_list P) S) C K.
Proof.
  intros [I1 I2 I3 I4 I5 I6 I7 I8].
  assert (∀ q, ¬ pending_promise (∅ : gmap string PendingRequest) q) as Hnone.
  { intros q (i & r & Hi & _). by rewrite lookup_empty in Hi. }
  split; try (intros; simplify_map_eq; done).
  - intros t id p a [Ht Hl]%cleared_lookup.
    specialize (I2 _ _ _ _ Ht).
    destruct (Hl (id, {| req_promise := p; req_timeout := t |})); [|done].
    by apply elem_of_map_to_list.
  - intros t task [Ht _]%cleared_lookup. eauto.
  - intros q Hq. by destruct (Hnone q).
  - intros q [Hq|[Hq|[Hq|Hq]]]; [|by auto|by destruct (Hnone q)|by auto 10].
    apply rejected_is_Some in Hq as [Hq|[[i r] [Hir <-]]]; [by auto|].
    apply elem_of_map_to_list in Hir. apply I6. right; right; left. by exists i, r.
  - intros q Hq. by destruct (Hnone q).
Qed.

(** ** The invariant holds in every reachable world *)

Section InvF_fresh.
Context {P : gmap string PendingRequest} {T : gmap timer TimerTask}
  {c nt np : nat} {S : gmap promise Outcome} {C : gset promise}
  {K : list Socket}.
Hypothesis HI : InvF P T c nt np S C K.

(** Nothing knows the promise that is made next. *)
Lemma fresh_not_pending q : np ≤ q → ¬ pending_promise P q.
Proof. intros Hle Hq. assert (q < np); [|lia]. apply HI; auto. Qed.

Lemma fresh_not_settled q : np ≤ q → S !! q = None.
Proof.
  intros Hle. destruct (S !! q) eqn:Hq; [|done].
  assert (q < np); [|lia]. apply HI. left. by rewrite Hq.
Qed.

Lemma fresh_not_catcher q : np ≤ q → q ∉ C.
Proof. intros Hle Hq. assert (q < np); [|lia]. apply HI; auto. Qed.

Lemma fresh_not_socket q : np ≤ q → ¬ socket_promise K q.
Proof. intros Hle Hq. assert (q < np); [|lia]. apply HI; auto. Qed.

Lemma socket_not_pending s k : K !! s = Some k → ¬ pending_promise P (sock_promise k).
Proof.
  intros Hs Hp. eapply (inv_pending_not_socket _ _ _ _ _ _ _ _ HI); [done|].
  by exists s, k.
Qed.

Lemma socket_lt s k : K !! s = Some k → sock_promise k < np.
Proof. intros Hs. apply HI. right; right; right. by exists s, k. Qed.
End InvF_fresh.

Create HintDb inv.

Lemma pending_promise_delete (P : gmap string PendingRequest) id q :
  pending_promise (delete id P) q → pending_promise P q.
Proof.
  intros (i & r & Hi & <-). apply lookup_delete_Some in Hi as [_ Hi]. by exists i, r.
Qed.

Lemma removed_not_pending {P T c nt np S C K} id pr :
  InvF P T c nt np S C K → P !! id = Some pr →
  ¬ pending_promise (delete id P) (req_promise pr).
Proof.
  intros HI Hid (i & r & Hi & Heq). apply lookup_delete_Some in Hi as [Hne Hi].
  destruct Hne. symmetry. eapply (inv_promise_inj _ _ _ _ _ _ _ _ HI); eauto.
Qed.

Lemma removed_not_pending' {P T c nt np S C K} id p t :
  InvF P T c nt np S C K → P !! id = Some {| req_promise := p; req_timeout := t |} →
  ¬ pending_promise (delete id P) p.
Proof. intros HI Hid. apply (removed_not_pending _ _ HI Hid). Qed.

Lemma pending_lt' {P T c nt np S C K} id p t :
  InvF P T c nt np S C K → P !! id = Some {| req_promise := p; req_timeout := t |} →
  p < np.
Proof.
  intros HI Hid. apply (inv_promise_fresh _ _ _ _ _ _ _ _ HI).
  right; right; left. by eexists id, _.
Qed.

Lemma pending_lt {P T c nt np S C K} id pr :
  InvF P T c nt np S C K → P !! id = Some pr → req_promise pr < np.
Proof.
  intros HI Hid. apply (inv_promise_fresh _ _ _ _ _ _ _ _ HI).
  right; right; left. by exists id, pr.
Qed.

(** Case analysis on what the code tests, innermost test first. *)
Ltac destruct_test x :=
  lazymatch x with
  | negb ?b => destruct_test b
  | ?a && _ => destruct_test a
  | ?a || _ => destruct_test a
  | _ => destruct x eqn:?
  end.

Ltac destruct_inner :=
  match goal with
  | |- context [match ?x with _ => _ end] =>
      lazymatch x with
      | context [match _ with _ => _ end] => fail
      | context [for_each] => fail
      | context [resubscribeToChannels] => fail
      | _ => destruct_test x
      end
  end.

Ltac msimpl := unfold isConnected, sock_state in *; simpl in *.

(** Use what an earlier test has already settled. *)
Ltac rewrite_known :=
  match goal with
  | H : ?x = _ |- context [match ?x with _ => _ end] => rewrite H
  | H : ?x = _ |- context [negb ?x] => rewrite H
  | H : ?x = _ |- context [?x && _] => rewrite H
  | H : ?x = _ |- context [?x || _] => rewrite H
  end.

Ltac mexec :=
  unfold_m; msimpl;
  repeat (first [rewrite_known | rewrite resubscribeToChannels_eq | destruct_inner];
          msimpl; try done).

#[export] Hint Resolve fresh_not_pending fresh_not_settled fresh_not_catcher
  fresh_not_socket socket_not_pending socket_lt pending_promise_delete
  removed_not_pending pending_lt removed_not_pending' pending_lt'
  Nat.lt_lt_succ_r : inv.
#[export] Hint Extern 1 (_ < _) => lia : inv.
#[export] Hint Extern 1 (_ ≤ _) => lia : inv.

Ltac inv_side := solve [eauto 4 with inv nocore].

(** Peel the updates of a world off the invariant, one at a time. *)
Ltac inv_peel :=
  lazymatch goal with
  | |- InvF ∅ (cleared _ _) _ _ _ (rejected _ _) _ _ => apply InvF_clear
  | |- InvF _ _ _ _ _ (<[_ := _]> _) _ _ => apply InvF_settle; [|inv_side..]
  | |- InvF _ _ _ _ _ _ ({[_]} ∪ _) _ => apply InvF_catcher; [|inv_side..]
  | |- InvF _ _ _ _ _ _ _ (_ ++ [_]) => apply InvF_new_socket; [|inv_side..]
  | |- InvF _ _ _ _ _ _ _ (alter _ _ _) => apply InvF_readyState
  | |- InvF _ (<[_ := Reconnect]> _) _ (S _) _ _ _ _ => apply InvF_reconnect_timer
  | |- InvF (<[_ := _]> _) (<[_ := RequestTimeout _ _ _]> _) _ _ _ _ _ _ =>
      apply InvF_add; [|inv_side..]
  | |- InvF (delete ?id ?P) (delete _ _) _ _ _ _ _ _ =>
      lazymatch goal with
      | H : P !! id = Some ?pr |- _ => apply (λ HI, InvF_remove HI id pr H)
      end
  | |- InvF _ (delete _ _) _ _ _ _ _ _ => apply InvF_timer_fired; [|assumption]
  | |- InvF _ _ _ _ (S _) _ _ _ => apply InvF_new_promise
  | |- InvF _ _ _ _ _ _ _ _ => assumption
  end.

Ltac inv_auto := unfold Inv in *; simpl in *; repeat inv_peel.

Lemma scheduleReconnect_Inv w : Inv w → Inv (world_of (scheduleReconnect w)).
Proof. intros HI. unfold world_of. mexec; inv_auto. Qed.

Lemma connect_Inv ctor w : Inv w → Inv (world_of (connect ctor w)).
Proof. intros HI. unfold world_of. mexec; inv_auto. Qed.

Lemma world_of_bind_ret {A} (m : M A) w :
  world_of ((_ <- m ;; ret tt) w) = world_of (m w).
Proof. unfold world_of, bind, ret. by destruct (m w) as [[[]?]?]. Qed.

Lemma pending_not_catcher w (x : string * PendingRequest) :
  Inv w → x ∈ map_to_list (pendingRequests w) → req_promise x.2 ∉ catchers w.
Proof.
  intros HI Hx. destruct x as [id pr]. apply elem_of_map_to_list in Hx.
  apply (inv_pending_unsettled _ _ _ _ _ _ _ _ HI). by exists id, pr.
Qed.

Lemma disconnect_Inv w : Inv w → Inv (world_of (disconnect w)).
Proof.
  intros HI. unfold world_of. mexec.
  all: rewrite reject_all_eq; [simpl; inv_auto|].
  all: intros x Hx; simpl; by apply (pending_not_catcher w).
Qed.

Lemma sendAction_Inv sv a pl tm n1 n2 w :
  Inv w → Inv (world_of (sendAction sv a pl tm n1 n2 w)).
Proof. intros HI. unfold world_of. mexec; inv_auto. Qed.

Lemma subscribeToChannel_Inv c h w : Inv w → Inv (world_of (subscribeToChannel c h w)).
Proof. intros HI. unfold world_of. mexec; inv_auto. Qed.

Lemma unsubscribeFromChannel_Inv c w : Inv w → Inv (world_of (unsubscribeFromChannel c w)).
Proof. intros HI. unfold world_of. mexec; inv_auto. Qed.

Lemma broadcast_Inv c d w : Inv w → Inv (world_of (broadcast c d w)).
Proof. intros HI. unfold world_of. mexec; inv_auto. Qed.

Lemma on_open_Inv s k w :
  Inv w → sockets w !! s = Some k →
  Inv (world_of (on_open (sock_promise k) (set_readyState s OPEN w))).
Proof. intros HI Hs. unfold world_of. mexec; inv_auto. Qed.

Lemma on_close_Inv s code reason w :
  Inv w → Inv (world_of (on_close code reason (set_readyState s CLOSED w))).
Proof. intros HI. unfold world_of. mexec; inv_auto. Qed.

Lemma on_error_Inv s k error w :
  Inv w → sockets w !! s = Some k →
  Inv (world_of (on_error (sock_promise k) error w)).
Proof. intros HI Hs. unfold world_of. mexec; inv_auto. Qed.

Lemma on_request_timeout_Inv t id p a w :
  Inv w → timers w !! t = Some (RequestTimeout id p a) →
  Inv (world_of (on_request_timeout id p a (set_timers (delete t (timers w)) w))).
Proof.
  intros HI Ht. unfold world_of.
  pose proof (inv_pending_of_timer _ _ _ _ _ _ _ _ HI _ _ _ _ Ht) as Hid.
  mexec; inv_auto.
Qed.

Lemma on_reconnect_timer_Inv t ctor w :
  Inv w → timers w !! t = Some Reconnect →
  Inv (world_of (on_reconnect_timer ctor (set_timers (delete t (timers w)) w))).
Proof. intros HI Ht. unfold world_of. mexec; inv_auto. Qed.

(** ** The request correlator: what a response does *)

Lemma pending_get_Some w v pr :
  pending_get w v = Some pr ↔ ∃ id, v = Some (JStr id) ∧ pendingRequests w !! id = Some pr.
Proof.
  unfold pending_get. split.
  - destruct v as [[]|]; try done. eauto.
  - by intros (id & -> & ?).
Qed.

Lemma handleResponse_eq response w :
  response ≠ JNull →
  handleResponse response w =
    match pending_get w (get_prop response "request_id") with
    | Some pendingRequest =>
        let '(r, w', l) :=
          settle (req_promise pendingRequest) (response_outcome response)
            (set_timers (delete (req_timeout pendingRequest) (timers w))
               (pending_delete (get_prop response "request_id") w)) in
        (r, w', EClearTimeout (req_timeout pendingRequest) :: l)
    | None => (Ok tt, w, [])
    end.
Proof.
  intros Hnull. unfold handleResponse, response_outcome, settle, prop.
  destruct response; try done; unfold bind, get, ret, modify; simpl.
  all: destruct (pending_get w _) eqn:Hget; [|done]; simpl.
  all: apply pending_get_Some in Hget as (id & Hv & Hid); simplify_eq/=.
  rewrite Hv. simpl.
  destruct (is_false _); simpl.
  all: unfold req_reject, req_resolve, clearTimeout, bind, modify, effect; simpl.
  all: by match goal with |- context [?f ?p ?x ?w0] =>
         match f with reject => idtac | resolve => idtac end;
         destruct (f p x w0) as [[??]?] end.
Qed.

(** [handleResponse] has no exception to raise. *)
Lemma settle_ok p o w : ∃ w' l, settle p o w = (Ok tt, w', l).
Proof. destruct o; simpl; mexec; eauto. Qed.

Lemma handleResponse_ok response w :
  response ≠ JNull → ∃ w' l, handleResponse response w = (Ok tt, w', l).
Proof.
  intros Hnull. rewrite handleResponse_eq by done.
  destruct (pending_get w _); [|eauto].
  destruct (settle_ok (req_promise p) (response_outcome response)
              (set_timers (delete (req_timeout p) (timers w))
                 (pending_delete (get_prop response "request_id") w)))
    as (w' & l & ->). eauto.
Qed.

(** ** The message router: the order of the tests *)

(** The router without its [try]: the cascade of [handleMessage] on a
    message whose properties can be read. *)
Lemma handleMessage_route message w :
  message ≠ JNull →
  handleMessage (ParseOk message) w =
    if is_str (get_prop message "type") "response" then
      handleResponse message w
    else if is_str (get_prop message "type") "channel_message" then
      emit_channel ("channel:" +:+ js_string (get_prop message "channel"))
        (get_prop message "data") w
    else if truthy (get_prop message "channel") && truthy (get_prop message "data") then
      emit_channel ("channel:" +:+ js_string (get_prop message "channel"))
        (get_prop message "data") w
    else if truthy (get_prop message "request_id")
            && bool_decide (is_Some (pending_get w (get_prop message "request_id"))) then
      handleResponse message w
    else (Ok tt, w, [EEmit (EvMessage message)]).
Proof.
  intros Hnull.
  assert (∀ k, prop message k = ret (get_prop message k)) as Hprop.
  { intros k. by destruct message. }
  unfold handleMessage, handleChannelMessage, try_catch.
  unfold bind at 1. unfold ret at 1. unfold bind at 1. rewrite Hprop. unfold ret at 1.
  destruct (is_str (get_prop message "type") "response").
  { destruct (handleResponse_ok message w Hnull) as (w' & l & ->). done. }
  destruct (is_str (get_prop message "type") "channel_message").
  { unfold bind, ret. rewrite !Hprop. unfold ret. by rewrite emit_channel_eq. }
  unfold bind at 1. rewrite Hprop. unfold ret at 1.
  unfold bind at 1. rewrite Hprop. unfold ret at 1.
  destruct (truthy (get_prop message "channel") && truthy (get_prop message "data")).
  { by rewrite emit_channel_eq. }
  unfold bind at 1. rewrite Hprop. unfold ret at 1.
  unfold bind at 1. unfold get at 1.
  destruct (truthy (get_prop message "request_id") && _).
  { destruct (handleResponse_ok message w Hnull) as (w' & l & ->). done. }
  done.
Qed.

(** ** Every turn of the event loop keeps the invariant *)

Lemma settle_Inv p o w :
  Inv w → ¬ pending_promise (pendingRequests w) p → p < nextPromise w →
  Inv (world_of (settle p o w)).
Proof. intros HI Hp Hlt. unfold world_of. destruct o; simpl; mexec; inv_auto. Qed.

Lemma handleResponse_Inv response w :
  response ≠ JNull → Inv w → Inv (world_of (handleResponse response w)).
Proof.
  intros Hnull HI. rewrite handleResponse_eq by done.
  destruct (pending_get w _) as [pr|] eqn:Hget; [|done].
  apply pending_get_Some in Hget as (id & Hv & Hid). rewrite Hv. simpl.
  match goal with |- context [settle ?p ?o ?w0] =>
    pose proof (settle_Inv p o w0) as HS; unfold world_of in *;
    destruct (settle p o w0) as [[r w'] l] end.
  simpl in *. apply HS.
  - inv_auto.
  - simpl. eapply removed_not_pending; eauto.
  - simpl. eapply pending_lt; eauto.
Qed.

Lemma handleMessage_Inv parsed w : Inv w → Inv (world_of (handleMessage parsed w)).
Proof.
  intros HI. destruct parsed as [message|text];
    [|by rewrite handleMessage_unparsable].
  assert (message = JNull ∨ message ≠ JNull) as [->|Hnull];
    [by destruct message; auto|by rewrite handleMessage_null|].
  rewrite handleMessage_route by done.
  repeat case_match; try done; rewrite ?emit_channel_eq; try done.
  all: by apply handleResponse_Inv.
Qed.

(** A turn of the event loop: the code that ran, the world it left. *)
Lemma step_dispatch w e w' l :
  step w e = Some (w', l) →
  ∃ w0 m, dispatch w e = Some (w0, m) ∧ w' = world_of (m w0).
Proof.
  unfold step. destruct (dispatch w e) as [[w0 m]|]; [|done].
  intros H. exists w0, m. split; [done|]. unfold world_of.
  destruct (m w0) as [[[] ?] ?]; by simplify_eq/=.
Qed.

Lemma step_Inv w e w' l : Inv w → step w e = Some (w', l) → Inv w'.
Proof.
  intros HI (w0 & m & Hd & ->)%step_dispatch.
  destruct e; simpl in Hd.
  - simplify_eq. rewrite world_of_bind_ret. by apply connect_Inv.
  - simplify_eq. by apply disconnect_Inv.
  - simplify_eq. rewrite world_of_bind_ret. by apply sendAction_Inv.
  - simplify_eq. rewrite world_of_bind_ret. by apply subscribeToChannel_Inv.
  - simplify_eq. rewrite world_of_bind_ret. by apply unsubscribeFromChannel_Inv.
  - simplify_eq. by apply broadcast_Inv.
  - by simplify_eq.
  - by simplify_eq.
  - destruct (sockets w !! s) as [[[] p]|] eqn:Hs; simplify_eq.
    by apply (on_open_Inv s {| readyState := CONNECTING; sock_promise := p |}).
  - destruct (sockets w !! s) as [[[] p]|] eqn:Hs; simplify_eq.
    by apply handleMessage_Inv.
  - destruct (sockets w !! s) as [k|] eqn:Hs; [|done].
    case_decide; simplify_eq. by apply on_close_Inv.
  - destruct (sockets w !! s) as [k|] eqn:Hs; [|done].
    case_decide; simplify_eq. by eapply on_error_Inv.
  - destruct (timers w !! t) as [[id p a|]|] eqn:Ht; simplify_eq.
    + by apply on_request_timeout_Inv.
    + by apply on_reconnect_timer_Inv.
Qed.

Lemma run_Inv w es w' l : Inv w → run w es = Some (w', l) → Inv w'.
Proof.
  revert w l. induction es as [|e es IH]; intros w l HI Hrun; simpl in Hrun.
  - by simplify_eq.
  - destruct (step w e) as [[w1 l1]|] eqn:Hstep; [|done].
    destruct (run w1 es) as [[w2 l2]|] eqn:Hrun'; [|done]. simplify_eq.
    eapply IH; [|done]. by eapply step_Inv.
Qed.

Lemma reachable_Inv w : reachable w → Inv w.
Proof. induction 1; eauto using Inv_init, step_Inv. Qed.

(** ** Reading the log *)

Lemma settle_calls_app p l1 l2 :
  settle_calls p (l1 ++ l2) = settle_calls p l1 ++ settle_calls p l2.
Proof. apply omap_app. Qed.

Lemma run_reachable o es w l : run (init o) es = Some (w, l) → reachable w.
Proof.
  assert (∀ w0, reachable w0 → ∀ es w l, run w0 es = Some (w, l) → reachable w) as H.
  { clear. intros w0 H0 es. revert w0 H0.
    induction es as [|e es IH]; intros w0 H0 w l Hrun; simpl in Hrun.
    - by simplify_eq.
    - destruct (step w0 e) as [[w1 l1]|] eqn:Hstep; [|done].
      destruct (run w1 es) as [[w2 l2]|] eqn:Hrun'; [|done]. simplify_eq.
      eapply IH; [|done]. by eapply reach_step. }
  apply H. constructor.
Qed.

Lemma after_reachable o es : reachable (after o es).
Proof.
  unfold after. destruct (run (init o) es) as [[w l]|] eqn:Hrun.
  - by eapply run_reachable.
  - constructor.
Qed.

(** Settling a promise that nothing has settled and that has no rejection
    handler. *)
Lemma settle_eq p o w :
  settled w !! p = None → p ∉ catchers w →
  settle p o w = (Ok tt, set_settled (<[p := o]> (settled w)) w, [ESettle p o]).
Proof.
  intros HS HC. destruct o; simpl; unfold_m; simpl; rewrite HS; simpl; [done|].
  by rewrite bool_decide_eq_false_2.
Qed.

(** ** C9: frames that cannot be parsed *)



(** ** C6: a response that matches a pending request *)



(** ** C4: the order in which the router classifies a frame *)




(** ** C7: [connect] while a connection is being made or is open *)

(** C7, as stated, fails: the promise of the second call (1) does not
    follow the attempt in flight (promise 0).  It is resolved at once, in
    the turn of the call, and stays resolved when the attempt fails and its
    own promise is rejected. *)
Lemma second_connect_counterexample :
  log_after default_options two_connects_trace =
    [ENewPromise 0 OfConnect; ENewSocket 0;
     ENewPromise 1 OfConnect; ESettle 1 (Resolved undefined);
     EEmit (EvError (NativeError "Error" "refused"));
     ESettle 0 (Rejected (DaebusConnectionError "WebSocket connection failed: refused"))]
  ∧ settled (after default_options two_connects_trace) !! 1 = Some (Resolved undefined)
  ∧ settled (after default_options two_connects_trace) !! 0 =
      Some (Rejected (DaebusConnectionError "WebSocket connection failed: refused")).
Proof. by vm_compute. Qed.

(** C7, amended.  In a reachable world where [isConnecting] is set or the
    socket is open, [connect] makes no socket and changes no field of the
    client: it returns a new promise that it resolves at once, whatever
    becomes of the attempt in flight. *)
Theorem connect_while_connecting_or_open (w : World) (ctor : option Error) :
  reachable w →
  isConnecting w || isConnected w = true →
  connect ctor w =
    (Ok (nextPromise w),
     set_settled (<[nextPromise w := Resolved undefined]> (settled w))
       (set_nextPromise (S (nextPromise w)) w),
     [ENewPromise (nextPromise w) OfConnect;
      ESettle (nextPromise w) (Resolved undefined)]).
Proof.
  intros Hreach Hc. pose proof (reachable_Inv _ Hreach) as HI.
  assert (settled w !! nextPromise w = None) as HS.
  { eapply fresh_not_settled; [exact HI|done]. }
  unfold connect, new_promise, resolve, bind, get, modify, effect, ret. simpl.
  change (isConnected (set_nextPromise (S (nextPromise w)) w)) with (isConnected w).
  rewrite Hc. simpl. by rewrite HS.
Qed.

Lemma connect_while_connecting_or_open_witness :
  connect None (after default_options [CallConnect None]) =
    (Ok 1,
     set_settled (<[1 := Resolved undefined]> (settled (after default_options [CallConnect None])))
       (set_nextPromise 2 (after default_options [CallConnect None])),
     [ENewPromise 1 OfConnect; ESettle 1 (Resolved undefined)]).
Proof.
  apply (connect_while_connecting_or_open (after default_options [CallConnect None]) None).
  - apply after_reachable.
  - vm_compute. reflexivity.
Defined.

(** ** C3: resubscription when the connection comes back *)

Lemma frames_sent_subscribes s (l : list string) :
  frames_sent ((λ channel, ESend s (FSubscribe channel)) <$> l) =
  (λ channel, (s, FSubscribe channel)) <$> l.
Proof. induction l as [|x l IH]; [done|]. simpl. by f_equal. Qed.

(** What the [open] handler does when a reconnection succeeds on the
    current socket. *)
Lemma on_open_reconnected s p w :
  ws w = Some s → sock_state w s = Some OPEN → isReconnecting w = true →
  ∃ w', on_open p w =
          (Ok tt, w',
           EEmit EvConnect
             :: ((λ channel, ESend s (FSubscribe channel))
                   <$> elements (subscribedChannels w))
             ++ [ESettle p (Resolved undefined)])
        ∧ isReconnecting w' = false
        ∧ subscribedChannels w' = subscribedChannels w
        ∧ ws w' = ws w ∧ sockets w' = sockets w.
Proof.
  intros Hws Hopen Hrec.
  assert (isConnected w = true) as Hc.
  { unfold isConnected. rewrite Hws. by apply bool_decide_eq_true_2. }
  unfold on_open, resolve, bind, get, modify, effect, emit, ret. simpl. rewrite Hrec.
  rewrite resubscribeToChannels_eq. simpl.
  change (isConnected (set_reconnectAttempts 0 (set_isConnecting false w)))
    with (isConnected w).
  rewrite Hc, Hws. simpl.
  destruct (settled w !! p); simpl; rewrite app_nil_r; eauto 10.
Qed.

(** C3.  When the current socket opens while [isReconnecting] is set,
    whatever calls of subscribe and unsubscribe came before, the frames the
    client sends in that turn are [subscribe] frames on that socket, one
    for each channel of [subscribedChannels] and none else, without
    repetition; the set itself is unchanged and the flag is cleared. *)
Theorem reconnect_resubscribes_desired_set (w : World) (s : sock) (p : promise) :
  sockets w !! s = Some {| readyState := CONNECTING; sock_promise := p |} →
  ws w = Some s →
  isReconnecting w = true →
  ∃ w' l,
    step w (SockOpen s) = Some (w', l)
    ∧ frames_sent l = (λ channel, (s, FSubscribe channel)) <$> elements (subscribedChannels w)
    ∧ NoDup (frames_sent l)
    ∧ (∀ channel, (s, FSubscribe channel) ∈ frames_sent l ↔ channel ∈ subscribedChannels w)
    ∧ isReconnecting w' = false
    ∧ subscribedChannels w' = subscribedChannels w.
Proof.
  intros Hs Hws Hrec. unfold step. simpl. rewrite Hs.
  destruct (on_open_reconnected s p (set_readyState s OPEN w))
    as (w' & Hopen & Hrec' & Hsubs & _); [done| |done|].
  { unfold sock_state, set_readyState. simpl.
    rewrite list_lookup_alter_eq, Hs. done. }
  simpl in Hopen, Hsubs. rewrite Hopen. eexists w', _. split; [done|].
  assert (frames_sent
            (EEmit EvConnect
               :: ((λ channel, ESend s (FSubscribe channel)) <$> elements (subscribedChannels w))
               ++ [ESettle p (Resolved undefined)])
          = (λ channel, (s, FSubscribe channel)) <$> elements (subscribedChannels w)) as ->.
  { unfold frames_sent at 1. simpl. rewrite omap_app. simpl. rewrite app_nil_r.
    apply frames_sent_subscribes. }
  split; [done|]. split; [|split; [|done]].
  - apply NoDup_fmap_2; [|apply NoDup_elements].
    intros c1 c2 Heq. by simplify_eq.
  - intros channel. rewrite list_elem_of_fmap. split.
    + intros (c & Heq & Hc). simplify_eq. by apply elem_of_elements.
    + intros Hc. exists channel. split; [done|]. by apply elem_of_elements.
Qed.

Lemma reconnect_resubscribes_desired_set_witness :
  ∃ w' l,
    step (after default_options reconnecting_trace) (SockOpen 1) = Some (w', l)
    ∧ frames_sent l =
        (λ channel, (1, FSubscribe channel))
          <$> elements (subscribedChannels (after default_options reconnecting_trace))
    ∧ NoDup (frames_sent l)
    ∧ (∀ channel, (1, FSubscribe channel) ∈ frames_sent l
                  ↔ channel ∈ subscribedChannels (after default_options reconnecting_trace))
    ∧ isReconnecting w' = false
    ∧ subscribedChannels w' = subscribedChannels (after default_options reconnecting_trace).
Proof.
  apply (reconnect_resubscribes_desired_set (after default_options reconnecting_trace) 1 5).
  - vm_compute. reflexivity.
  - vm_compute. reflexivity.
  - vm_compute. reflexivity.
Defined.

Example reconnecting_trace_frames :
  frames_sent (log_after default_options (reconnecting_trace ++ [SockOpen 1])) =
    [(0, FSubscribe "alerts"); (0, FSubscribe "metrics"); (0, FSubscribe "alerts");
     (0, FUnsubscribe "metrics"); (1, FSubscribe "alerts")].
Proof. vm_compute. reflexivity. Qed.

(** ** What [disconnect] does *)

Lemma disconnect_eq w :
  Inv w →
  disconnect w =
    (Ok tt, disconnected w, close_log w ++ rejections (map_to_list (pendingRequests w))).
Proof.
  intros HI. unfold disconnected, close_socket, close_log.
  unfold disconnect, sock_close, bind, get, modify, effect, ret. simpl.
  destruct (ws w) as [s|] eqn:Hws; simpl.
  - destruct (sock_state w s) as [[]|] eqn:Hst; simpl;
      (rewrite reject_all_eq;
         [simpl|intros x Hx; simpl; by apply (pending_not_catcher w)]).
    all: by rewrite app_nil_r.
  - rewrite reject_all_eq; [simpl; by rewrite app_nil_r|].
    intros x Hx. by apply pending_not_catcher.
Qed.

Lemma close_socket_idemp w : close_socket (close_socket w) = close_socket w.
Proof.
  unfold close_socket. destruct (ws w) as [s|] eqn:Hws; simpl; [done|].
  by rewrite Hws.
Qed.

Lemma cleared_reconnect l T t :
  T !! t = Some Reconnect →
  (∀ x, x ∈ l → T !! req_timeout x.2 ≠ Some Reconnect) →
  cleared l T !! t = Some Reconnect.
Proof.
  intros Ht Hl. apply cleared_lookup. split; [done|].
  intros x Hx Heq. apply (Hl x Hx). by rewrite Heq.
Qed.

(** ** C10: [disconnect] and the subscribed channels *)

Lemma settle_subscriptions p o w :
  subscribedChannels (world_of (settle p o w)) = subscribedChannels w.
Proof. unfold world_of. destruct o; simpl; mexec. Qed.

Lemma reject_entry_subscriptions x w :
  subscribedChannels (world_of (reject_entry x w)) = subscribedChannels w.
Proof. destruct x. unfold reject_entry, world_of. mexec. Qed.

Lemma disconnect_subscriptions w :
  subscribedChannels (world_of (disconnect w)) = subscribedChannels w.
Proof.
  unfold world_of, disconnect, bind.
  assert (∀ w0, subscribedChannels
                  (let '(r, w2, l2) := for_each (map_to_list (pendingRequests w0)) reject_entry w0 in
                   match r with
                   | Ok _ => set_pendingRequests ∅ w2
                   | Thrown _ => w2
                   end) = subscribedChannels w0) as Hloop.
  { intros w0.
    pose proof (for_each_frame subscribedChannels reject_entry
                  (map_to_list (pendingRequests w0)) reject_entry_subscriptions w0) as H.
    unfold world_of in H.
    destruct (for_each _ reject_entry w0) as [[[] w2] l2]; simpl in *; done. }
  unfold get at 1.
  destruct (ws w) as [s|] eqn:Hws.
  - unfold sock_close, bind, get, effect, modify, ret. simpl.
    destruct (sock_state w s) as [[]|]; simpl.
    all: match goal with |- context [for_each _ reject_entry ?w0] =>
           specialize (Hloop w0); simpl in Hloop;
           destruct (for_each _ reject_entry w0) as [[[] w2] l2]; simpl in *; done end.
  - unfold ret, get, modify. simpl.
    specialize (Hloop w).
    destruct (for_each _ reject_entry w) as [[[] w2] l2]; simpl in *; done.
Qed.

Lemma handleResponse_subscriptions response w :
  response ≠ JNull →
  subscribedChannels (world_of (handleResponse response w)) = subscribedChannels w.
Proof.
  intros Hnull. rewrite handleResponse_eq by done.
  destruct (pending_get w _) as [pr|] eqn:Hget; [|done].
  apply pending_get_Some in Hget as (id & Hv & Hid). rewrite Hv. simpl.
  match goal with |- context [settle ?p ?o ?w0] =>
    pose proof (settle_subscriptions p o w0) as HS; unfold world_of in *;
    destruct (settle p o w0) as [[r w'] l] end.
  done.
Qed.

Lemma handleMessage_subscriptions parsed w :
  subscribedChannels (world_of (handleMessage parsed w)) = subscribedChannels w.
Proof.
  destruct parsed as [message|text]; [|by rewrite handleMessage_unparsable].
  assert (message = JNull ∨ message ≠ JNull) as [->|Hnull];
    [by destruct message; auto|by rewrite handleMessage_null|].
  rewrite handleMessage_route by done.
  repeat case_match; try done; rewrite ?emit_channel_eq; try done.
  all: by apply handleResponse_subscriptions.
Qed.

(** Only [unsubscribeFromChannel] takes a channel out of the set. *)
Lemma step_subscriptions w e w' l :
  step w e = Some (w', l) →
  (∃ channel, e = CallUnsubscribe channel
              ∧ subscribedChannels w' = subscribedChannels w ∖ {[channel]})
  ∨ subscribedChannels w ⊆ subscribedChannels w'.
Proof.
  intros (w0 & m & Hd & ->)%step_dispatch.
  destruct e; simpl in Hd.
  - right. simplify_eq. rewrite world_of_bind_ret. unfold world_of. mexec.
  - right. simplify_eq. by rewrite disconnect_subscriptions.
  - right. simplify_eq. rewrite world_of_bind_ret. unfold world_of. mexec.
  - right. simplify_eq. rewrite world_of_bind_ret. unfold world_of. mexec; set_solver.
  - left. exists channelName. split; [done|]. simplify_eq.
    rewrite world_of_bind_ret. unfold world_of. mexec.
  - right. simplify_eq. unfold world_of. mexec.
  - right. by simplify_eq.
  - right. by simplify_eq.
  - right. destruct (sockets w !! s) as [[[] p]|] eqn:Hs; simplify_eq.
    unfold world_of. mexec.
  - right. destruct (sockets w !! s) as [[[] p]|] eqn:Hs; simplify_eq.
    by rewrite handleMessage_subscriptions.
  - right. destruct (sockets w !! s) as [k|] eqn:Hs; [|done].
    case_decide; simplify_eq. unfold world_of. mexec.
  - right. destruct (sockets w !! s) as [k|] eqn:Hs; [|done].
    case_decide; simplify_eq. unfold world_of. mexec.
  - right. destruct (timers w !! t) as [[id p a|]|] eqn:Ht; simplify_eq.
    + unfold world_of. mexec.
    + unfold world_of. mexec.
Qed.

(** C10.  [disconnect] leaves [subscribedChannels] as it is, in every
    world; and a turn of the event loop that takes a channel out of the set
    is a call of [unsubscribeFromChannel] for that channel. *)
Theorem disconnect_keeps_subscribed_channels (w : World) :
  subscribedChannels (world_of (disconnect w)) = subscribedChannels w
  ∧ (∀ channel, channel ∈ subscribedChannels (world_of (disconnect w))
                ↔ channel ∈ subscribedChannels w)
  ∧ (∀ e w' l channel,
       step w e = Some (w', l) →
       channel ∈ subscribedChannels w → channel ∉ subscribedChannels w' →
       e = CallUnsubscribe channel).
Proof.
  split; [apply disconnect_subscriptions|]. split.
  { intros channel. by rewrite disconnect_subscriptions. }
  intros e w' l channel Hstep Hin Hout.
  destruct (step_subscriptions _ _ _ _ Hstep) as [(c & -> & Hsub)|Hsub].
  - f_equal. destruct (decide (c = channel)) as [|Hne]; [done|].
    destruct Hout. rewrite Hsub. apply elem_of_difference. split; [done|].
    by intros ->%elem_of_singleton.
  - destruct Hout. by apply Hsub.
Qed.

Lemma disconnect_keeps_subscribed_channels_witness :
  ("alerts" ∈ subscribedChannels (after default_options subscribed_trace))
  ∧ ("alerts" ∉ subscribedChannels
                  (after default_options (subscribed_trace ++ [CallUnsubscribe "alerts"])))
  ∧ CallUnsubscribe "alerts" = CallUnsubscribe "alerts".
Proof.
  assert ("alerts" ∈ subscribedChannels (after default_options subscribed_trace)) as Hin.
  { vm_compute. reflexivity. }
  assert ("alerts" ∉ subscribedChannels
                       (after default_options (subscribed_trace ++ [CallUnsubscribe "alerts"])))
    as Hout.
  { vm_compute. discriminate. }
  split; [exact Hin|]. split; [exact Hout|].
  refine (proj2 (proj2 (disconnect_keeps_subscribed_channels
                          (after default_options subscribed_trace)))
            (CallUnsubscribe "alerts")
            (after default_options (subscribed_trace ++ [CallUnsubscribe "alerts"]))
            [ENewPromise 2 OfUnsubscribe; ESend 0 (FUnsubscribe "alerts");
             ESettle 2 (Resolved undefined)]
            "alerts" _ Hin Hout).
  vm_compute. reflexivity.
Defined.

(** ** C8: [disconnect] and the reconnection in progress *)

(** C8, as stated, fails: [disconnect] does not cancel the timer of
    [scheduleReconnect] and leaves [isReconnecting] set.  After the loss of
    the connection and a [disconnect], timer 0 is still running; when it
    fires, the client opens socket 1, although [connect] was called once
    only, before the [disconnect]. *)
Lemma reconnect_after_disconnect_counterexample :
  timers (after default_options lost_then_disconnect_trace) !! 0 = Some Reconnect
  ∧ isReconnecting (after default_options lost_then_disconnect_trace) = true
  ∧ step (after default_options lost_then_disconnect_trace) (TimerFire 0 None) =
      Some (after default_options (lost_then_disconnect_trace ++ [TimerFire 0 None]),
            [ENewPromise 1 OfConnect; ENewSocket 1])
  ∧ sockets_made
      (log_after default_options (lost_then_disconnect_trace ++ [TimerFire 0 None])) = [0; 1]
  ∧ ws (after default_options (lost_then_disconnect_trace ++ [TimerFire 0 None])) = Some 1.
Proof. by vm_compute. Qed.

(** The timer of [scheduleReconnect], when it fires on a client that is
    reconnecting and has no connection open or under way. *)
Lemma reconnect_timer_opens_socket w t :
  timers w !! t = Some Reconnect →
  isReconnecting w = true → isConnecting w = false → isConnected w = false →
  ∃ w' l, step w (TimerFire t None) = Some (w', l)
          ∧ sockets_made l = [length (sockets w)]
          ∧ ws w' = Some (length (sockets w)).
Proof.
  intros Ht Hrec Hcing Hced. unfold step. simpl. rewrite Ht.
  unfold on_reconnect_timer, connect, new_promise, new_WebSocket, attach_catch,
    bind, get, modify, effect, ret. simpl.
  rewrite Hrec. simpl.
  change (isConnected (set_nextPromise (S (nextPromise w))
                         (set_timers (delete t (timers w)) w)))
    with (isConnected w).
  rewrite Hcing, Hced. simpl.
  destruct (settled w !! nextPromise w) as [[]|]; simpl; eauto.
  unfold callback, try_catch, reconnect_failed, scheduleReconnect, setTimeout, emit,
    bind, get, modify, effect, ret. simpl.
  repeat (case_bool_decide; simpl); eauto.
Qed.

Lemma disconnected_ws w : ws (disconnected w) = None.
Proof.
  unfold disconnected, close_socket. simpl. by destruct (ws w) as [s|] eqn:Hws.
Qed.

Lemma disconnected_isConnected w : isConnected (disconnected w) = false.
Proof. unfold isConnected. by rewrite disconnected_ws. Qed.

Lemma disconnected_flags w :
  isConnecting (disconnected w) = isConnecting w
  ∧ isReconnecting (disconnected w) = isReconnecting w
  ∧ reconnectAttempts (disconnected w) = reconnectAttempts w.
Proof.
  unfold disconnected, close_socket. simpl.
  destruct (ws w) as [s|]; [|done]. simpl. by destruct (sock_state w s) as [[]|].
Qed.

Lemma disconnected_idemp w : disconnected (disconnected w) = disconnected w.
Proof.
  unfold disconnected at 1. 
  assert (close_socket (disconnected w) = disconnected w) as ->.
  { unfold close_socket at 1. by rewrite disconnected_ws. }
  assert (pendingRequests (disconnected w) = ∅) as -> by done.
  rewrite map_to_list_empty. reflexivity.
Qed.

Lemma disconnected_reconnect_timer w t :
  Inv w → timers w !! t = Some Reconnect → timers (disconnected w) !! t = Some Reconnect.
Proof.
  intros HI Ht.
  assert (timers (disconnected w) = cleared (map_to_list (pendingRequests w)) (timers w)) as ->.
  { unfold disconnected, close_socket. simpl. destruct (ws w) as [s|]; [|done].
    simpl. by destruct (sock_state w s) as [[]|]. }
  apply cleared_reconnect; [done|]. intros [id pr] Hx%elem_of_map_to_list. simpl.
  destruct (inv_timer_of_pending _ _ _ _ _ _ _ _ HI _ _ Hx) as [a ->]. done.
Qed.

(** C8, amended.  In a reachable world, [disconnect] closes the socket, if
    there is one, with code 1000 and forgets it, so that [isConnected] is
    false afterwards, and it is idempotent: a second [disconnect] changes
    nothing and does nothing.  It leaves [isConnecting],
    [isReconnecting] and [reconnectAttempts] as they are and cancels no
    timer of [scheduleReconnect]: such a timer is still running afterwards,
    and when it fires on a client with [isReconnecting] set and
    [isConnecting] clear, the client opens a new socket. *)
Theorem disconnect_closes_socket_keeps_reconnect (w : World) :
  reachable w →
  disconnect w =
    (Ok tt, disconnected w, close_log w ++ rejections (map_to_list (pendingRequests w)))
  ∧ ws (disconnected w) = None
  ∧ isConnected (disconnected w) = false
  ∧ disconnect (disconnected w) = (Ok tt, disconnected w, [])
  ∧ isConnecting (disconnected w) = isConnecting w
  ∧ isReconnecting (disconnected w) = isReconnecting w
  ∧ reconnectAttempts (disconnected w) = reconnectAttempts w
  ∧ (∀ t, timers w !! t = Some Reconnect →
          timers (disconnected w) !! t = Some Reconnect
          ∧ (isReconnecting w = true → isConnecting w = false →
             ∃ w' l, step (disconnected w) (TimerFire t None) = Some (w', l)
                     ∧ sockets_made l = [length (sockets (disconnected w))])).
Proof.
  intros Hreach. pose proof (reachable_Inv _ Hreach) as HI.
  pose proof (disconnect_eq w HI) as Heq.
  assert (Inv (disconnected w)) as HI'.
  { pose proof (disconnect_Inv w HI) as H. unfold world_of in H. by rewrite Heq in H. }
  destruct (disconnected_flags w) as (Hf1 & Hf2 & Hf3).
  split; [done|]. split; [apply disconnected_ws|].
  split; [apply disconnected_isConnected|]. split.
  { rewrite (disconnect_eq _ HI'), disconnected_idemp.
    unfold close_log. rewrite disconnected_ws.
    assert (pendingRequests (disconnected w) = ∅) as -> by done.
    by rewrite map_to_list_empty. }
  split; [done|]. split; [done|]. split; [done|].
  intros t Ht. pose proof (disconnected_reconnect_timer w t HI Ht) as Ht'.
  split; [done|]. intros Hrec Hcing.
  destruct (reconnect_timer_opens_socket (disconnected w) t) as (w' & l & Hstep & Hmade & _).
  - done.
  - by rewrite Hf2.
  - by rewrite Hf1.
  - apply disconnected_isConnected.
  - eauto.
Qed.

Lemma disconnect_closes_socket_keeps_reconnect_witness :
  ws (disconnected (after default_options lost_trace)) = None
  ∧ timers (disconnected (after default_options lost_trace)) !! 0 = Some Reconnect.
Proof.
  pose proof (disconnect_closes_socket_keeps_reconnect
                (after default_options lost_trace) (after_reachable _ _))
    as (_ & Hws & _ & _ & _ & _ & _ & Htimer).
  split; [exact Hws|].
  apply (Htimer 0). vm_compute. reflexivity.
Defined.

(** ** C2: what happens to the pending requests when the connection goes *)


(** The loop of [disconnect] calls [reject] once for each entry. *)
Lemma settle_calls_rejections (l : list (string * PendingRequest)) x :
  NoDup ((λ y, req_promise y.2) <$> l) → x ∈ l →
  settle_calls (req_promise x.2) (rejections l) = [Rejected connection_closed].
Proof.
  assert (∀ l' p, p ∉ (λ y : string * PendingRequest, req_promise y.2) <$> l' →
                  settle_calls p (rejections l') = []) as Hnone.
  { clear. intros l' p. induction l' as [|y l' IH]; intros Hp; [done|].
    apply not_elem_of_cons in Hp as [Hne Hp]. unfold rejections. simpl.
    unfold settle_calls at 1. simpl. rewrite decide_False by done. by apply IH. }
  induction l as [|y l IH]; intros Hnd Hx; [by apply elem_of_nil in Hx|].
  apply NoDup_cons in Hnd as [Hy Hnd]. unfold rejections. simpl.
  unfold settle_calls at 1. simpl.
  apply elem_of_cons in Hx as [->|Hx].
  - rewrite decide_True by done. f_equal. by apply Hnone.
  - rewrite decide_False.
    + by apply IH.
    + intros Heq. apply Hy. rewrite Heq. apply list_elem_of_fmap. by exists x.
Qed.

Lemma pending_promises_NoDup w :
  Inv w → NoDup ((λ y, req_promise y.2) <$> map_to_list (pendingRequests w)).
Proof.
  intros HI. apply NoDup_fmap_2_strong; [|apply NoDup_map_to_list].
  intros [i1 r1] [i2 r2] H1%elem_of_map_to_list H2%elem_of_map_to_list Heq. simpl in Heq.
  assert (i1 = i2) as <- by (eapply (inv_promise_inj _ _ _ _ _ _ _ _ HI); eauto).
  by simplify_eq.
Qed.

(** [scheduleReconnect] when the attempts are used up: an [error] event,
    and nothing else. *)
Lemma scheduleReconnect_exhausted w :
  default 5 (maxReconnectAttempts (options w)) ≤ reconnectAttempts w →
  scheduleReconnect w =
    (emit_result w (DaebusConnectionError "Max reconnection attempts exceeded"), w,
     [EEmit (EvError (DaebusConnectionError "Max reconnection attempts exceeded"))]).
Proof.
  intros Hle. unfold scheduleReconnect, bind, get, emit, emit_result. simpl.
  rewrite bool_decide_eq_true_2 by done. by case_bool_decide.
Qed.



(** ** What a turn of the event loop does to the requests *)

Lemma Quiet_Summary w e w' l :
  Inv w → Quiet w w' l → Summary w e w' (λ p, settle_calls p l).
Proof.
  intros HI [Q1 Q2 Q3 Q4 Q5 Q6 Q7].
  assert (∀ p, pending_promise (pendingRequests w) p → settle_calls p l = []) as Hnone.
  { intros p Hp. destruct (settle_calls p l) eqn:Hc; [done|].
    destruct (Q7 p) as [Hlt|Hs]; [by rewrite Hc| |].
    - pose proof (inv_promise_fresh _ _ _ _ _ _ _ _ HI p) as Hf.
      assert (p < nextPromise w) by auto. lia.
    - by destruct (inv_pending_not_socket _ _ _ _ _ _ _ _ HI p Hp). }
  split; auto.
  - rewrite Q2. lia.
  - intros p Hp. destruct (Q7 p Hp); auto.
  - intros id pr Hid. left. by rewrite <-Q1.
  - intros id pr Hid. left. rewrite Q1. split; [done|].
    apply Hnone. by exists id, pr.
Qed.

Lemma socket_promise_alter (K : list Socket) s r p :
  socket_promise (alter (λ k, {| readyState := r; sock_promise := sock_promise k |}) s K) p →
  socket_promise K p.
Proof.
  intros (s' & k & Hs & <-). rewrite list_lookup_alter in Hs.
  case_decide; [subst s'|by exists s', k].
  destruct (K !! s) as [k'|] eqn:Hk; simplify_eq/=. by exists s, k'.
Qed.

Lemma socket_promise_app (K : list Socket) r p q :
  socket_promise (K ++ [{| readyState := r; sock_promise := q |}]) p →
  socket_promise K p ∨ p = q.
Proof.
  intros (s & k & Hs & <-). apply lookup_app_Some in Hs as [Hs|[_ Hs]].
  - left. by exists s, k.
  - right. apply list_lookup_singleton_Some in Hs as [_ <-]. done.
Qed.

Lemma is_Some_insert_mono (S : gmap promise Outcome) p o q :
  is_Some (S !! q) → is_Some (<[p := o]> S !! q).
Proof. intros H. rewrite lookup_insert. by case_decide. Qed.

Lemma is_Some_insert_eq (S : gmap promise Outcome) p o : is_Some (<[p := o]> S !! p).
Proof. by rewrite lookup_insert_eq. Qed.

Lemma is_Some_of_eq (S : gmap promise Outcome) p o : S !! p = Some o → is_Some (S !! p).
Proof. by intros ->. Qed.

#[export] Hint Resolve is_Some_insert_mono is_Some_insert_eq is_Some_of_eq : inv.

Lemma settle_calls_sends p s (l : list string) :
  settle_calls p ((λ channel, ESend s (FSubscribe channel)) <$> l) = [].
Proof. by induction l. Qed.

(** The calls in an explicit log, by cases on the promise asked for. *)
Ltac calls_cases :=
  rewrite ?settle_calls_app, ?settle_calls_sends;
  unfold settle_calls; simpl; repeat case_decide; subst; simpl; try done.

Ltac quiet_sockets :=
  let p := fresh "p" in let Hp := fresh "Hp" in
  intros p Hp;
  repeat first
    [ apply socket_promise_alter in Hp
    | apply socket_promise_app in Hp as [Hp| ->]; [|right; simpl; lia] ];
  by left.

Ltac quiet_auto :=
  split; simpl;
  [ done | done | lia | quiet_sockets
  | intros ? ?; eauto 6 with inv nocore
  | intros ?; calls_cases; intros _; eauto 6 with inv nocore
  | intros ?; calls_cases; intros _; solve [left; simpl; lia | right; eauto] ].

Lemma connect_Quiet ctor w : Quiet w (world_of (connect ctor w)) (log_of (connect ctor w)).
Proof. unfold world_of, log_of. mexec; quiet_auto. Qed.

Lemma scheduleReconnect_Quiet w :
  Quiet w (world_of (scheduleReconnect w)) (log_of (scheduleReconnect w)).
Proof. unfold world_of, log_of. mexec; quiet_auto. Qed.

Lemma subscribeToChannel_Quiet c h w :
  Quiet w (world_of (subscribeToChannel c h w)) (log_of (subscribeToChannel c h w)).
Proof. unfold world_of, log_of. mexec; quiet_auto. Qed.

Lemma unsubscribeFromChannel_Quiet c w :
  Quiet w (world_of (unsubscribeFromChannel c w)) (log_of (unsubscribeFromChannel c w)).
Proof. unfold world_of, log_of. mexec; quiet_auto. Qed.

Lemma broadcast_Quiet c d w :
  Quiet w (world_of (broadcast c d w)) (log_of (broadcast c d w)).
Proof. unfold world_of, log_of. mexec; quiet_auto. Qed.

Lemma on_open_Quiet s p w :
  socket_promise (sockets w) p →
  Quiet w (world_of (on_open p (set_readyState s OPEN w)))
    (log_of (on_open p (set_readyState s OPEN w))).
Proof. intros Hp. unfold world_of, log_of. mexec; quiet_auto. Qed.

Lemma on_close_Quiet s code reason w :
  Quiet w (world_of (on_close code reason (set_readyState s CLOSED w)))
    (log_of (on_close code reason (set_readyState s CLOSED w))).
Proof. unfold world_of, log_of. mexec; quiet_auto. Qed.

Lemma on_error_Quiet p error w :
  socket_promise (sockets w) p →
  Quiet w (world_of (on_error p error w)) (log_of (on_error p error w)).
Proof. intros Hp. unfold world_of, log_of. mexec; quiet_auto. Qed.

Lemma on_reconnect_timer_Quiet t ctor w :
  Quiet w (world_of (on_reconnect_timer ctor (set_timers (delete t (timers w)) w)))
    (log_of (on_reconnect_timer ctor (set_timers (delete t (timers w)) w))).
Proof. unfold world_of, log_of. mexec; quiet_auto. Qed.

(** A turn that takes one request out of the map and settles its promise
    with one call. *)
Lemma removal_Summary w e w' l id pr o :
  Inv w →
  pendingRequests w !! id = Some pr →
  pendingRequests w' = delete id (pendingRequests w) →
  requestCounter w' = requestCounter w →
  nextPromise w' = nextPromise w →
  sockets w' = sockets w →
  settled w' = <[req_promise pr := o]> (settled w) →
  (∀ q, settle_calls q l = if decide (q = req_promise pr) then [o] else []) →
  removal_cause e id pr [o] →
  Summary w e w' (λ p, settle_calls p l).
Proof.
  intros HI Hid HP Hc Hnp HK HS Hcalls Hcause. split.
  - lia.
  - lia.
  - intros p. rewrite HK. auto.
  - intros p. rewrite HS. apply is_Some_insert_mono.
  - intros p. rewrite Hcalls, HS. case_decide; [subst|done].
    intros _. apply is_Some_insert_eq.
  - intros p. rewrite Hcalls. case_decide; [subst|done].
    intros _. right; right. by exists id, pr.
  - intros i r. rewrite HP. intros [_ Hi]%lookup_delete_Some. by left.
  - intros i r Hi. rewrite HP, Hcalls.
    destruct (decide (i = id)) as [->|Hne].
    + right. rewrite lookup_delete_eq. split; [done|].
      assert (r = pr) as -> by congruence. by rewrite decide_True.
    + left. rewrite lookup_delete_ne by done. split; [done|].
      rewrite decide_False; [done|]. intros Heq. apply Hne.
      eapply (inv_promise_inj _ _ _ _ _ _ _ _ HI); eauto.
Qed.

(** The callback of the timer of a request, in a world that keeps the
    invariant: the request is still pending; it is removed and its promise
    is rejected with the timeout error. *)
Lemma on_request_timeout_eq w t id p a :
  Inv w → timers w !! t = Some (RequestTimeout id p a) →
  on_request_timeout id p a (set_timers (delete t (timers w)) w) =
    (Ok tt,
     set_settled
       (<[p := Rejected (DaebusTimeoutError ("Action " +:+ a +:+ " timed out"))]> (settled w))
       (set_pendingRequests (delete id (pendingRequests w))
          (set_timers (delete t (timers w)) w)),
     [ESettle p (Rejected (DaebusTimeoutError ("Action " +:+ a +:+ " timed out")))]).
Proof.
  intros HI Ht.
  pose proof (inv_pending_of_timer _ _ _ _ _ _ _ _ HI _ _ _ _ Ht) as Hid.
  destruct (inv_pending_unsettled _ _ _ _ _ _ _ _ HI p) as [HS HC].
  { by eexists id, _. }
  unfold on_request_timeout, reject, bind, get, modify, effect, ret. simpl.
  rewrite HS. simpl. by rewrite bool_decide_eq_false_2.
Qed.

(** A response for a pending request, in a world that keeps the
    invariant. *)
Lemma handleResponse_matching w response id pr :
  Inv w →
  get_prop response "request_id" = Some (JStr id) →
  pendingRequests w !! id = Some pr →
  handleResponse response w =
    (Ok tt,
     set_settled (<[req_promise pr := response_outcome response]> (settled w))
       (set_timers (delete (req_timeout pr) (timers w))
          (set_pendingRequests (delete id (pendingRequests w)) w)),
     [EClearTimeout (req_timeout pr); ESettle (req_promise pr) (response_outcome response)]).
Proof.
  intros HI Hrid Hid.
  destruct (inv_pending_unsettled _ _ _ _ _ _ _ _ HI (req_promise pr)) as [HS HC].
  { by exists id, pr. }
  assert (response ≠ JNull) as Hnull by (by intros ->).
  rewrite handleResponse_eq by done. rewrite Hrid. simpl. rewrite Hid.
  by rewrite settle_eq.
Qed.

(** A frame for a request that is not pending does nothing to the world
    and settles nothing. *)
Lemma handleMessage_not_pending w message :
  pending_get w (get_prop message "request_id") = None →
  world_of (handleMessage (ParseOk message) w) = w
  ∧ ∀ p, settle_calls p (log_of (handleMessage (ParseOk message) w)) = [].
Proof.
  intros Hget.
  assert (message = JNull ∨ message ≠ JNull) as [->|Hnull];
    [by destruct message; auto|by rewrite handleMessage_null|].
  rewrite handleMessage_route by done.
  assert (handleResponse message w = (Ok tt, w, [])) as Hdrop.
  { rewrite handleResponse_eq by done. by rewrite Hget. }
  rewrite Hdrop, Hget, ?emit_channel_eq.
  assert (∀ p event data (hs : list handler),
            settle_calls p (EEmit (EvChannel event data) :: ((λ h, EInvoke h data) <$> hs)) = [])
    as Hemit.
  { intros p event data hs. unfold settle_calls. simpl. by induction hs. }
  rewrite andb_false_r.
  repeat case_match; unfold world_of, log_of; cbn [fst snd]; split; try done.
  all: intros p; apply Hemit.
Qed.

Lemma Quiet_refl w l : (∀ p, settle_calls p l = []) → Quiet w w l.
Proof.
  intros Hl. split; auto.
  - intros p. by rewrite Hl.
  - intros p. by rewrite Hl.
Qed.

Lemma Quiet_errorListeners w n : Quiet w (set_errorListeners n w) [].
Proof. split; simpl; auto; by intros p. Qed.

Lemma handleMessage_Summary w s parsed :
  Inv w →
  Summary w (SockMessage s parsed) (world_of (handleMessage parsed w))
    (λ p, settle_calls p (log_of (handleMessage parsed w))).
Proof.
  intros HI.
  destruct parsed as [message|text];
    [|by rewrite handleMessage_unparsable; apply Quiet_Summary; [done|apply Quiet_refl]].
  destruct (pending_get w (get_prop message "request_id")) as [pr|] eqn:Hget.
  - apply pending_get_Some in Hget as (id & Hrid & Hid).
    assert (message ≠ JNull) as Hnull by (by intros ->).
    pose proof (handleResponse_matching w message id pr HI Hrid Hid) as Hresp.
    rewrite handleMessage_route by done.
    assert (pending_get w (get_prop message "request_id") = Some pr) as Hget.
    { apply pending_get_Some. eauto. }
    rewrite Hget, ?emit_channel_eq, Hresp.
    assert (∀ p event data (hs : list handler),
              settle_calls p (EEmit (EvChannel event data) :: ((λ h, EInvoke h data) <$> hs)) = [])
      as Hemit.
    { intros p event data hs. unfold settle_calls. simpl. by induction hs. }
    rewrite Hrid. simpl.
    repeat case_match; unfold world_of, log_of; cbn [fst snd].
    all: try (apply Quiet_Summary; [done|apply Quiet_refl; done || apply Hemit]).
    all: eapply (removal_Summary _ _ _ _ id pr (response_outcome message)); eauto.
    all: try (intros q; unfold settle_calls; simpl; repeat case_decide; by subst).
    all: right; right; by exists s, message.
  - destruct (handleMessage_not_pending w message Hget) as [-> Hnone].
    apply Quiet_Summary; [done|]. by apply Quiet_refl.
Qed.

Lemma on_request_timeout_Summary w t ctor id p a :
  Inv w → timers w !! t = Some (RequestTimeout id p a) →
  Summary w (TimerFire t ctor)
    (world_of (on_request_timeout id p a (set_timers (delete t (timers w)) w)))
    (λ q, settle_calls q
            (log_of (on_request_timeout id p a (set_timers (delete t (timers w)) w)))).
Proof.
  intros HI Ht. rewrite on_request_timeout_eq by done.
  pose proof (inv_pending_of_timer _ _ _ _ _ _ _ _ HI _ _ _ _ Ht) as Hid.
  unfold world_of, log_of. cbn [fst snd].
  eapply (removal_Summary _ _ _ _ id {| req_promise := p; req_timeout := t |}); eauto.
  - intros q. unfold settle_calls. simpl. repeat case_decide; by subst.
  - right; left. by exists ctor, a.
Qed.

Arguments settle_calls : simpl never.

(** A turn that puts one request into the map and settles nothing. *)
Lemma entry_Summary w e w' l now pr :
  Inv w →
  pendingRequests w' = <[request_id_of now (S (requestCounter w)) := pr]> (pendingRequests w) →
  req_promise pr = nextPromise w →
  requestCounter w' = S (requestCounter w) →
  nextPromise w' = S (nextPromise w) →
  sockets w' = sockets w →
  settled w' = settled w →
  (∀ q, settle_calls q l = []) →
  Summary w e w' (λ p, settle_calls p l).
Proof.
  intros HI HP Hpr Hc Hnp HK HS Hcalls.
  assert (pendingRequests w !! request_id_of now (S (requestCounter w)) = None) as Hfresh.
  { destruct (pendingRequests w !! _) as [r|] eqn:Hr; [|done].
    destruct (inv_issued _ _ _ _ _ _ _ _ HI _ _ Hr) as (n' & k' & Heq & Hle).
    apply request_id_of_inj in Heq as [_ <-]. lia. }
  split.
  - lia.
  - lia.
  - intros p. rewrite HK. auto.
  - intros p. by rewrite HS.
  - intros p. by rewrite Hcalls.
  - intros p. by rewrite Hcalls.
  - intros i r. rewrite HP, lookup_insert. case_decide; [|by left].
    intros [= <-]. right. rewrite Hcalls. eauto.
  - intros i r Hi. left. rewrite HP, Hcalls. split; [|done].
    rewrite lookup_insert_ne; [done|]. intros <-. congruence.
Qed.

Lemma sendAction_Summary sv a pl tm n1 n2 w :
  Inv w →
  Summary w (CallSendAction sv a pl tm n1 n2)
    (world_of (sendAction sv a pl tm n1 n2 w))
    (λ p, settle_calls p (log_of (sendAction sv a pl tm n1 n2 w))).
Proof.
  intros HI. unfold world_of, log_of. mexec.
  all: first
    [ apply Quiet_Summary; [done|quiet_auto]
    | eapply (entry_Summary _ _ _ _ n1); [done|simpl; reflexivity|done..] ].
Qed.

Lemma disconnected_sockets w p :
  socket_promise (sockets (disconnected w)) p → socket_promise (sockets w) p.
Proof.
  unfold disconnected, close_socket. simpl. destruct (ws w) as [s|]; [|done].
  simpl. destruct (sock_state w s) as [[]|]; simpl; try done.
  all: apply socket_promise_alter.
Qed.

Lemma disconnected_counters w :
  nextPromise (disconnected w) = nextPromise w
  ∧ requestCounter (disconnected w) = requestCounter w
  ∧ settled (disconnected w) = rejected (map_to_list (pendingRequests w)) (settled w).
Proof.
  unfold disconnected, close_socket. simpl. destruct (ws w) as [s|]; [|done].
  simpl. by destruct (sock_state w s) as [[]|].
Qed.

Lemma settle_calls_rejections_in (l : list (string * PendingRequest)) p :
  settle_calls p (rejections l) ≠ [] → ∃ x, x ∈ l ∧ req_promise x.2 = p.
Proof.
  induction l as [|y l IH]; [done|].
  unfold rejections. simpl. unfold settle_calls at 1. simpl.
  case_decide as Hy.
  - intros _. exists y. split; [by left|done].
  - intros (x & Hx & Hp)%IH. exists x. split; [by right|done].
Qed.

Lemma rejected_is_Some_in l S q :
  (∃ x, x ∈ l ∧ req_promise x.2 = q) → is_Some (rejected l S !! q).
Proof.
  intros Hq. destruct (S !! q) as [o|] eqn:HS.
  - by rewrite (rejected_keeps _ _ _ _ HS).
  - by rewrite rejected_lookup_in.
Qed.

Lemma disconnect_Summary w :
  Inv w →
  Summary w CallDisconnect (world_of (disconnect w))
    (λ p, settle_calls p (log_of (disconnect w))).
Proof.
  intros HI. rewrite disconnect_eq by done. unfold world_of, log_of. cbn [fst snd].
  destruct (disconnected_counters w) as (Hnp & Hc & HS).
  assert (∀ p, settle_calls p (close_log w ++ rejections (map_to_list (pendingRequests w)))
               = settle_calls p (rejections (map_to_list (pendingRequests w)))) as Hlog.
  { intros p. rewrite settle_calls_app. unfold close_log. by destruct (ws w). }
  split.
  - lia.
  - lia.
  - intros p Hp. left. by apply disconnected_sockets.
  - intros p [o Ho]. rewrite HS. by rewrite (rejected_keeps _ _ _ _ Ho).
  - intros p. rewrite Hlog, HS. intros Hp%settle_calls_rejections_in.
    by apply rejected_is_Some_in.
  - intros p. rewrite Hlog. intros ([id pr] & Hx & <-)%settle_calls_rejections_in.
    right; right. apply elem_of_map_to_list in Hx. by exists id, pr.
  - intros id pr Hid. done.
  - intros id pr Hid. right. split; [done|]. left. split; [done|].
    rewrite Hlog.
    apply (settle_calls_rejections _ (id, pr)); [by apply pending_promises_NoDup|].
    by apply elem_of_map_to_list.
Qed.

Lemma log_of_bind_ret {A} (m : M A) w p :
  settle_calls p (log_of ((_ <- m ;; ret tt) w)) = settle_calls p (log_of (m w)).
Proof.
  unfold log_of, bind, ret. destruct (m w) as [[[] ?] ?]; simpl; [|done].
  by rewrite app_nil_r.
Qed.

Lemma Summary_ext w e w' c c' :
  (∀ p, c p = c' p) → Summary w e w' c → Summary w e w' c'.
Proof.
  intros Hc [Q1 Q2 Q3 Q4 Q5 Q6 Q7 Q8]. split; auto.
  - intros p. rewrite <-Hc. auto.
  - intros p. rewrite <-Hc. auto.
  - intros id pr Hid. destruct (Q7 _ _ Hid) as [|(?&?&?&?)]; [by left|right].
    rewrite <-Hc. auto.
  - intros id pr Hid. rewrite <-Hc. auto.
Qed.

Lemma step_dispatch_log w e w' l :
  step w e = Some (w', l) →
  ∃ w0 m, dispatch w e = Some (w0, m) ∧ w' = world_of (m w0)
          ∧ ∀ p, settle_calls p l = settle_calls p (log_of (m w0)).
Proof.
  unfold step. destruct (dispatch w e) as [[w0 m]|]; [|done].
  intros H. exists w0, m. split; [done|]. unfold world_of, log_of.
  destruct (m w0) as [[[] ?] ?]; simplify_eq/=; split; try done.
  intros p. rewrite settle_calls_app. simpl. by rewrite app_nil_r.
Qed.

(** Every turn of the event loop has a summary. *)
Lemma step_Summary w e w' l :
  Inv w → step w e = Some (w', l) → Summary w e w' (λ p, settle_calls p l).
Proof.
  intros HI (w0 & m & Hd & -> & Hl)%step_dispatch_log.
  apply (Summary_ext _ _ _ (λ p, settle_calls p (log_of (m w0)))); [done|].
  clear Hl. destruct e; simpl in Hd.
  - simplify_eq. rewrite world_of_bind_ret.
    eapply Summary_ext; [intros p; symmetry; apply log_of_bind_ret|].
    apply Quiet_Summary; [done|apply connect_Quiet].
  - simplify_eq. by apply disconnect_Summary.
  - simplify_eq. rewrite world_of_bind_ret.
    eapply Summary_ext; [intros p; symmetry; apply log_of_bind_ret|].
    by apply sendAction_Summary.
  - simplify_eq. rewrite world_of_bind_ret.
    eapply Summary_ext; [intros p; symmetry; apply log_of_bind_ret|].
    apply Quiet_Summary; [done|apply subscribeToChannel_Quiet].
  - simplify_eq. rewrite world_of_bind_ret.
    eapply Summary_ext; [intros p; symmetry; apply log_of_bind_ret|].
    apply Quiet_Summary; [done|apply unsubscribeFromChannel_Quiet].
  - simplify_eq. apply Quiet_Summary; [done|apply broadcast_Quiet].
  - simplify_eq. apply Quiet_Summary; [done|apply Quiet_errorListeners].
  - simplify_eq. apply Quiet_Summary; [done|apply Quiet_errorListeners].
  - destruct (sockets w !! s) as [[[] p]|] eqn:Hs; simplify_eq.
    apply Quiet_Summary; [done|]. apply on_open_Quiet. by eexists s, _.
  - destruct (sockets w !! s) as [[[] p]|] eqn:Hs; simplify_eq.
    by apply handleMessage_Summary.
  - destruct (sockets w !! s) as [k|] eqn:Hs; [|done].
    case_decide; simplify_eq. apply Quiet_Summary; [done|apply on_close_Quiet].
  - destruct (sockets w !! s) as [k|] eqn:Hs; [|done].
    case_decide; simplify_eq. apply Quiet_Summary; [done|].
    apply on_error_Quiet. by exists s, k.
  - destruct (timers w !! t) as [[id p a|]|] eqn:Ht; simplify_eq.
    + by apply on_request_timeout_Summary.
    + apply Quiet_Summary; [done|apply on_reconnect_timer_Quiet].
Qed.

(** ** Requests over a whole run *)

Lemma step_retired w e w' l id :
  Inv w → retired w id → step w e = Some (w', l) → retired w' id.
Proof.
  intros HI [(now & k & -> & Hk) Hnone] Hstep.
  destruct (step_Summary _ _ _ _ HI Hstep) as [_ Q2 _ _ _ _ Q7 _].
  split.
  - exists now, k. split; [done|lia].
  - destruct (pendingRequests w' !! _) as [pr|] eqn:Hpr; [|done].
    destruct (Q7 _ _ Hpr) as [Hold|[[now' Heq] _]]; [congruence|].
    apply request_id_of_inj in Heq as [_ ->]. lia.
Qed.

Lemma run_retired w es w' l id :
  Inv w → retired w id → run w es = Some (w', l) → retired w' id.
Proof.
  revert w l. induction es as [|e es IH]; intros w l HI Hret Hrun; simpl in Hrun.
  - by simplify_eq.
  - destruct (step w e) as [[w1 l1]|] eqn:Hstep; [|done].
    destruct (run w1 es) as [[w2 l2]|] eqn:Hrun'; [|done]. simplify_eq.
    eapply IH; [by eapply step_Inv|by eapply step_retired|done].
Qed.

Lemma step_dead w e w' l p :
  Inv w → dead w p → step w e = Some (w', l) →
  dead w' p ∧ settle_calls p l = [].
Proof.
  intros HI (Hlt & Hpend & Hsock) Hstep.
  destruct (step_Summary _ _ _ _ HI Hstep) as [Q1 _ Q3 _ _ Q6 Q7 _].
  split; [split; [lia|split]|].
  - intros (id & pr & Hid & <-).
    destruct (Q7 _ _ Hid) as [Hold|(_ & _ & Hnew & _)].
    + apply Hpend. by exists id, pr.
    + lia.
  - intros Hs. destruct (Q3 _ Hs) as [|]; [done|lia].
  - destruct (settle_calls p l) eqn:Hc; [done|].
    destruct (Q6 p) as [|[|]]; [by rewrite Hc|lia|done|done].
Qed.

Lemma run_dead w es w' l p :
  Inv w → dead w p → run w es = Some (w', l) → settle_calls p l = [].
Proof.
  revert w l. induction es as [|e es IH]; intros w l HI Hdead Hrun; simpl in Hrun.
  - by simplify_eq.
  - destruct (step w e) as [[w1 l1]|] eqn:Hstep; [|done].
    destruct (run w1 es) as [[w2 l2]|] eqn:Hrun'; [|done]. simplify_eq.
    destruct (step_dead _ _ _ _ _ HI Hdead Hstep) as [Hdead' Hnone].
    rewrite settle_calls_app, Hnone. simpl.
    eapply IH; [by eapply step_Inv|done|done].
Qed.

(** A pending request, over one turn: it stays, untouched, or it leaves
    for one of the three causes, with one call on its promise, and nothing
    refers to the promise afterwards. *)
Lemma step_pending w e w' l id pr :
  Inv w → pendingRequests w !! id = Some pr → step w e = Some (w', l) →
  (pendingRequests w' !! id = Some pr ∧ settle_calls (req_promise pr) l = [])
  ∨ (pendingRequests w' !! id = None
     ∧ removal_cause e id pr (settle_calls (req_promise pr) l)
     ∧ length (settle_calls (req_promise pr) l) = 1
     ∧ dead w' (req_promise pr)).
Proof.
  intros HI Hid Hstep.
  destruct (step_Summary _ _ _ _ HI Hstep) as [Q1 _ Q3 _ _ _ Q7 Q8].
  destruct (Q8 _ _ Hid) as [|[Hnone Hcause]]; [by left|right].
  split; [done|]. split; [done|]. split.
  { destruct Hcause as [[_ ->]|[(?&?&_&->)|(?&?&_&_&->)]]; done. }
  assert (pending_promise (pendingRequests w) (req_promise pr)) as Hp by (by exists id, pr).
  assert (req_promise pr < nextPromise w) as Hlt.
  { apply (inv_promise_fresh _ _ _ _ _ _ _ _ HI). auto. }
  split; [lia|split].
  - intros (i & r & Hi & Heq).
    destruct (Q7 _ _ Hi) as [Hold|(_ & _ & Hnew & _)]; [|lia].
    assert (i = id) as -> by (eapply (inv_promise_inj _ _ _ _ _ _ _ _ HI); eauto).
    congruence.
  - intros Hs. destruct (Q3 _ Hs) as [Hs'|]; [|lia].
    by destruct (inv_pending_not_socket _ _ _ _ _ _ _ _ HI _ Hp).
Qed.

Lemma run_pending w es w' l id pr :
  Inv w → pendingRequests w !! id = Some pr → run w es = Some (w', l) →
  length (settle_calls (req_promise pr) l) ≤ 1.
Proof.
  revert w l. induction es as [|e es IH]; intros w l HI Hid Hrun; simpl in Hrun.
  - simplify_eq. simpl. lia.
  - destruct (step w e) as [[w1 l1]|] eqn:Hstep; [|done].
    destruct (run w1 es) as [[w2 l2]|] eqn:Hrun'; [|done]. simplify_eq.
    pose proof (step_Inv _ _ _ _ HI Hstep) as HI1.
    rewrite settle_calls_app, length_app.
    destruct (step_pending _ _ _ _ _ _ HI Hid Hstep)
      as [[Hid1 ->]|(_ & _ & Hone & Hdead)].
    + simpl. by eapply IH.
    + rewrite (run_dead _ _ _ _ _ HI1 Hdead Hrun'). simpl. lia.
Qed.

(** Every call of [resolve] or [reject] in a run from a fresh client is on
    a promise that is settled at the end of the run. *)
Lemma run_calls_settled w es w' l L :
  Inv w → (∀ p, settle_calls p L ≠ [] → is_Some (settled w !! p)) →
  run w es = Some (w', l) →
  ∀ p, settle_calls p (L ++ l) ≠ [] → is_Some (settled w' !! p).
Proof.
  revert w l L. induction es as [|e es IH]; intros w l L HI HL Hrun; simpl in Hrun.
  - simplify_eq. intros p. rewrite app_nil_r. auto.
  - destruct (step w e) as [[w1 l1]|] eqn:Hstep; [|done].
    destruct (run w1 es) as [[w2 l2]|] eqn:Hrun'; [|done]. simplify_eq.
    destruct (step_Summary _ _ _ _ HI Hstep) as [_ _ _ Q4 Q5 _ _ _].
    rewrite app_assoc. eapply IH; [by eapply step_Inv| |done].
    intros p. rewrite settle_calls_app. intros Hp.
    destruct (settle_calls p L) eqn:HpL; [|apply Q4, HL; by rewrite HpL].
    apply Q5. by simpl in Hp.
Qed.

(** ** C5: the timeout of a request *)



Example late_response_after_timeout :
  log_after default_options
    (ping_trace
       ++ [TimerFire 0 None;
           SockMessage 0 (ParseOk (JObj [("type", JStr "response");
                                         ("request_id", JStr "req_1700_1");
                                         ("success", JBool true)]))])
  = log_after default_options ping_trace
      ++ [ESettle 1 (Rejected (DaebusTimeoutError "Action ping timed out"))].
Proof. vm_compute. reflexivity. Qed.

(** ** C1: pending ids are distinct and a request settles at most once *)



Example answered_twice_log :
  settle_calls 1 (log_after default_options (ping_trace ++ answered_twice_trace))
  = [Resolved (Some (JStr "pong"))].
Proof. vm_compute. reflexivity. Qed.

(** * More properties of the client *)

(** ** Calls made without an open connection *)

(** X1.  Without an open connection the methods that need one refuse.
    In a reachable world where [isConnected] is false, [sendAction] and
    [subscribeToChannel] return a promise that is already rejected with the
    [DaebusConnectionError] 'WebSocket is not connected', and [broadcast]
    and [sendToChannel] throw it.  Nothing is sent, no request id is used,
    no timer is started and no channel or handler is registered: the world
    is the one before, but for the promise made. *)
Theorem not_connected_refused (w : World) :
  reachable w → isConnected w = false →
  let p := nextPromise w in
  let w' := set_settled (<[p := Rejected not_connected]> (settled w))
              (set_nextPromise (S p) w) in
  (∀ sv a pl tm n1 n2,
     sendAction sv a pl tm n1 n2 w =
       (Ok p, w', [ENewPromise p OfSendAction; ESettle p (Rejected not_connected)]))
  ∧ (∀ c h,
       subscribeToChannel c h w =
         (Ok p, w', [ENewPromise p OfSubscribe; ESettle p (Rejected not_connected)]))
  ∧ (∀ c d, broadcast c d w = (Thrown not_connected, w, []))
  ∧ (∀ c m, sendToChannel c m w = (Thrown not_connected, w, [])).
Proof.
  intros Hreach Hconn p w'. pose proof (reachable_Inv _ Hreach) as HI.
  assert (settled w !! p = None) as HS by (by eapply fresh_not_settled).
  assert (bool_decide (p ∈ catchers w) = false) as HC.
  { apply bool_decide_eq_false. by eapply fresh_not_catcher. }
  subst p w'. unfold not_connected.
  repeat split; intros.
  all: mexec.
Qed.

Lemma not_connected_refused_witness :
  broadcast "alerts" (JStr "x") (after default_options lost_trace) =
    (Thrown not_connected, after default_options lost_trace, []).
Proof.
  apply (not_connected_refused (after default_options lost_trace) (after_reachable _ _)).
  vm_compute. reflexivity.
Defined.

(** ** [sendAction] on an open connection *)

(** X2.  [sendAction] on an open connection registers one request and
    puts one frame on the wire.  The id is made from the clock and the next
    value of the counter; the request waits under that id with a new timer
    whose delay is the [timeout] argument, or else [options.timeout], or else
    30000 ms; the one frame sent publishes, on the channel of the service,
    the envelope with the action, the payload, the id, the reply channel
    'reply_' + id and the second clock reading.  In a reachable world the id
    was not pending before, the timer handle was free and the promise
    returned is not settled. *)
Theorem sendAction_on_open_connection (w : World) (s : sock)
    (sv a : string) (pl : json) (tm : option N) (n1 n2 : N) :
  reachable w → ws w = Some s → sock_state w s = Some OPEN →
  let p := nextPromise w in
  let t := nextTimer w in
  let id := request_id_of n1 (S (requestCounter w)) in
  let ms := default (default 30000%N (timeout (options w))) tm in
  let message := {| action := a; payload := pl; reply_channel := "reply_" +:+ id;
                    request_id := id; timestamp := n2 |} in
  sendAction sv a pl tm n1 n2 w =
    (Ok p,
     set_pendingRequests (<[id := {| req_promise := p; req_timeout := t |}]> (pendingRequests w))
       (set_timers (<[t := RequestTimeout id p a]> (timers w))
          (set_nextTimer (S t)
             (set_requestCounter (S (requestCounter w))
                (set_nextPromise (S p) w)))),
     [ENewPromise p OfSendAction; ESetTimeout t (RequestTimeout id p a) ms;
      ESend s (FPublish sv message)])
  ∧ pendingRequests w !! id = None
  ∧ timers w !! t = None
  ∧ settled w !! p = None.
Proof.
  intros Hreach Hws Hopen p t id ms message. pose proof (reachable_Inv _ Hreach) as HI.
  assert (bool_decide (readyState <$> sockets w !! s = Some OPEN) = true) as Hb.
  { by apply bool_decide_eq_true. }
  split; [|split; [|split]].
  - subst p t id ms message. mexec.
  - destruct (pendingRequests w !! id) as [r|] eqn:Hr; [|done].
    destruct (inv_issued _ _ _ _ _ _ _ _ HI _ _ Hr) as (n' & k' & Heq & Hle).
    apply request_id_of_inj in Heq as [_ <-]. lia.
  - destruct (timers w !! t) as [x|] eqn:Hx; [|done].
    apply (inv_timer_fresh _ _ _ _ _ _ _ _ HI) in Hx. lia.
  - by eapply fresh_not_settled.
Qed.

Lemma sendAction_on_open_connection_witness :
  pendingRequests (after default_options connected_trace) !! request_id_of 1700 1 = None.
Proof.
  refine (proj1 (proj2 (sendAction_on_open_connection
                          (after default_options connected_trace) 0
                          "svc" "ping" (JObj []) None 1700 1701
                          (after_reachable _ _) _ _))).
  - vm_compute. reflexivity.
  - vm_compute. reflexivity.
Defined.

(** ** A turn of the event loop, in full *)

Lemma step_triple w e w' l :
  step w e = Some (w', l) →
  ∃ w0 m, dispatch w e = Some (w0, m) ∧ w' = world_of (m w0)
          ∧ l = log_of (m w0) ++ thrown_log (m w0).1.1.
Proof.
  unfold step. destruct (dispatch w e) as [[w0 m]|]; [|done].
  intros H. exists w0, m. split; [done|]. unfold world_of, log_of.
  destruct (m w0) as [[[] ?] ?]; simplify_eq/=; split; try done.
  by rewrite app_nil_r.
Qed.

(** What a frame does, in a world that keeps the invariant: it reports to
    the application and leaves the world as it is, or it settles the
    pending request whose id it carries. *)
Lemma handleMessage_cases w parsed :
  Inv w →
  (∃ l, handleMessage parsed w = (frame_result w parsed, w, l)
        ∧ Forall (λ e, is_report e = true) l)
  ∨ (∃ message id pr,
       parsed = ParseOk message
       ∧ get_prop message "request_id" = Some (JStr id)
       ∧ pendingRequests w !! id = Some pr
       ∧ handleMessage parsed w =
           (Ok tt,
            set_settled (<[req_promise pr := response_outcome message]> (settled w))
              (set_timers (delete (req_timeout pr) (timers w))
                 (set_pendingRequests (delete id (pendingRequests w)) w)),
            [EClearTimeout (req_timeout pr);
             ESettle (req_promise pr) (response_outcome message)])).
Proof.
  intros HI.
  assert (∀ event data (hs : list handler),
            Forall (λ e, is_report e = true)
              (EEmit (EvChannel event data) :: ((λ h, EInvoke h data) <$> hs))) as Hemit.
  { intros event data hs. constructor; [done|]. by apply Forall_fmap, Forall_true. }
  destruct parsed as [message|error].
  2:{ left. eexists. split; [apply handleMessage_unparsable|].
      by repeat constructor. }
  assert (message = JNull ∨ message ≠ JNull) as [->|Hnull]
    by (destruct message; auto).
  { left. eexists. split; [apply handleMessage_null|]. by repeat constructor. }
  assert (frame_result w (ParseOk message) = Ok tt) as -> by by destruct message.
  destruct (pending_get w (get_prop message "request_id")) as [pr|] eqn:Hget.
  - apply pending_get_Some in Hget as (id & Hrid & Hid).
    rewrite handleMessage_route by done.
    pose proof (handleResponse_matching w message id pr HI Hrid Hid) as Hresp.
    assert (pending_get w (get_prop message "request_id") = Some pr) as Hget.
    { apply pending_get_Some. eauto. }
    rewrite Hget, ?emit_channel_eq, Hresp.
    repeat case_match.
    all: try (right; exists message, id, pr; done).
    all: left; eexists; (split; [reflexivity|]); try apply Hemit.
    all: by repeat constructor.
  - assert (handleResponse message w = (Ok tt, w, [])) as Hdrop.
    { rewrite handleResponse_eq by done. by rewrite Hget. }
    rewrite handleMessage_route by done.
    rewrite Hdrop, Hget, ?emit_channel_eq. left.
    repeat case_match; eexists; (split; [reflexivity|]); try apply Hemit.
    all: by repeat constructor.
Qed.

(** ** The request ids on the wire *)

Lemma publishes_app l1 l2 : publishes (l1 ++ l2) = publishes l1 ++ publishes l2.
Proof. apply omap_app. Qed.

Lemma publishes_reports l : Forall (λ e, is_report e = true) l → publishes l = [].
Proof.
  induction 1 as [|e l He _ IH]; [done|]. by destruct e as [| | | | | | |[]| |].
Qed.

Lemma publishes_subscribes s (l : list string) :
  publishes ((λ channel, ESend s (FSubscribe channel)) <$> l) = [].
Proof. by induction l. Qed.

Lemma publishes_rejections (l : list (string * PendingRequest)) :
  publishes (rejections l) = [].
Proof. by induction l. Qed.

Lemma publishes_thrown {A} (r : Res A) : publishes (thrown_log r) = [].
Proof. by destruct r. Qed.

Lemma step_ids w e w' l :
  Inv w → step w e = Some (w', l) →
  (publishes l = [] ∧ requestCounter w' = requestCounter w
   ∧ ∀ id, is_Some (pendingRequests w' !! id) → is_Some (pendingRequests w !! id))
  ∨ (∃ sv a pl tm n1 n2,
       e = CallSendAction sv a pl tm n1 n2
       ∧ publishes l =
           [(sv, {| action := a; payload := pl;
                    reply_channel := "reply_" +:+ request_id_of n1 (S (requestCounter w));
                    request_id := request_id_of n1 (S (requestCounter w));
                    timestamp := n2 |})]
       ∧ requestCounter w' = S (requestCounter w)
       ∧ ∀ id, is_Some (pendingRequests w' !! id) →
               is_Some (pendingRequests w !! id)
               ∨ id = request_id_of n1 (S (requestCounter w))).
Proof.
  intros HI (w0 & m & Hd & -> & ->)%step_triple.
  rewrite publishes_app, publishes_thrown, app_nil_r.
  destruct e; simpl in Hd.
  - left. injection Hd as <- <-. unfold world_of, log_of. mexec.
  - left. injection Hd as <- <-. rewrite disconnect_eq by done. unfold world_of, log_of. simpl.
    rewrite publishes_app, publishes_rejections.
    split; [unfold close_log; by destruct (ws w)|]. split; [apply disconnected_counters|].
    intros id [x Hx]. by rewrite lookup_empty in Hx.
  - injection Hd as <- <-. unfold world_of, log_of. mexec.
    all: try by left.
    right. do 6 eexists. do 3 (split; [done|]).
    intros id [->|[_ ?]]%lookup_insert_is_Some; auto.
  - left. injection Hd as <- <-. unfold world_of, log_of. mexec.
  - left. injection Hd as <- <-. unfold world_of, log_of. mexec.
  - left. injection Hd as <- <-. unfold world_of, log_of. mexec.
  - left. injection Hd as <- <-. unfold world_of, log_of. by mexec.
  - left. injection Hd as <- <-. unfold world_of, log_of. by mexec.
  - left. destruct (sockets w !! s) as [[[] p]|] eqn:Hs; simplify_eq.
    unfold world_of, log_of. mexec.
    all: by rewrite ?publishes_app, ?publishes_subscribes.
  - left. destruct (sockets w !! s) as [[[] p]|] eqn:Hs; simplify_eq.
    destruct (handleMessage_cases w0 parsed HI)
      as [(l & -> & Hl)|(message & id & pr & _ & _ & Hid & ->)];
      unfold world_of, log_of; simpl.
    + by rewrite publishes_reports.
    + do 2 (split; [done|]). intros i [_ ?]%lookup_delete_is_Some. done.
  - left. destruct (sockets w !! s) as [k|] eqn:Hs; [|done].
    case_decide; simplify_eq. unfold world_of, log_of. mexec.
  - left. destruct (sockets w !! s) as [k|] eqn:Hs; [|done].
    case_decide; simplify_eq. unfold world_of, log_of. mexec.
  - left. destruct (timers w !! t) as [[id p a|]|] eqn:Ht; simplify_eq.
    + rewrite on_request_timeout_eq by done. unfold world_of, log_of. simpl.
      do 2 (split; [done|]). intros i [_ ?]%lookup_delete_is_Some. done.
    + unfold world_of, log_of. mexec.
Qed.

Lemma ids_sent_app l1 l2 : ids_sent (l1 ++ l2) = ids_sent l1 ++ ids_sent l2.
Proof. unfold ids_sent. by rewrite publishes_app, fmap_app. Qed.

Lemma Wire_init o : Wire (init o) [].
Proof.
  split; simpl.
  - by exists [].
  - intros id [x Hx]. by rewrite lookup_empty in Hx.
  - intros x Hx. by apply elem_of_nil in Hx.
Qed.

Lemma step_Wire w e w' l L :
  Inv w → Wire w L → step w e = Some (w', l) → Wire w' (L ++ l).
Proof.
  intros HI [(nows & Hlen & Hids) Hpend Hreply] Hstep.
  destruct (step_ids _ _ _ _ HI Hstep)
    as [(Hl & Hc & Hp)|(sv & a & pl & tm & n1 & n2 & _ & Hl & Hc & Hp)].
  - split.
    + exists nows. rewrite Hc, ids_sent_app. split; [done|].
      unfold ids_sent at 2. rewrite Hl. simpl. by rewrite app_nil_r.
    + intros id Hid. rewrite ids_sent_app. apply elem_of_app. left. auto.
    + intros x. rewrite publishes_app, Hl, app_nil_r. auto.
  - split.
    + exists (nows ++ [n1]). rewrite Hc, ids_sent_app, length_app.
      split; [simpl; lia|]. unfold ids_sent at 2. rewrite Hl, Hids.
      rewrite seq_S, zip_with_app, fmap_app by (by rewrite length_seq).
      f_equal.
    + intros id Hid. rewrite ids_sent_app. apply elem_of_app.
      destruct (Hp _ Hid) as [?| ->]; [left; auto|right].
      unfold ids_sent. rewrite Hl. simpl. by left.
    + intros x. rewrite publishes_app, Hl. intros [|Hx]%elem_of_app; [auto|].
      apply list_elem_of_singleton in Hx as ->. done.
Qed.

Lemma run_Wire w es w' l L :
  Inv w → Wire w L → run w es = Some (w', l) → Wire w' (L ++ l).
Proof.
  revert w l L. induction es as [|e es IH]; intros w l L HI HW Hrun; simpl in Hrun.
  - simplify_eq. by rewrite app_nil_r.
  - destruct (step w e) as [[w1 l1]|] eqn:Hstep; [|done].
    destruct (run w1 es) as [[w2 l2]|] eqn:Hrun'; [|done]. simplify_eq.
    rewrite app_assoc. eapply IH; [by eapply step_Inv| |done].
    by eapply step_Wire.
Qed.

Lemma after_run o es :
  run (init o) es = Some (after o es, log_after o es)
  ∨ (after o es = init o ∧ log_after o es = []).
Proof.
  unfold after, log_after. destruct (run (init o) es) as [[w l]|]; auto.
Qed.

Lemma after_Wire o es : Wire (after o es) (log_after o es).
Proof.
  destruct (after_run o es) as [Hrun|[-> ->]]; [|apply Wire_init].
  apply (run_Wire _ _ _ _ [] (Inv_init o) (Wire_init o) Hrun).
Qed.



(** ** The frames of a log *)

Lemma frames_sent_app l1 l2 : frames_sent (l1 ++ l2) = frames_sent l1 ++ frames_sent l2.
Proof. apply omap_app. Qed.

Lemma frames_sent_reports l : Forall (λ e, is_report e = true) l → frames_sent l = [].
Proof. induction 1 as [|e l He _ IH]; [done|]. by destruct e as [| | | | | | |[]| |]. Qed.

Lemma frames_sent_thrown {A} (r : Res A) : frames_sent (thrown_log r) = [].
Proof. by destruct r. Qed.

(** ** Reconnection attempts *)

Lemma reconnects_since_open_app n l1 l2 :
  reconnects_since_open n (l1 ++ l2) =
  reconnects_since_open (reconnects_since_open n l1) l2.
Proof. apply foldl_app. Qed.

Lemma reconnects_since_open_reports n l :
  Forall (λ e, is_report e = true) l → reconnects_since_open n l = n.
Proof.
  intros Hl. revert n. induction Hl as [|e l He _ IH]; intros n; [done|].
  unfold reconnects_since_open in *. simpl. rewrite IH.
  by destruct e as [| | | | | | |[]| |].
Qed.

Lemma reconnects_since_open_subscribes n s (l : list string) :
  reconnects_since_open n ((λ channel, ESend s (FSubscribe channel)) <$> l) = n.
Proof. by induction l. Qed.

Lemma reconnects_since_open_rejections n (l : list (string * PendingRequest)) :
  reconnects_since_open n (rejections l) = n.
Proof. by induction l. Qed.

Lemma reconnects_since_open_thrown {A} n (r : Res A) :
  reconnects_since_open n (thrown_log r) = n.
Proof. by destruct r. Qed.

Lemma reconnect_delays_app l1 l2 :
  reconnect_delays (l1 ++ l2) = reconnect_delays l1 ++ reconnect_delays l2.
Proof. apply omap_app. Qed.

Lemma reconnect_delays_reports l :
  Forall (λ e, is_report e = true) l → reconnect_delays l = [].
Proof. induction 1 as [|e l He _ IH]; [done|]. by destruct e as [| | | | | | |[]| |]. Qed.

Lemma reconnect_delays_subscribes s (l : list string) :
  reconnect_delays ((λ channel, ESend s (FSubscribe channel)) <$> l) = [].
Proof. by induction l. Qed.

Lemma reconnect_delays_rejections (l : list (string * PendingRequest)) :
  reconnect_delays (rejections l) = [].
Proof. by induction l. Qed.

Lemma reconnect_delays_thrown {A} (r : Res A) : reconnect_delays (thrown_log r) = [].
Proof. by destruct r. Qed.

Ltac log_simpl :=
  rewrite ?reconnects_since_open_app, ?reconnects_since_open_subscribes,
    ?reconnect_delays_app, ?reconnect_delays_subscribes; simpl.

Ltac reconnects_done :=
  log_simpl; repeat split; try done; try (by repeat constructor);
  try (intros;
       repeat match goal with
              | H : bool_decide _ = false |- _ => apply bool_decide_eq_false in H
              end; lia).

Lemma step_reconnects w e w' l :
  Inv w → step w e = Some (w', l) →
  options w' = options w
  ∧ reconnectAttempts w' = reconnects_since_open (reconnectAttempts w) l
  ∧ (reconnectAttempts w ≤ default 5 (maxReconnectAttempts (options w)) →
     reconnectAttempts w' ≤ default 5 (maxReconnectAttempts (options w)))
  ∧ Forall (λ ms, ms = default 5000%N (reconnectInterval (options w))) (reconnect_delays l).
Proof.
  intros HI (w0 & m & Hd & -> & ->)%step_triple.
  rewrite reconnects_since_open_app, reconnects_since_open_thrown,
    reconnect_delays_app, reconnect_delays_thrown, app_nil_r.
  destruct e; simpl in Hd.
  - injection Hd as <- <-. unfold world_of, log_of. mexec; reconnects_done.
  - injection Hd as <- <-. rewrite disconnect_eq by done. unfold world_of, log_of. simpl.
    rewrite reconnects_since_open_app, reconnects_since_open_rejections,
      reconnect_delays_app, reconnect_delays_rejections.
    unfold disconnected, close_socket, close_log.
    destruct (ws w) as [s|]; simpl; [destruct (sock_state w s) as [[]|]|];
      reconnects_done.
  - injection Hd as <- <-. unfold world_of, log_of. mexec; reconnects_done.
  - injection Hd as <- <-. unfold world_of, log_of. mexec; reconnects_done.
  - injection Hd as <- <-. unfold world_of, log_of. mexec; reconnects_done.
  - injection Hd as <- <-. unfold world_of, log_of. mexec; reconnects_done.
  - injection Hd as <- <-. unfold world_of, log_of. mexec; reconnects_done.
  - injection Hd as <- <-. unfold world_of, log_of. mexec; reconnects_done.
  - destruct (sockets w !! s) as [[[] p]|] eqn:Hs; simplify_eq.
    unfold world_of, log_of. mexec; reconnects_done.
  - destruct (sockets w !! s) as [[[] p]|] eqn:Hs; simplify_eq.
    destruct (handleMessage_cases w0 parsed HI)
      as [(l & -> & Hl)|(message & id & pr & _ & _ & Hid & ->)];
      unfold world_of, log_of; simpl.
    + rewrite reconnects_since_open_reports, reconnect_delays_reports by done.
      reconnects_done.
    + reconnects_done.
  - destruct (sockets w !! s) as [k|] eqn:Hs; [|done].
    case_decide; simplify_eq. unfold world_of, log_of. mexec; reconnects_done.
  - destruct (sockets w !! s) as [k|] eqn:Hs; [|done].
    case_decide; simplify_eq. unfold world_of, log_of. mexec; reconnects_done.
  - destruct (timers w !! t) as [[id p a|]|] eqn:Ht; simplify_eq.
    + rewrite on_request_timeout_eq by done. unfold world_of, log_of. simpl.
      reconnects_done.
    + unfold world_of, log_of. mexec; reconnects_done.
Qed.

Lemma run_reconnects w es w' l :
  Inv w → run w es = Some (w', l) →
  options w' = options w
  ∧ reconnectAttempts w' = reconnects_since_open (reconnectAttempts w) l
  ∧ (reconnectAttempts w ≤ default 5 (maxReconnectAttempts (options w)) →
     reconnectAttempts w' ≤ default 5 (maxReconnectAttempts (options w)))
  ∧ Forall (λ ms, ms = default 5000%N (reconnectInterval (options w))) (reconnect_delays l).
Proof.
  revert w l. induction es as [|e es IH]; intros w l HI Hrun; simpl in Hrun.
  - simplify_eq. by repeat split.
  - destruct (step w e) as [[w1 l1]|] eqn:Hstep; [|done].
    destruct (run w1 es) as [[w2 l2]|] eqn:Hrun'; [|done]. simplify_eq.
    destruct (step_reconnects _ _ _ _ HI Hstep) as (Ho1 & Ha1 & Hb1 & Hd1).
    destruct (IH _ _ (step_Inv _ _ _ _ HI Hstep) Hrun') as (Ho2 & Ha2 & Hb2 & Hd2).
    rewrite Ho1 in *. split; [done|]. split; [|split].
    + by rewrite reconnects_since_open_app, <-Ha1.
    + auto.
    + rewrite reconnect_delays_app. by apply Forall_app.
Qed.


(** ** No promise is lost *)

Lemma promises_made_app l1 l2 :
  promises_made (l1 ++ l2) = promises_made l1 ++ promises_made l2.
Proof. apply omap_app. Qed.

Lemma promises_made_reports l :
  Forall (λ e, is_report e = true) l → promises_made l = [].
Proof. induction 1 as [|e l He _ IH]; [done|]. by destruct e as [| | | | | | |[]| |]. Qed.

Lemma promises_made_subscribes s (l : list string) :
  promises_made ((λ channel, ESend s (FSubscribe channel)) <$> l) = [].
Proof. by induction l. Qed.

Lemma promises_made_rejections (l : list (string * PendingRequest)) :
  promises_made (rejections l) = [].
Proof. by induction l. Qed.

Lemma promises_made_thrown {A} (r : Res A) : promises_made (thrown_log r) = [].
Proof. by destruct r. Qed.

Lemma promises_made_close_log w : promises_made (close_log w) = [].
Proof. unfold close_log. by destruct (ws w). Qed.

Lemma socket_promise_grow (K : list Socket) k p :
  socket_promise K p → socket_promise (K ++ [k]) p.
Proof.
  intros (s & x & Hs & <-). exists s, x. split; [|done].
  by apply lookup_app_l_Some.
Qed.

Lemma socket_promise_new (K : list Socket) r p :
  socket_promise (K ++ [{| readyState := r; sock_promise := p |}]) p.
Proof.
  exists (length K), {| readyState := r; sock_promise := p |}. split; [|done].
  by rewrite lookup_app_r, Nat.sub_diag.
Qed.

Lemma socket_promise_altered (K : list Socket) s r p :
  socket_promise K p →
  socket_promise (alter (λ k, {| readyState := r; sock_promise := sock_promise k |}) s K) p.
Proof.
  intros (s' & k & Hs & <-).
  destruct (decide (s = s')) as [->|Hne].
  - eexists s', _. rewrite list_lookup_alter_eq, Hs. done.
  - exists s', k. by rewrite list_lookup_alter_ne.
Qed.

Lemma pending_promise_new (P : gmap string PendingRequest) id p t :
  pending_promise (<[id := {| req_promise := p; req_timeout := t |}]> P) p.
Proof. eexists id, _. by rewrite lookup_insert_eq. Qed.

#[export] Hint Resolve socket_promise_grow socket_promise_new socket_promise_altered
  pending_promise_new : inv.

Ltac in_cases Hin :=
  repeat match type of Hin with
         | _ ∈ _ ++ _ => apply elem_of_app in Hin as [Hin|Hin]
         | _ ∈ [] => by apply elem_of_nil in Hin
         | _ ∈ _ :: _ => apply elem_of_cons in Hin as [Hin|Hin]
         | _ ∈ _ <$> _ => apply list_elem_of_fmap in Hin as (? & Hin & _)
         end;
  simplify_eq; simpl.

Ltac promises_done :=
  rewrite ?promises_made_app, ?promises_made_subscribes; simpl;
  split;
  [ intros ? ?; eauto 6 with inv nocore
  | let Hin := fresh "Hin" in
    intros ? ? Hin; in_cases Hin; unfold accounted; simpl;
    solve [ left; eauto 4 with inv nocore
          | right; left; split; [done|]; eauto 4 with inv nocore
          | right; right; split; [done|]; eauto 4 with inv nocore ] ].

Lemma step_promises w e w' l :
  Inv w → step w e = Some (w', l) →
  (∀ p, socket_promise (sockets w) p → socket_promise (sockets w') p)
  ∧ (∀ p o, (p, o) ∈ promises_made l → accounted w' p o).
Proof.
  intros HI (w0 & m & Hd & -> & ->)%step_triple.
  rewrite promises_made_app, promises_made_thrown, app_nil_r.
  destruct e; simpl in Hd.
  - injection Hd as <- <-. unfold world_of, log_of. mexec; promises_done.
  - injection Hd as <- <-. rewrite disconnect_eq by done. unfold world_of, log_of. simpl.
    rewrite promises_made_app, promises_made_close_log, promises_made_rejections.
    unfold disconnected, close_socket.
    destruct (ws w) as [s|]; simpl; [destruct (sock_state w s) as [[]|]|];
      promises_done.
  - injection Hd as <- <-. unfold world_of, log_of. mexec; promises_done.
  - injection Hd as <- <-. unfold world_of, log_of. mexec; promises_done.
  - injection Hd as <- <-. unfold world_of, log_of. mexec; promises_done.
  - injection Hd as <- <-. unfold world_of, log_of. mexec; promises_done.
  - injection Hd as <- <-. unfold world_of, log_of. mexec; promises_done.
  - injection Hd as <- <-. unfold world_of, log_of. mexec; promises_done.
  - destruct (sockets w !! s) as [[[] p]|] eqn:Hs; simplify_eq.
    unfold world_of, log_of. mexec; promises_done.
  - destruct (sockets w !! s) as [[[] p]|] eqn:Hs; simplify_eq.
    destruct (handleMessage_cases w0 parsed HI)
      as [(l & -> & Hl)|(message & id & pr & _ & _ & Hid & ->)];
      unfold world_of, log_of; simpl.
    + rewrite promises_made_reports by done. promises_done.
    + promises_done.
  - destruct (sockets w !! s) as [k|] eqn:Hs; [|done].
    case_decide; simplify_eq. unfold world_of, log_of. mexec; promises_done.
  - destruct (sockets w !! s) as [k|] eqn:Hs; [|done].
    case_decide; simplify_eq. unfold world_of, log_of. mexec; promises_done.
  - destruct (timers w !! t) as [[id p a|]|] eqn:Ht; simplify_eq.
    + rewrite on_request_timeout_eq by done. unfold world_of, log_of. simpl.
      promises_done.
    + unfold world_of, log_of. mexec; promises_done.
Qed.

Lemma step_accounted w e w' l p o :
  Inv w → step w e = Some (w', l) → accounted w p o → accounted w' p o.
Proof.
  intros HI Hstep Hacc.
  destruct (step_Summary _ _ _ _ HI Hstep) as [_ _ _ Q4 Q5 _ _ Q8].
  destruct (step_promises _ _ _ _ HI Hstep) as [Hsock _].
  destruct Hacc as [HS|[[-> (id & pr & Hid & <-)]|[-> Hp]]].
  - left. auto.
  - destruct (Q8 _ _ Hid) as [[Hid' _]|[_ Hcause]].
    + right; left. split; [done|]. by exists id, pr.
    + left. apply Q5.
      destruct Hcause as [[_ ->]|[(?&?&_&->)|(?&?&_&_&->)]]; done.
  - right; right. auto.
Qed.

Lemma run_accounted w es w' l L :
  Inv w → (∀ p o, (p, o) ∈ promises_made L → accounted w p o) →
  run w es = Some (w', l) →
  ∀ p o, (p, o) ∈ promises_made (L ++ l) → accounted w' p o.
Proof.
  revert w l L. induction es as [|e es IH]; intros w l L HI HL Hrun; simpl in Hrun.
  - simplify_eq. intros p o. rewrite app_nil_r. auto.
  - destruct (step w e) as [[w1 l1]|] eqn:Hstep; [|done].
    destruct (run w1 es) as [[w2 l2]|] eqn:Hrun'; [|done]. simplify_eq.
    rewrite app_assoc. eapply IH; [by eapply step_Inv| |done].
    intros p o. rewrite promises_made_app. intros [Hp|Hp]%elem_of_app.
    + eapply step_accounted; eauto.
    + by apply (step_promises _ _ _ _ HI Hstep).
Qed.



(** ** The channel registry *)

Lemma Registry_init o : Registry (init o).
Proof.
  split; simpl.
  - intros c. rewrite lookup_empty. split; [set_solver|by intros [??]].
  - intros event hs. by rewrite lookup_empty.
Qed.

Lemma channel_event_inj c1 c2 : "channel:" +:+ c1 = "channel:" +:+ c2 → c1 = c2.
Proof. intros H. by simplify_eq/=. Qed.

Lemma RegistryF_subscribe C L c h :
  RegistryF C L →
  RegistryF ({[c]} ∪ C)
    (<["channel:" +:+ c := default [] (L !! ("channel:" +:+ c)) ++ [h]]> L).
Proof.
  intros [R1 R2]. split.
  - intros c'. rewrite elem_of_union, elem_of_singleton, lookup_insert_is_Some, R1.
    split.
    + intros [->|?]; [by left|]. destruct (decide (c = c')) as [->|]; [by left|right].
      split; [|done]. by intros ?%channel_event_inj.
    + intros [->%channel_event_inj|[_ ?]]; auto.
  - intros event hs. rewrite lookup_insert_Some. intros [[<- <-]|[_ Hev]]; [|eauto].
    split; [|by exists c]. by destruct (default [] _).
Qed.

Lemma RegistryF_unsubscribe C L c :
  RegistryF C L → RegistryF (C ∖ {[c]}) (delete ("channel:" +:+ c) L).
Proof.
  intros [R1 R2]. split.
  - intros c'. rewrite elem_of_difference, elem_of_singleton, lookup_delete_is_Some, R1.
    split.
    + intros [? Hne]. split; [|done]. intros ?%channel_event_inj. by apply Hne.
    + intros [Hne ?]. split; [done|]. intros ->. by apply Hne.
  - intros event hs. rewrite lookup_delete_Some. intros [_ Hev]. eauto.
Qed.

Ltac registry_done :=
  unfold Registry in *; simpl;
  first [ assumption | by apply RegistryF_subscribe | by apply RegistryF_unsubscribe ].

Lemma step_Registry w e w' l :
  Inv w → Registry w → step w e = Some (w', l) → Registry w'.
Proof.
  intros HI HR (w0 & m & Hd & -> & _)%step_triple.
  destruct e; simpl in Hd.
  - injection Hd as <- <-. unfold world_of. mexec; registry_done.
  - injection Hd as <- <-. rewrite disconnect_eq by done. unfold world_of. simpl.
    unfold disconnected, close_socket.
    destruct (ws w) as [s|]; simpl; [destruct (sock_state w s) as [[]|]|];
      registry_done.
  - injection Hd as <- <-. unfold world_of. mexec; registry_done.
  - injection Hd as <- <-. unfold world_of. mexec; registry_done.
  - injection Hd as <- <-. unfold world_of. mexec; registry_done.
  - injection Hd as <- <-. unfold world_of. mexec; registry_done.
  - injection Hd as <- <-. unfold world_of. mexec; registry_done.
  - injection Hd as <- <-. unfold world_of. mexec; registry_done.
  - destruct (sockets w !! s) as [[[] p]|] eqn:Hs; simplify_eq.
    unfold world_of. mexec; registry_done.
  - destruct (sockets w !! s) as [[[] p]|] eqn:Hs; simplify_eq.
    destruct (handleMessage_cases w0 parsed HI)
      as [(l' & -> & Hl)|(message & id & pr & _ & _ & Hid & ->)];
      unfold world_of; simpl; registry_done.
  - destruct (sockets w !! s) as [k|] eqn:Hs; [|done].
    case_decide; simplify_eq. unfold world_of. mexec; registry_done.
  - destruct (sockets w !! s) as [k|] eqn:Hs; [|done].
    case_decide; simplify_eq. unfold world_of. mexec; registry_done.
  - destruct (timers w !! t) as [[id p a|]|] eqn:Ht; simplify_eq.
    + rewrite on_request_timeout_eq by done. unfold world_of. simpl. registry_done.
    + unfold world_of. mexec; registry_done.
Qed.

Lemma reachable_Registry w : reachable w → Registry w.
Proof.
  induction 1 as [o|w e w' l Hreach IH Hstep]; [apply Registry_init|].
  eapply step_Registry; eauto using reachable_Inv.
Qed.

(** X8.  In a reachable world the channel registry is
    consistent: a channel is in [subscribedChannels] exactly when
    [subscribeToChannel] has registered at least one handler for it that
    [unsubscribeFromChannel] has not removed, and every listener the client
    has registered is under an event name 'channel:' + channel. *)
Theorem subscribed_channels_are_those_with_handlers (w : World) :
  reachable w →
  (∀ c, c ∈ subscribedChannels w ↔ handlers_of w c ≠ [])
  ∧ (∀ event hs, listeners w !! event = Some hs → ∃ c, event = "channel:" +:+ c).
Proof.
  intros [R1 R2]%reachable_Registry. split.
  - intros c. rewrite R1. unfold handlers_of. split.
    + intros [hs Hhs]. rewrite Hhs. simpl. by apply (R2 _ _ Hhs).
    + destruct (listeners w !! _); [eauto|done].
  - intros event hs Hev. by apply (R2 _ _ Hev).
Qed.

Lemma subscribed_channels_are_those_with_handlers_witness :
  "alerts" ∈ subscribedChannels (after default_options subscribed_trace)
  ↔ handlers_of (after default_options subscribed_trace) "alerts" ≠ [].
Proof.
  apply (subscribed_channels_are_those_with_handlers
           (after default_options subscribed_trace) (after_reachable _ _)).
Defined.

Lemma is_str_channel_message v :
  is_str v "channel_message" = true → is_str v "response" = false.
Proof.
  destruct v as [[]|]; try done. simpl.
  intros ->%String.eqb_eq. done.
Qed.

(** X9.  A frame for a channel, of type 'channel_message' or, with
    no such type, with a non-empty channel and a truthy [data], is delivered:
    the turn emits the channel event with the [data] of the frame, calls the
    handlers registered for the channel, in the order of their registration
    and each with that [data], and leaves the world as it is.  In a
    reachable world a channel that is not subscribed has no handler, so
    that its frames reach no handler. *)
Theorem channel_message_is_delivered
    (w : World) (s : sock) (message : json) (c : string) :
  reachable w → sock_state w s = Some OPEN →
  get_prop message "channel" = Some (JStr c) →
  is_str (get_prop message "type") "channel_message" = true
  ∨ (is_str (get_prop message "type") "response" = false
     ∧ c ≠ "" ∧ truthy (get_prop message "data") = true) →
  step w (SockMessage s (ParseOk message)) =
    Some (w, delivery w c (get_prop message "data"))
  ∧ (c ∉ subscribedChannels w → handlers_of w c = []).
Proof.
  intros Hreach Hopen Hc Hroute. split.
  - assert (message ≠ JNull) as Hnull by (by intros ->).
    unfold step, sock_state in *. simpl.
    destruct (sockets w !! s) as [[[] p]|]; simplify_eq/=.
    rewrite handleMessage_route by done. rewrite Hc. simpl.
    destruct Hroute as [Htype|(Hresp & Hne & Hdata)].
    + rewrite (is_str_channel_message _ Htype), Htype, emit_channel_eq.
      unfold delivery, handlers_of. by rewrite ?app_nil_r.
    + rewrite Hresp, Hdata.
      assert (negb (String.eqb c "") = true) as ->.
      { apply negb_true_iff, String.eqb_neq. done. }
      simpl. destruct (is_str _ "channel_message"); rewrite emit_channel_eq;
        unfold delivery, handlers_of; by rewrite ?app_nil_r.
  - intros Hnot. apply reachable_Registry in Hreach as [R1 R2].
    unfold handlers_of. destruct (listeners w !! _) as [hs|] eqn:Hhs; [|done].
    destruct Hnot. apply R1. eauto.
Qed.

Lemma channel_message_is_delivered_witness :
  step (after default_options subscribed_trace) (SockMessage 0 (ParseOk alert_frame)) =
    Some (after default_options subscribed_trace,
          delivery (after default_options subscribed_trace) "alerts"
            (get_prop alert_frame "data"))
  ∧ ("alerts" ∉ subscribedChannels (after default_options subscribed_trace) →
     handlers_of (after default_options subscribed_trace) "alerts" = []).
Proof.
  apply (channel_message_is_delivered (after default_options subscribed_trace) 0
           alert_frame "alerts" (after_reachable _ _)).
  - vm_compute. reflexivity.
  - vm_compute. reflexivity.
  - left. vm_compute. reflexivity.
Defined.

(** ** Subscribing and unsubscribing *)

Lemma subscribeToChannel_open w s c h :
  settled w !! nextPromise w = None →
  ws w = Some s → sock_state w s = Some OPEN →
  subscribeToChannel c h w =
    (Ok (nextPromise w),
     set_settled (<[nextPromise w := Resolved undefined]> (settled w))
       (set_listeners (<["channel:" +:+ c := handlers_of w c ++ [h]]> (listeners w))
          (set_subscribedChannels ({[c]} ∪ subscribedChannels w)
             (set_nextPromise (S (nextPromise w)) w))),
     [ENewPromise (nextPromise w) OfSubscribe; ESend s (FSubscribe c);
      ESettle (nextPromise w) (Resolved undefined)]).
Proof.
  intros HS Hws Hopen.
  assert (bool_decide (readyState <$> sockets w !! s = Some OPEN) = true) as Hb.
  { by apply bool_decide_eq_true. }
  unfold handlers_of. mexec.
Qed.

Lemma unsubscribeFromChannel_eq w c :
  settled w !! nextPromise w = None →
  unsubscribeFromChannel c w =
    (Ok (nextPromise w),
     set_settled (<[nextPromise w := Resolved undefined]> (settled w))
       (set_listeners (delete ("channel:" +:+ c) (listeners w))
          (set_subscribedChannels (subscribedChannels w ∖ {[c]})
             (set_nextPromise (S (nextPromise w)) w))),
     ENewPromise (nextPromise w) OfUnsubscribe
       :: match ws w with
          | Some s => if bool_decide (sock_state w s = Some OPEN)
                      then [ESend s (FUnsubscribe c)] else []
          | None => []
          end
       ++ [ESettle (nextPromise w) (Resolved undefined)]).
Proof. intros HS. mexec. Qed.

(** X11.  [unsubscribeFromChannel] works in every reachable world,
    connected or not: the promise it returns is resolved by the call, the
    channel leaves [subscribedChannels], all its handlers are removed while
    those of the other channels stay, and an [unsubscribe] frame is sent on
    the current socket exactly when the connection is open. *)
Theorem unsubscribe_removes_the_channel (w : World) (c : string) :
  reachable w →
  ∃ w' l,
    unsubscribeFromChannel c w = (Ok (nextPromise w), w', l)
    ∧ settle_calls (nextPromise w) l = [Resolved undefined]
    ∧ settled w' !! nextPromise w = Some (Resolved undefined)
    ∧ frames_sent l =
        match ws w with
        | Some s => if isConnected w then [(s, FUnsubscribe c)] else []
        | None => []
        end
    ∧ subscribedChannels w' = subscribedChannels w ∖ {[c]}
    ∧ handlers_of w' c = []
    ∧ (∀ c', c' ≠ c → handlers_of w' c' = handlers_of w c').
Proof.
  intros Hreach. pose proof (reachable_Inv _ Hreach) as HI.
  assert (settled w !! nextPromise w = None) as HS by (by eapply fresh_not_settled).
  rewrite unsubscribeFromChannel_eq by done. eexists _, _. split; [done|].
  split; [|split; [|split; [|split; [done|split]]]].
  - destruct (ws w) as [s|]; [destruct (bool_decide _)|]; calls_cases.
  - simpl. by rewrite lookup_insert_eq.
  - unfold isConnected.
    destruct (ws w) as [s|]; [destruct (bool_decide _)|]; done.
  - unfold handlers_of. simpl. by rewrite lookup_delete_eq.
  - intros c' Hne. unfold handlers_of. simpl. rewrite lookup_delete_ne; [done|].
    by intros ?%channel_event_inj.
Qed.

Lemma unsubscribe_removes_the_channel_witness :
  ∃ w' l,
    unsubscribeFromChannel "alerts" (after default_options subscribed_trace) =
      (Ok (nextPromise (after default_options subscribed_trace)), w', l)
    ∧ settle_calls (nextPromise (after default_options subscribed_trace)) l
      = [Resolved undefined]
    ∧ settled w' !! nextPromise (after default_options subscribed_trace)
      = Some (Resolved undefined)
    ∧ frames_sent l =
        match ws (after default_options subscribed_trace) with
        | Some s => if isConnected (after default_options subscribed_trace)
                    then [(s, FUnsubscribe "alerts")] else []
        | None => []
        end
    ∧ subscribedChannels w' =
        subscribedChannels (after default_options subscribed_trace) ∖ {["alerts"]}
    ∧ handlers_of w' "alerts" = []
    ∧ (∀ c', c' ≠ "alerts" →
             handlers_of w' c' = handlers_of (after default_options subscribed_trace) c').
Proof.
  apply (unsubscribe_removes_the_channel (after default_options subscribed_trace)
           "alerts" (after_reachable _ _)).
Defined.

(** X10.  Subscribing then unsubscribing, on an open connection in a
    reachable world: [subscribeToChannel] adds the channel and appends the
    handler to the handlers of the channel, [unsubscribeFromChannel] then
    removes the channel and every handler of it; the two calls send a
    [subscribe] then an [unsubscribe] frame on the current socket and both
    promises are resolved.  If the channel was not subscribed before, the
    registry is back to what it was. *)
Theorem subscribe_then_unsubscribe (w : World) (s : sock) (c : string) (h : handler) :
  reachable w → ws w = Some s → sock_state w s = Some OPEN →
  ∃ w1 l1 w2 l2,
    subscribeToChannel c h w = (Ok (nextPromise w), w1, l1)
    ∧ unsubscribeFromChannel c w1 = (Ok (S (nextPromise w)), w2, l2)
    ∧ c ∈ subscribedChannels w1
    ∧ handlers_of w1 c = handlers_of w c ++ [h]
    ∧ frames_sent (l1 ++ l2) = [(s, FSubscribe c); (s, FUnsubscribe c)]
    ∧ settled w2 !! nextPromise w = Some (Resolved undefined)
    ∧ settled w2 !! S (nextPromise w) = Some (Resolved undefined)
    ∧ subscribedChannels w2 = subscribedChannels w ∖ {[c]}
    ∧ handlers_of w2 c = []
    ∧ (c ∉ subscribedChannels w →
       subscribedChannels w2 = subscribedChannels w ∧ listeners w2 = listeners w).
Proof.
  intros Hreach Hws Hopen. pose proof (reachable_Inv _ Hreach) as HI.
  assert (settled w !! nextPromise w = None) as HS by (by eapply fresh_not_settled).
  assert (settled w !! S (nextPromise w) = None) as HS'.
  { eapply fresh_not_settled; [done|lia]. }
  rewrite (subscribeToChannel_open w s) by done.
  eexists _, _, _, _. split; [reflexivity|]. rewrite unsubscribeFromChannel_eq.
  2:{ simpl. rewrite lookup_insert_ne by lia. done. }
  split; [reflexivity|]. simpl.
  unfold sock_state in *. simpl. rewrite Hws, bool_decide_eq_true_2 by done.
  split; [by apply elem_of_union_l, elem_of_singleton|]. split.
  { unfold handlers_of at 1. simpl. by rewrite lookup_insert_eq. }
  split; [done|]. split.
  { rewrite lookup_insert_ne by lia. by rewrite lookup_insert_eq. }
  split; [by rewrite lookup_insert_eq|]. split.
  { apply set_eq. intros x. rewrite !elem_of_difference, elem_of_union. tauto. }
  split.
  { unfold handlers_of. simpl. by rewrite lookup_delete_eq. }
  intros Hnot. split.
  { apply set_eq. intros x.
    rewrite !elem_of_difference, elem_of_union, elem_of_singleton.
    split; [tauto|]. intros Hx. split; [tauto|]. by intros ->. }
  rewrite delete_insert_eq. apply delete_id.
  destruct (listeners w !! _) as [hs|] eqn:Hhs; [|done].
  destruct Hnot. apply (reg_subscribed _ _ (reachable_Registry _ Hreach)). eauto.
Qed.

Lemma subscribe_then_unsubscribe_witness :
  ∃ w1 l1 w2 l2,
    subscribeToChannel "alerts" 7 (after default_options connected_trace) =
      (Ok (nextPromise (after default_options connected_trace)), w1, l1)
    ∧ unsubscribeFromChannel "alerts" w1 =
        (Ok (S (nextPromise (after default_options connected_trace))), w2, l2)
    ∧ "alerts" ∈ subscribedChannels w1
    ∧ handlers_of w1 "alerts" =
        handlers_of (after default_options connected_trace) "alerts" ++ [7]
    ∧ frames_sent (l1 ++ l2) = [(0, FSubscribe "alerts"); (0, FUnsubscribe "alerts")]
    ∧ settled w2 !! nextPromise (after default_options connected_trace)
      = Some (Resolved undefined)
    ∧ settled w2 !! S (nextPromise (after default_options connected_trace))
      = Some (Resolved undefined)
    ∧ subscribedChannels w2 =
        subscribedChannels (after default_options connected_trace) ∖ {["alerts"]}
    ∧ handlers_of w2 "alerts" = []
    ∧ ("alerts" ∉ subscribedChannels (after default_options connected_trace) →
       subscribedChannels w2 = subscribedChannels (after default_options connected_trace)
       ∧ listeners w2 = listeners (after default_options connected_trace)).
Proof.
  apply (subscribe_then_unsubscribe (after default_options connected_trace) 0 "alerts" 7
           (after_reachable _ _)).
  - vm_compute. reflexivity.
  - vm_compute. reflexivity.
Defined.

(** ** A request and its response *)

Lemma sendAction_open_eq w s sv a pl tm n1 n2 :
  ws w = Some s → sock_state w s = Some OPEN →
  sendAction sv a pl tm n1 n2 w =
    (Ok (nextPromise w),
     set_pendingRequests
       (<[request_id_of n1 (S (requestCounter w)) :=
            {| req_promise := nextPromise w; req_timeout := nextTimer w |}]>
          (pendingRequests w))
       (set_timers
          (<[nextTimer w :=
               RequestTimeout (request_id_of n1 (S (requestCounter w))) (nextPromise w) a]>
             (timers w))
          (set_nextTimer (S (nextTimer w))
             (set_requestCounter (S (requestCounter w))
                (set_nextPromise (S (nextPromise w)) w)))),
     [ENewPromise (nextPromise w) OfSendAction;
      ESetTimeout (nextTimer w)
        (RequestTimeout (request_id_of n1 (S (requestCounter w))) (nextPromise w) a)
        (default (default 30000%N (timeout (options w))) tm);
      ESend s
        (FPublish sv
           {| action := a; payload := pl;
              reply_channel := "reply_" +:+ request_id_of n1 (S (requestCounter w));
              request_id := request_id_of n1 (S (requestCounter w));
              timestamp := n2 |})]).
Proof.
  intros Hws Hopen.
  assert (bool_decide (readyState <$> sockets w !! s = Some OPEN) = true) as Hb.
  { by apply bool_decide_eq_true. }
  mexec.
Qed.

Lemma fresh_request_id w now :
  Inv w → pendingRequests w !! request_id_of now (S (requestCounter w)) = None.
Proof.
  intros HI. destruct (pendingRequests w !! _) as [r|] eqn:Hr; [|done].
  destruct (inv_issued _ _ _ _ _ _ _ _ HI _ _ Hr) as (n' & k' & Heq & Hle).
  apply request_id_of_inj in Heq as [_ <-]. lia.
Qed.

Lemma fresh_timer w : Inv w → timers w !! nextTimer w = None.
Proof.
  intros HI. destruct (timers w !! _) as [x|] eqn:Hx; [|done].
  apply (inv_timer_fresh _ _ _ _ _ _ _ _ HI) in Hx. lia.
Qed.



(** ** The events of the socket *)

Ltac decide_hyps :=
  repeat match goal with
         | H : bool_decide _ = true |- _ => apply bool_decide_eq_true in H
         | H : bool_decide _ = false |- _ => apply bool_decide_eq_false in H
         end.

(** X13.  The [close] event of a socket.  The turn marks the socket
    closed, clears [isConnecting] and emits [disconnect] with the code and
    the reason; the pending requests, the subscriptions and [this.ws] stay
    as they are.  [scheduleReconnect] is called exactly when the code is not
    1000 and no reconnection is under way; it then starts one timer, sets
    [isReconnecting] and counts the attempt, or, with the attempts used up,
    only emits an [error] event (on a client with no listener for [error]
    that [emit] throws, and the exception ends the log of the turn).  A
    close with code 1000 schedules nothing. *)
Theorem close_schedules_a_reconnection
    (w : World) (s : sock) (k : Socket) (code : nat) (reason : string) :
  sockets w !! s = Some k → readyState k ≠ CLOSED →
  ∃ w' l,
    step w (SockClose s code reason) = Some (w', EEmit (EvDisconnect code reason) :: l)
    ∧ sock_state w' s = Some CLOSED
    ∧ isConnecting w' = false
    ∧ ws w' = ws w
    ∧ pendingRequests w' = pendingRequests w
    ∧ subscribedChannels w' = subscribedChannels w
    ∧ l = (if bool_decide (code ≠ 1000) && negb (isReconnecting w)
           then reconnect_log w else [])
    ∧ (reconnect_delays l ≠ [] →
       timers w' = <[nextTimer w := Reconnect]> (timers w)
       ∧ isReconnecting w' = true
       ∧ reconnectAttempts w' = S (reconnectAttempts w))
    ∧ (reconnect_delays l = [] →
       timers w' = timers w
       ∧ isReconnecting w' = isReconnecting w
       ∧ reconnectAttempts w' = reconnectAttempts w).
Proof.
  intros Hs Hk. unfold step, reconnect_log, unheard, attempts_error. simpl. rewrite Hs.
  rewrite decide_False by done.
  assert (sock_state (set_readyState s CLOSED w) s = Some CLOSED) as Hst.
  { unfold sock_state, set_readyState. simpl. by rewrite list_lookup_alter_eq, Hs. }
  revert Hst. unfold sock_state. mexec.
  all: intros Hst; eexists _, _; (split; [reflexivity|]); simpl.
  all: repeat split; try done.
  all: exfalso; decide_hyps; lia.
Qed.

Lemma close_schedules_a_reconnection_witness :
  ∃ w' l,
    step (after default_options connected_trace) (SockClose 0 1006 "lost") =
      Some (w', EEmit (EvDisconnect 1006 "lost") :: l)
    ∧ sock_state w' 0 = Some CLOSED
    ∧ isConnecting w' = false
    ∧ ws w' = ws (after default_options connected_trace)
    ∧ pendingRequests w' = pendingRequests (after default_options connected_trace)
    ∧ subscribedChannels w' = subscribedChannels (after default_options connected_trace)
    ∧ l = (if bool_decide (1006 ≠ 1000)
              && negb (isReconnecting (after default_options connected_trace))
           then reconnect_log (after default_options connected_trace) else [])
    ∧ (reconnect_delays l ≠ [] →
       timers w' =
         <[nextTimer (after default_options connected_trace) := Reconnect]>
           (timers (after default_options connected_trace))
       ∧ isReconnecting w' = true
       ∧ reconnectAttempts w' =
           S (reconnectAttempts (after default_options connected_trace)))
    ∧ (reconnect_delays l = [] →
       timers w' = timers (after default_options connected_trace)
       ∧ isReconnecting w' = isReconnecting (after default_options connected_trace)
       ∧ reconnectAttempts w' = reconnectAttempts (after default_options connected_trace)).
Proof.
  apply (close_schedules_a_reconnection (after default_options connected_trace) 0
           {| readyState := OPEN; sock_promise := 0 |} 1006 "lost").
  - vm_compute. reflexivity.
  - discriminate.
Defined.

(** X12.  The [open] event of the current socket.  The turn emits
    [connect], leaves the client connected with [isConnecting] and
    [isReconnecting] clear and [reconnectAttempts] at 0, calls [resolve]
    once on the promise of the [connect] call that made the socket, and
    throws nothing; frames are sent only when a reconnection was under way,
    one [subscribe] frame per subscribed channel; the pending requests, the
    subscriptions and the timers are untouched. *)
Theorem open_of_the_current_socket (w : World) (s : sock) (p : promise) :
  sockets w !! s = Some {| readyState := CONNECTING; sock_promise := p |} →
  ws w = Some s →
  ∃ w' l,
    step w (SockOpen s) = Some (w', EEmit EvConnect :: l)
    ∧ isConnected w' = true
    ∧ isConnecting w' = false
    ∧ isReconnecting w' = false
    ∧ reconnectAttempts w' = 0
    ∧ thrown l = []
    ∧ settle_calls p l = [Resolved undefined]
    ∧ settled w' !! p = Some (default (Resolved undefined) (settled w !! p))
    ∧ frames_sent l =
        (if isReconnecting w
         then (λ channel, (s, FSubscribe channel)) <$> elements (subscribedChannels w)
         else [])
    ∧ pendingRequests w' = pendingRequests w
    ∧ subscribedChannels w' = subscribedChannels w
    ∧ timers w' = timers w.
Proof.
  intros Hs Hws. unfold step. simpl. rewrite Hs.
  assert (bool_decide
            (readyState <$>
               alter (λ k, {| readyState := OPEN; sock_promise := sock_promise k |}) s
                 (sockets w) !! s = Some OPEN) = true) as Hst.
  { apply bool_decide_eq_true. by rewrite list_lookup_alter_eq, Hs. }
  mexec.
  all: eexists _, _; (split; [reflexivity|]); simpl.
  all: rewrite ?Hws; simpl; rewrite ?Hst.
  all: repeat split; try done.
  all: try (by rewrite lookup_insert_eq).
  all: rewrite ?omap_app, ?frames_sent_app, ?frames_sent_subscribes; simpl;
    rewrite ?app_nil_r; try done.
  all: try by calls_cases.
  all: unfold thrown; rewrite omap_app; simpl; rewrite app_nil_r.
  all: by induction (elements (subscribedChannels w)).
Qed.

Lemma open_of_the_current_socket_witness :
  ∃ w' l,
    step (after default_options connecting_trace) (SockOpen 0) =
      Some (w', EEmit EvConnect :: l)
    ∧ isConnected w' = true
    ∧ isConnecting w' = false
    ∧ isReconnecting w' = false
    ∧ reconnectAttempts w' = 0
    ∧ thrown l = []
    ∧ settle_calls 0 l = [Resolved undefined]
    ∧ settled w' !! 0 =
        Some (default (Resolved undefined)
                (settled (after default_options connecting_trace) !! 0))
    ∧ frames_sent l =
        (if isReconnecting (after default_options connecting_trace)
         then (λ channel, (0, FSubscribe channel))
                <$> elements (subscribedChannels (after default_options connecting_trace))
         else [])
    ∧ pendingRequests w' = pendingRequests (after default_options connecting_trace)
    ∧ subscribedChannels w' = subscribedChannels (after default_options connecting_trace)
    ∧ timers w' = timers (after default_options connecting_trace).
Proof.
  apply (open_of_the_current_socket (after default_options connecting_trace) 0 0).
  - vm_compute. reflexivity.
  - vm_compute. reflexivity.
Defined.

(** X16.  [connect] when [new WebSocket] throws, on a reachable
    client that is neither connecting nor connected: the promise returned is
    rejected with the very error that was thrown, [isConnecting] is clear
    again, no socket is made and [this.ws], the reconnection state and the
    timers are untouched, so that a later [connect] can try again. *)
Theorem connect_when_the_constructor_throws (w : World) (error : Error) :
  reachable w → isConnecting w = false → isConnected w = false →
  ∃ w',
    connect (Some error) w =
      (Ok (nextPromise w), w',
       [ENewPromise (nextPromise w) OfConnect; ESettle (nextPromise w) (Rejected error)])
    ∧ settled w' !! nextPromise w = Some (Rejected error)
    ∧ isConnecting w' = false
    ∧ ws w' = ws w
    ∧ sockets w' = sockets w
    ∧ isReconnecting w' = isReconnecting w
    ∧ reconnectAttempts w' = reconnectAttempts w
    ∧ timers w' = timers w.
Proof.
  intros Hreach Hcing Hconn. pose proof (reachable_Inv _ Hreach) as HI.
  assert (settled w !! nextPromise w = None) as HS by (by eapply fresh_not_settled).
  assert (bool_decide (nextPromise w ∈ catchers w) = false) as HC.
  { apply bool_decide_eq_false. by eapply fresh_not_catcher. }
  revert Hconn. mexec.
  all: intros _; eexists; (split; [reflexivity|]); simpl.
  all: by rewrite lookup_insert_eq.
Qed.

Lemma connect_when_the_constructor_throws_witness :
  ∃ w',
    connect (Some (NativeError "SyntaxError" "Invalid URL")) (init default_options) =
      (Ok (nextPromise (init default_options)), w',
       [ENewPromise (nextPromise (init default_options)) OfConnect;
        ESettle (nextPromise (init default_options))
          (Rejected (NativeError "SyntaxError" "Invalid URL"))])
    ∧ settled w' !! nextPromise (init default_options)
      = Some (Rejected (NativeError "SyntaxError" "Invalid URL"))
    ∧ isConnecting w' = false
    ∧ ws w' = ws (init default_options)
    ∧ sockets w' = sockets (init default_options)
    ∧ isReconnecting w' = isReconnecting (init default_options)
    ∧ reconnectAttempts w' = reconnectAttempts (init default_options)
    ∧ timers w' = timers (init default_options).
Proof.
  apply (connect_when_the_constructor_throws (init default_options)
           (NativeError "SyntaxError" "Invalid URL") (reach_init _)).
  - reflexivity.
  - reflexivity.
Defined.



(** ** What a frame can do *)

Lemma thrown_reports l : Forall (λ e, is_report e = true) l → thrown l = [].
Proof. induction 1 as [|e l He _ IH]; [done|]. by destruct e as [| | | | | | |[]| |]. Qed.

Lemma sockets_made_reports l : Forall (λ e, is_report e = true) l → sockets_made l = [].
Proof. induction 1 as [|e l He _ IH]; [done|]. by destruct e as [| | | | | | |[]| |]. Qed.



(** ** The timer of a reconnection *)



(** * The HTTP client *)

(** ** Retries *)

Lemma makeRequestWithRetry_eq {Response} (c : Http.DaebusHttpClient)
    (fetch : nat → Res Response) (url : string) (attempt : nat) :
  Http.makeRequestWithRetry c fetch url attempt =
    match fetch attempt with
    | Ok response => (Ok response, [Http.EFetch url])
    | Thrown error =>
        if decide (attempt < Http.retryAttempts c) then
          let '(r, l) := Http.makeRequestWithRetry c fetch url (S attempt) in
          (r, Http.EFetch url :: Http.EDelay (Http.retryDelay c * N.of_nat attempt) :: l)
        else (Thrown error, [Http.EFetch url])
    end.
Proof.
  rewrite Http.makeRequestWithRetry_equation_1.
  destruct (fetch attempt); [done|]. simpl. by destruct (decide _).
Qed.

Lemma attempts_log_S c url first k :
  1 ≤ k →
  Http.attempts_log c url first (S k) =
    Http.EFetch url :: Http.EDelay (Http.retryDelay c * N.of_nat first)
      :: Http.attempts_log c url (S first) k.
Proof.
  intros Hk. unfold Http.attempts_log.
  replace (S k - 1) with (S (k - 1)) by lia. done.
Qed.

(** From any attempt on: the method ends as its last attempt [k] did;
    the attempts before [k] failed, and [k] is the last one allowed if it
    failed too. *)
Lemma retry_from {Response} (c : Http.DaebusHttpClient) (fetch : nat → Res Response)
    (url : string) (n attempt : nat) :
  Http.retryAttempts c - attempt = n →
  ∃ k, attempt ≤ k ≤ attempt `max` Http.retryAttempts c
       ∧ Http.makeRequestWithRetry c fetch url attempt =
           (fetch k, Http.attempts_log c url attempt (S (k - attempt)))
       ∧ (∀ j, attempt ≤ j < k → Http.failed (fetch j))
       ∧ (Http.failed (fetch k) → k = attempt `max` Http.retryAttempts c).
Proof.
  revert attempt. induction n as [|n IH]; intros attempt Hn.
  - exists attempt. rewrite makeRequestWithRetry_eq, Nat.sub_diag.
    split; [lia|]. split; [|split; [intros; lia|intros; lia]].
    destruct (fetch attempt); [done|]. by rewrite decide_False by lia.
  - rewrite makeRequestWithRetry_eq.
    destruct (fetch attempt) as [response|error] eqn:Hfetch.
    + exists attempt. rewrite Hfetch, Nat.sub_diag.
      split; [lia|]. split; [done|]. split; [intros; lia|]. by intros [].
    + rewrite decide_True by lia.
      destruct (IH (S attempt) ltac:(lia)) as (k & Hk & -> & Hbefore & Hlast).
      exists k. split; [lia|]. split; [|split].
      * replace (S (k - attempt)) with (S (S (k - S attempt))) by lia.
        by rewrite (attempts_log_S c url attempt (S (k - S attempt))) by lia.
      * intros j Hj. destruct (decide (j = attempt)) as [->|]; [by rewrite Hfetch|].
        apply Hbefore. lia.
      * intros Hk'. rewrite (Hlast Hk'). lia.
Qed.

Lemma fetches_attempts_log c url first k :
  Http.fetches (Http.attempts_log c url first (S k)) = S k.
Proof.
  revert first. induction k as [|k IH]; intros first; [done|].
  rewrite attempts_log_S by lia. unfold Http.fetches in *. simpl.
  by rewrite IH.
Qed.

Lemma waited_attempts_log c url first k :
  Http.waited (Http.attempts_log c url first (S k)) =
    (Http.retryDelay c * N.of_nat (k * first + k * (k - 1) / 2))%N.
Proof.
  revert first. induction k as [|k IH]; intros first.
  - simpl. lia.
  - rewrite attempts_log_S by lia.
    change (Http.waited (?a :: Http.EDelay ?d :: ?l)) with (d + Http.waited l)%N.
    rewrite IH, <-N.mul_add_distr_l. f_equal.
    assert (S k * (S k - 1) / 2 = k + k * (k - 1) / 2) as ->.
    { replace (S k * (S k - 1)) with (k * (k - 1) + k * 2) by nia.
      rewrite Nat.div_add by done. lia. }
    lia.
Qed.

(** X18.  [makeRequestWithRetry], called with its default first attempt,
    calls [fetch] until a call succeeds or the attempts are used up.  With
    [retryAttempts] a natural number and the configuration left alone
    during the call, there is a last attempt [k], between 1 and
    [max 1 retryAttempts]: every attempt before it failed, the method ends
    as attempt [k] did (with its response, or throwing its error, which is
    then the error of the last attempt allowed), [fetch] was called [k]
    times with the same URL, and between attempt [j] and the next the
    method waited [retryDelay * j], in all [retryDelay * k (k - 1) / 2].
    So [fetch] is called once even when [retryAttempts] is 0. *)
Theorem the_request_is_retried_until_it_succeeds
    {Response : Type} (c : Http.DaebusHttpClient) (fetch : nat → Res Response)
    (url : string) :
  ∃ k, 1 ≤ k ≤ 1 `max` Http.retryAttempts c
       ∧ Http.makeRequestWithRetry c fetch url 1 = (fetch k, Http.attempts_log c url 1 k)
       ∧ (∀ j, 1 ≤ j < k → Http.failed (fetch j))
       ∧ (Http.failed (fetch k) → k = 1 `max` Http.retryAttempts c)
       ∧ Http.fetches (Http.attempts_log c url 1 k) = k
       ∧ Http.waited (Http.attempts_log c url 1 k) =
           (Http.retryDelay c * N.of_nat (k * (k - 1) / 2))%N.
Proof.
  destruct (retry_from c fetch url _ 1 eq_refl) as (k & Hk & Heq & Hbefore & Hlast).
  exists k. split; [done|]. destruct k as [|k]; [lia|].
  replace (S (S k - 1)) with (S k) in Heq by lia.
  split; [done|]. split; [done|]. split; [done|].
  split; [apply fetches_attempts_log|].
  rewrite waited_attempts_log. do 2 f_equal.
  replace (S k * (S k - 1)) with (k * (k - 1) + k * 2) by nia.
  rewrite Nat.div_add by done. lia.
Qed.

(** ** Configuration *)

Lemma remove_trailing_slash_slash s :
  Http.remove_trailing_slash (s +:+ "/") = s.
Proof.
  induction s as [|c s IH]; [done|]. simpl in *. rewrite IH.
  destruct s; [|done]. simpl in *. done.
Qed.

Lemma spread_idemp (a b : gmap string string) :
  Http.spread (Http.spread a b) b = Http.spread a b.
Proof. unfold Http.spread. by rewrite (assoc_L (∪)), (idemp_L (∪)). Qed.

Lemma updated_headers c ps name :
  is_Some (Http.defaultHeaders c !! name) →
  is_Some (Http.defaultHeaders (Http.updated c ps) !! name).
Proof.
  revert c. induction ps as [|p ps IH]; intros c Hc; [done|].
  apply IH. simpl. destruct (Http.Partial.headers p) as [h|]; [|done].
  unfold Http.spread. apply lookup_union_is_Some. auto.
Qed.

(** X19.  [updateConfig] of the HTTP client.  Giving the same update twice
    is giving it once, and an update with no property changes nothing.
    The header [Content-Type] that the constructor sets is there after any
    updates, and so is every header the client ever had: an update adds
    headers or replaces their values, the value given wins, and no header
    is removed.  A base URL that ends in a slash is stored without it, and
    the empty string as base URL is ignored. *)
Theorem http_configuration_updates
    (o : Http.Options.t) (ps : list Http.Partial.t) (p : Http.Partial.t)
    (c : Http.DaebusHttpClient) (url : string) :
  Http.updateConfig p (Http.updateConfig p c) = Http.updateConfig p c
  ∧ Http.updateConfig Http.nothing c = c
  ∧ is_Some (Http.defaultHeaders (Http.updated (Http.new o) ps) !! "Content-Type")
  ∧ (∀ name, is_Some (Http.defaultHeaders c !! name) →
             is_Some (Http.defaultHeaders (Http.updated c ps) !! name))
  ∧ (∀ h name value, Http.Partial.headers p = Some h → h !! name = Some value →
                     Http.defaultHeaders (Http.updateConfig p c) !! name = Some value)
  ∧ (Http.Partial.baseUrl p = Some (url +:+ "/") →
     Http.baseUrl (Http.updateConfig p c) = url)
  ∧ (Http.Partial.baseUrl p = Some "" → Http.baseUrl (Http.updateConfig p c) = Http.baseUrl c).
Proof.
  split; [|split; [|split; [|split; [|split; [|split]]]]].
  - destruct p as [[u|] [t|] [a|] [d|] [h|]], c; unfold Http.updateConfig; simpl; f_equal;
      try apply spread_idemp; try done.
    all: by destruct (String.eqb u "").
  - by destruct c.
  - apply updated_headers. simpl. unfold Http.spread.
    apply lookup_union_is_Some. right. by rewrite lookup_singleton_eq.
  - intros name. apply updated_headers.
  - intros h name value Hh Hname. simpl. rewrite Hh. unfold Http.spread.
    by apply lookup_union_Some_l.
  - intros Hu. simpl. rewrite Hu, remove_trailing_slash_slash.
    by destruct url.
  - intros Hu. simpl. by rewrite Hu.
Qed.

(** * The client *)

(** X20.  A client made without [wsUrl] (left out, or the empty string)
    has no WebSocket client and its constructor does nothing to the
    outside.  [connect], [sendAction], [subscribe] and [unsubscribe] return
    a promise rejected with the [DaebusConnectionError] 'WebSocket client
    not configured. Provide wsUrl in options.', [broadcast] throws it,
    while [isConnected] is false and [disconnect] and [ensureConnection]
    do nothing and succeed.  The client is left as it was. *)
Theorem websocket_methods_need_wsUrl (o : Client.Options.t) (ctor : option Error) :
  Client.given (Client.Options.wsUrl o) = false →
  ∃ c,
    Client.new o ctor = (c, [])
    ∧ Client.wsClient c = None
    ∧ Client.isConnected c = false
    ∧ (∀ ctor', Client.connect ctor' c = (Client.RejectedWith Client.not_configured, c, []))
    ∧ (∀ a pl tm n1 n2,
         Client.sendAction a pl tm n1 n2 c =
           (Client.RejectedWith Client.not_configured, c, []))
    ∧ (∀ channel h,
         Client.subscribe channel h c = (Client.RejectedWith Client.not_configured, c, []))
    ∧ (∀ channel,
         Client.unsubscribe channel c = (Client.RejectedWith Client.not_configured, c, []))
    ∧ (∀ channel data,
         Client.broadcast channel data c = (Thrown Client.not_configured, c, []))
    ∧ Client.disconnect c = (Ok tt, c, [])
    ∧ (∀ ctor', Client.ensureConnection ctor' c = (Client.Fulfilled, c, [])).
Proof.
  intros Hws. unfold Client.new. rewrite Hws. eexists. split; [reflexivity|].
  repeat split.
Qed.

Lemma websocket_methods_need_wsUrl_witness :
  ∃ c,
    Client.new
      {| Client.Options.serviceName := "svc"; Client.Options.httpBaseUrl := Some "http://h/";
         Client.Options.wsUrl := Some ""; Client.Options.timeout := None;
         Client.Options.retryAttempts := None; Client.Options.retryDelay := None;
         Client.Options.headers := None; Client.Options.autoConnect := None |} None
      = (c, [])
    ∧ Client.wsClient c = None
    ∧ Client.isConnected c = false
    ∧ (∀ ctor', Client.connect ctor' c = (Client.RejectedWith Client.not_configured, c, []))
    ∧ (∀ a pl tm n1 n2,
         Client.sendAction a pl tm n1 n2 c =
           (Client.RejectedWith Client.not_configured, c, []))
    ∧ (∀ channel h,
         Client.subscribe channel h c = (Client.RejectedWith Client.not_configured, c, []))
    ∧ (∀ channel,
         Client.unsubscribe channel c = (Client.RejectedWith Client.not_configured, c, []))
    ∧ (∀ channel data,
         Client.broadcast channel data c = (Thrown Client.not_configured, c, []))
    ∧ Client.disconnect c = (Ok tt, c, [])
    ∧ (∀ ctor', Client.ensureConnection ctor' c = (Client.Fulfilled, c, [])).
Proof.
  apply (websocket_methods_need_wsUrl _ None). reflexivity.
Defined.


(** X22.  The first connection of a client that connects in its
    constructor, with the application listening to the [error] events of
    the client.  When the socket reports an error, the client emits two
    [error] events: the socket's error, passed on from the WebSocket
    client, and then the [DaebusConnectionError] 'WebSocket connection
    failed: ...' with which the promise of [connect] is rejected, emitted
    by the rejection handler of the constructor.  When [new WebSocket]
    throws instead, the client emits one [error] event, the error thrown,
    and is left with no socket and not connecting.  When the socket is
    made, the constructor itself emits nothing. *)
Theorem a_failed_first_connection_is_reported_twice
    (o : Client.Options.t) (error : Error) :
  Client.given (Client.Options.wsUrl o) = true →
  Client.Options.autoConnect o ≠ Some false →
  (* the socket reports an error *)
  (∃ c w l w',
     Client.new o None = (c, l)
     ∧ Client.wsClient c = Some w
     ∧ Client.proxied l ++ Client.reported c (Client.made o) l = []
     ∧ step w (SockError 0 error) =
         Some (w', [EEmit (EvError error); ESettle 0 (Rejected (connection_failed error))])
     ∧ Client.proxied [EEmit (EvError error); ESettle 0 (Rejected (connection_failed error))]
         ++ Client.reported c w
              [EEmit (EvError error); ESettle 0 (Rejected (connection_failed error))]
       = [EvError error; EvError (connection_failed error)])
  (* the constructor of the socket throws *)
  ∧ (∃ c w l,
       Client.new o (Some error) = (c, l)
       ∧ Client.wsClient c = Some w
       ∧ sockets w = []
       ∧ isConnecting w = false
       ∧ Client.proxied l ++ Client.reported c (Client.made o) l
         = [EvError error]).
Proof.
  intros Hws Hauto. unfold Client.new. rewrite Hws, bool_decide_eq_true_2 by done.
  split.
  - eexists _, _, _, _. split; [reflexivity|]. split; [reflexivity|].
    split; [reflexivity|]. split; reflexivity.
  - eexists _, _, _. split; [reflexivity|]. split; [reflexivity|].
    repeat split.
Qed.


Lemma a_failed_first_connection_is_reported_twice_witness :
  (∃ c w l w',
     Client.new svc_options None = (c, l)
     ∧ Client.wsClient c = Some w
     ∧ Client.proxied l ++ Client.reported c (Client.made svc_options) l = []
     ∧ step w (SockError 0 (NativeError "Error" "refused")) =
         Some (w', [EEmit (EvError (NativeError "Error" "refused"));
                    ESettle 0 (Rejected (connection_failed (NativeError "Error" "refused")))])
     ∧ Client.proxied
         [EEmit (EvError (NativeError "Error" "refused"));
          ESettle 0 (Rejected (connection_failed (NativeError "Error" "refused")))]
         ++ Client.reported c w
              [EEmit (EvError (NativeError "Error" "refused"));
               ESettle 0 (Rejected (connection_failed (NativeError "Error" "refused")))]
       = [EvError (NativeError "Error" "refused");
          EvError (connection_failed (NativeError "Error" "refused"))])
  ∧ (∃ c w l,
       Client.new svc_options (Some (NativeError "Error" "refused")) = (c, l)
       ∧ Client.wsClient c = Some w
       ∧ sockets w = []
       ∧ isConnecting w = false
       ∧ Client.proxied l ++ Client.reported c (Client.made svc_options) l
         = [EvError (NativeError "Error" "refused")]).
Proof.
  apply (a_failed_first_connection_is_reported_twice svc_options
           (NativeError "Error" "refused")).
  - reflexivity.
  - discriminate.
Defined.

(** * Waiting for the connection *)

Lemma Wait_Inv_empty : Wait.Inv Wait.empty.
Proof.
  split; simpl.
  - intros t w. rewrite lookup_empty. split; [done|]. by intros [?%elem_of_nil _].
  - constructor.
  - intros w1 w2 ?%elem_of_nil. done.
  - intros w ?%elem_of_nil. done.
  - intros p. rewrite lookup_empty. split; [by intros [??]|]. intros [? _]. lia.
Qed.

Lemma Wait_Inv_call timeout_arg c s :
  Wait.Inv s → Wait.Inv (Wait.waitForConnection timeout_arg c s).1.2.
Proof.
  intros [I1 I2 I3 I4 I5]. unfold Wait.waitForConnection.
  destruct (Client.isConnected c); [done|]. simpl.
  set (w := {| Wait.wait_promise := Wait.nextPromise s; Wait.wait_timer := Wait.nextTimer s |}).
  assert (w ∉ Wait.onConnect s) as Hw.
  { intros Hin. apply I4 in Hin as [Hp _]. simpl in Hp. lia. }
  split; simpl.
  - intros t x. rewrite lookup_insert_Some, elem_of_app, list_elem_of_singleton, I1.
    split.
    + intros [[<- <-]|[Hne [Hx <-]]]; [by split; [right|]|]. by split; [left|].
    + intros [[Hx| ->] <-].
      * right. split; [|done]. apply I4 in Hx. lia.
      * by left.
  - apply NoDup_app. split; [done|]. split; [|apply NoDup_singleton].
    intros x Hx ->%list_elem_of_singleton. done.
  - intros w1 w2. rewrite !elem_of_app, !list_elem_of_singleton.
    intros [H1| ->] [H2| ->] Heq; [by apply I3| | |done].
    + apply I4 in H1. simpl in Heq. lia.
    + apply I4 in H2. simpl in Heq. lia.
  - intros x. rewrite elem_of_app, list_elem_of_singleton.
    intros [Hx| ->]; [apply I4 in Hx; lia|simpl; lia].
  - intros p. rewrite I5. split.
    + intros [Hlt Hp]. split; [lia|]. intros x.
      rewrite elem_of_app, list_elem_of_singleton. intros [Hx| ->]; [by apply Hp|].
      simpl. lia.
    + intros [Hlt Hp]. split.
      * assert (p ≠ Wait.nextPromise s); [|lia].
        intros ->. apply (Hp w); [|done]. apply elem_of_app. right. by left.
      * intros x Hx. apply Hp. apply elem_of_app. by left.
Qed.

(** A waiting call leaves, with its listener and its timer, and its promise
    is settled. *)
Lemma Wait_Inv_leave s w o :
  Wait.Inv s → w ∈ Wait.onConnect s →
  Wait.Inv (Wait.settle (Wait.wait_promise w) o
              (Wait.clear_timer (Wait.wait_timer w) (Wait.remove_listener w s))).
Proof.
  intros [I1 I2 I3 I4 I5] Hw.
  assert (Wait.settled s !! Wait.wait_promise w = None) as HS.
  { destruct (Wait.settled s !! _) eqn:Hs; [|done].
    assert (is_Some (Wait.settled s !! Wait.wait_promise w)) as Hsome by eauto.
    apply I5 in Hsome as [_ Hno]. by destruct (Hno w Hw). }
  split; simpl; rewrite ?HS.
  - intros t x. rewrite lookup_delete_Some, list_elem_of_filter, I1. split.
    + intros [Hne [Hx <-]]. split; [|done]. split; [|done]. by intros ->.
    + intros [[Hne Hx] <-]. split; [|done]. intros Heq. apply Hne.
      assert (Wait.timers s !! Wait.wait_timer w = Some w) as H1 by (by apply I1).
      assert (Wait.timers s !! Wait.wait_timer x = Some x) as H2 by (by apply I1).
      rewrite <-Heq in H2. congruence.
  - by apply NoDup_filter.
  - intros w1 w2 [_ H1]%list_elem_of_filter [_ H2]%list_elem_of_filter. by apply I3.
  - intros x [_ Hx]%list_elem_of_filter. by apply I4.
  - intros p. rewrite lookup_insert_is_Some, I5. split.
    + intros [<-|[Hne [Hlt Hp]]].
      * split; [by apply I4|]. intros x [Hne Hx]%list_elem_of_filter Heq.
        apply Hne. by apply I3.
      * split; [done|]. intros x [_ Hx]%list_elem_of_filter. by apply Hp.
    + intros [Hlt Hp]. destruct (decide (Wait.wait_promise w = p)) as [|Hne]; [by left|].
      right. split; [done|]. split; [done|]. intros x Hx Heq.
      destruct (decide (x = w)) as [->|Hxw]; [done|].
      apply (Hp x); [|done]. apply list_elem_of_filter. done.
Qed.

Lemma Wait_settle_calls_app p l1 l2 :
  Wait.settle_calls p (l1 ++ l2) = Wait.settle_calls p l1 ++ Wait.settle_calls p l2.
Proof. apply omap_app. Qed.

Lemma Wait_promises_made_app l1 l2 :
  Wait.promises_made (l1 ++ l2) = Wait.promises_made l1 ++ Wait.promises_made l2.
Proof. apply omap_app. Qed.

Lemma Wait_promises_made_released l : Wait.promises_made (Wait.released l) = [].
Proof. by induction l. Qed.

Lemma Wait_settle_calls_released_out p l :
  (∀ w, w ∈ l → Wait.wait_promise w ≠ p) → Wait.settle_calls p (Wait.released l) = [].
Proof.
  induction l as [|x l IH]; intros Hl; [done|].
  unfold Wait.released, Wait.settle_calls in *. simpl.
  rewrite decide_False by (apply Hl; by left). apply IH.
  intros w Hw. apply Hl. by right.
Qed.

Lemma Wait_settle_calls_released_in w l :
  w ∈ l → NoDup l →
  (∀ w1 w2, w1 ∈ l → w2 ∈ l → Wait.wait_promise w1 = Wait.wait_promise w2 → w1 = w2) →
  Wait.settle_calls (Wait.wait_promise w) (Wait.released l) = [Resolved undefined].
Proof.
  induction l as [|x l IH]; intros Hw Hnd Hinj; [by apply elem_of_nil in Hw|].
  apply NoDup_cons in Hnd as [Hx Hnd].
  change (Wait.released (x :: l))
    with ([Wait.EClearTimeout (Wait.wait_timer x);
           Wait.ESettle (Wait.wait_promise x) (Resolved undefined)] ++ Wait.released l).
  rewrite Wait_settle_calls_app.
  apply elem_of_cons in Hw as [->|Hw].
  - unfold Wait.settle_calls at 1. simpl. rewrite decide_True by done.
    rewrite Wait_settle_calls_released_out; [done|].
    intros w Hw Heq. apply Hx.
    rewrite <-(Hinj w x); [done|by right|by left|done].
  - unfold Wait.settle_calls at 1. simpl. rewrite decide_False.
    + apply IH; [done|done|]. intros w1 w2 H1 H2. apply Hinj; by right.
    + intros Heq. apply Hx. rewrite (Hinj x w); [done|by left|by right|done].
Qed.

(** The loop of [emit]: the listeners [l] that are still on the event are
    called in order. *)
Lemma Wait_emit_loop l s acc :
  Wait.Inv s → (∀ w, w ∈ l → w ∈ Wait.onConnect s) → NoDup l →
  ∃ s',
    foldl (λ '(s, l) w, let '(s', l') := Wait.run_onConnect w s in (s', l ++ l')) (s, acc) l
      = (s', acc ++ Wait.released l)
    ∧ Wait.Inv s'
    ∧ (∀ x, x ∈ Wait.onConnect s' ↔ x ∈ Wait.onConnect s ∧ x ∉ l)
    ∧ Wait.nextPromise s' = Wait.nextPromise s
    ∧ Wait.nextTimer s' = Wait.nextTimer s
    ∧ (∀ w, w ∈ l → Wait.settled s' !! Wait.wait_promise w = Some (Resolved undefined))
    ∧ (∀ p, (∀ w, w ∈ l → Wait.wait_promise w ≠ p) →
            Wait.settled s' !! p = Wait.settled s !! p).
Proof.
  revert s acc. induction l as [|w l IH]; intros s acc HI Hl Hnd.
  - exists s. simpl. rewrite app_nil_r. split; [done|]. split; [done|].
    split; [|repeat split; try done; by intros ? ?%elem_of_nil].
    intros x. split; [|by intros [? _]]. intros Hx. split; [done|].
    by intros ?%elem_of_nil.
  - apply NoDup_cons in Hnd as [Hw Hnd].
    assert (w ∈ Wait.onConnect s) as Hin by (apply Hl; by left).
    pose proof (Wait_Inv_leave s w (Resolved undefined) HI Hin) as HI1.
    assert (Wait.settled s !! Wait.wait_promise w = None) as HS.
    { destruct (Wait.settled s !! _) eqn:Hs; [|done].
      assert (is_Some (Wait.settled s !! Wait.wait_promise w)) as Hsome by eauto.
      apply (Wait.inv_settled _ HI) in Hsome as [_ Hno]. by destruct (Hno w Hin). }
    cbn [foldl]. unfold Wait.run_onConnect at 2.
    set (s1 := Wait.settle _ _ _) in *.
    destruct (IH s1 (acc ++ [Wait.EClearTimeout (Wait.wait_timer w);
                             Wait.ESettle (Wait.wait_promise w) (Resolved undefined)])
                HI1) as (s' & Heq & HI' & Hon & Hnp & Hnt & Hin' & Hout'); [|done|].
    { intros x Hx. subst s1. simpl. apply list_elem_of_filter. split.
      - by intros ->.
      - apply Hl. by right. }
    exists s'. rewrite Heq, <-app_assoc. split; [done|]. split; [done|].
    split; [|split; [done|split; [done|split]]].
    + intros x. rewrite Hon. subst s1. simpl.
      rewrite list_elem_of_filter, not_elem_of_cons. tauto.
    + intros x [->|Hx]%elem_of_cons; [|by apply Hin'].
      rewrite Hout'.
      * subst s1. simpl. rewrite HS. by rewrite lookup_insert_eq.
      * intros y Hy Heq'. apply Hw.
        rewrite <-(Wait.inv_promise _ HI y w); [done|apply Hl; by right|done|done].
    + intros p Hp. rewrite Hout'.
      * subst s1. simpl. rewrite HS. rewrite lookup_insert_ne; [done|].
        apply Hp. by left.
      * intros y Hy. apply Hp. by right.
Qed.

(** [emit('connect')] in full. *)
Lemma Wait_emit_connect s :
  Wait.Inv s →
  ∃ s',
    Wait.emit_connect s = (s', Wait.released (Wait.onConnect s))
    ∧ Wait.Inv s'
    ∧ Wait.onConnect s' = []
    ∧ Wait.timers s' = ∅
    ∧ Wait.nextPromise s' = Wait.nextPromise s
    ∧ (∀ w, w ∈ Wait.onConnect s →
            Wait.settled s' !! Wait.wait_promise w = Some (Resolved undefined))
    ∧ (∀ p, (∀ w, w ∈ Wait.onConnect s → Wait.wait_promise w ≠ p) →
            Wait.settled s' !! p = Wait.settled s !! p).
Proof.
  intros HI.
  destruct (Wait_emit_loop (Wait.onConnect s) s [] HI) as
    (s' & Heq & HI' & Hon & Hnp & _ & Hin & Hout); [done|apply HI|].
  exists s'. split; [done|]. split; [done|].
  assert (Wait.onConnect s' = []) as Hnil.
  { destruct (Wait.onConnect s') as [|x l] eqn:Hl; [done|].
    destruct (proj1 (Hon x)) as [? ?]; [by left|done]. }
  split; [done|]. split; [|done].
  apply map_empty. intros t. destruct (Wait.timers s' !! t) as [w|] eqn:Ht; [|done].
  apply (Wait.inv_timer _ HI') in Ht as [Hw _]. rewrite Hnil in Hw.
  by apply elem_of_nil in Hw.
Qed.

Lemma Wait_waiting_unsettled s w :
  Wait.Inv s → w ∈ Wait.onConnect s → Wait.settled s !! Wait.wait_promise w = None.
Proof.
  intros HI Hin. destruct (Wait.settled s !! _) eqn:Hs; [|done].
  assert (is_Some (Wait.settled s !! Wait.wait_promise w)) as Hsome by eauto.
  apply (Wait.inv_settled _ HI) in Hsome as [_ Hno]. by destruct (Hno w Hin).
Qed.

Lemma Wait_step_Inv s e s' l : Wait.Inv s → Wait.step s e = Some (s', l) → Wait.Inv s'.
Proof.
  intros HI Hstep. destruct e as [timeout_arg c| |t]; simpl in Hstep.
  - pose proof (Wait_Inv_call timeout_arg c s HI) as HI'.
    destruct (Wait.waitForConnection timeout_arg c s) as [[r s1] l1]. by simplify_eq.
  - destruct (Wait_emit_connect s HI) as (s1 & Heq & HI' & _). rewrite Heq in Hstep.
    by simplify_eq.
  - destruct (Wait.timers s !! t) as [w|] eqn:Ht; [|done].
    apply (Wait.inv_timer _ HI) in Ht as [Hw <-].
    unfold Wait.on_timeout in Hstep. simplify_eq.
    apply (Wait_Inv_leave s w _ HI Hw).
Qed.

Lemma Wait_Account_empty : Wait.Account Wait.empty [].
Proof.
  split; simpl; done.
Qed.

Lemma Wait_step_Account s e s' l L :
  Wait.Inv s → Wait.Account s L → Wait.step s e = Some (s', l) → Wait.Account s' (L ++ l).
Proof.
  intros HI [A1 A2 A3 A4] Hstep. destruct e as [timeout_arg c| |t]; simpl in Hstep.
  - unfold Wait.waitForConnection in Hstep.
    destruct (Client.isConnected c); simplify_eq.
    { rewrite app_nil_r. by split. }
    split; cbn [Wait.nextPromise Wait.onConnect Wait.settled].
    + rewrite Wait_promises_made_app, A1, seq_S. done.
    + intros w. rewrite Wait_settle_calls_app, app_nil_r.
      intros [Hw| ->%list_elem_of_singleton]%elem_of_app; [by apply A2|].
      by apply A4.
    + intros p o Hp. rewrite Wait_settle_calls_app, app_nil_r. by apply A3.
    + intros p Hp. rewrite Wait_settle_calls_app, app_nil_r. apply A4. lia.
  - destruct (Wait_emit_connect s HI) as (s1 & Heq & HI' & Hnil & _ & Hnp & Hin & Hout).
    rewrite Heq in Hstep. simplify_eq.
    assert (∀ p, (∀ w, w ∈ Wait.onConnect s → Wait.wait_promise w ≠ p) →
                 Wait.settle_calls p (Wait.released (Wait.onConnect s)) = []) as Hcalls_out.
    { intros p. apply Wait_settle_calls_released_out. }
    split.
    + by rewrite Wait_promises_made_app, Wait_promises_made_released, app_nil_r, Hnp.
    + rewrite Hnil. intros w ?%elem_of_nil. done.
    + intros p o Hp. rewrite Wait_settle_calls_app.
      destruct (decide (Exists (λ w, Wait.wait_promise w = p) (Wait.onConnect s)))
        as [(w & Hw & <-)%Exists_exists|Hno].
      * rewrite Hin in Hp by done. simplify_eq.
        rewrite A2 by done.
        rewrite Wait_settle_calls_released_in; [auto|done|apply HI|apply HI].
      * assert (∀ w, w ∈ Wait.onConnect s → Wait.wait_promise w ≠ p) as Hno'.
        { intros w Hw Hwp. apply Hno, Exists_exists. eauto. }
        rewrite Hout in Hp by done. rewrite Hcalls_out, app_nil_r by done. by apply A3.
    + intros p Hp. rewrite Wait_settle_calls_app, A4 by lia. apply Hcalls_out.
      intros w Hw Hwp. apply (Wait.inv_fresh _ HI) in Hw. lia.
  - destruct (Wait.timers s !! t) as [w|] eqn:Ht; [|done].
    apply (Wait.inv_timer _ HI) in Ht as [Hw <-].
    unfold Wait.on_timeout in Hstep. simplify_eq.
    pose proof (Wait_waiting_unsettled s w HI Hw) as HS.
    split; simpl.
    + by rewrite Wait_promises_made_app, app_nil_r.
    + intros x [Hne Hx]%list_elem_of_filter. rewrite Wait_settle_calls_app, A2 by done.
      unfold Wait.settle_calls. simpl. rewrite decide_False; [done|].
      intros Heq. apply Hne. symmetry. by apply (Wait.inv_promise _ HI).
    + intros p o. rewrite HS, Wait_settle_calls_app. rewrite lookup_insert_Some.
      intros [[<- <-]|[Hne Hp]].
      * rewrite A2 by done. unfold Wait.settle_calls. simpl.
        rewrite decide_True by done. auto.
      * destruct (A3 _ _ Hp) as [-> Ho]. split; [|done].
        unfold Wait.settle_calls. simpl. by rewrite decide_False.
    + intros p Hp. rewrite Wait_settle_calls_app, A4 by done.
      unfold Wait.settle_calls. simpl. rewrite decide_False; [done|].
      apply (Wait.inv_fresh _ HI) in Hw. lia.
Qed.

Lemma Wait_run_Account s es s' l L :
  Wait.Inv s → Wait.Account s L → Wait.run s es = Some (s', l) →
  Wait.Inv s' ∧ Wait.Account s' (L ++ l).
Proof.
  revert s l L. induction es as [|e es IH]; intros s l L HI HA Hrun; simpl in Hrun.
  - simplify_eq. by rewrite app_nil_r.
  - destruct (Wait.step s e) as [[s1 l1]|] eqn:Hstep; [|done].
    destruct (Wait.run s1 es) as [[s2 l2]|] eqn:Hrun'; [|done]. simplify_eq.
    rewrite app_assoc. eapply IH; [by eapply Wait_step_Inv| |done].
    by eapply Wait_step_Account.
Qed.

(** X23.  Every promise of [waitForConnection] is settled at most once,
    and is waiting until then.  After any calls of [waitForConnection],
    [connect] events and timers of those calls firing, a promise the method
    made is in one of two states.  Either its call is waiting: its listener
    is on [connect], its timer is running, and neither [resolve] nor
    [reject] has been called.  Or it is settled: its listener is gone, its
    timer is not running, and exactly one call settled it, [resolve()] or
    [reject] with the [DaebusConnectionError] 'Connection timeout'. *)
Theorem waiting_for_the_connection_settles_once
    (es : list Wait.Event) (s : Wait.Waiters) (L : list Wait.Effect) (p : promise) :
  Wait.run Wait.empty es = Some (s, L) → p ∈ Wait.promises_made L →
  (∃ w, w ∈ Wait.onConnect s
        ∧ Wait.wait_promise w = p
        ∧ Wait.timers s !! Wait.wait_timer w = Some w
        ∧ Wait.settled s !! p = None
        ∧ Wait.settle_calls p L = [])
  ∨ ((∀ w, w ∈ Wait.onConnect s → Wait.wait_promise w ≠ p)
     ∧ (∀ t w, Wait.timers s !! t = Some w → Wait.wait_promise w ≠ p)
     ∧ ∃ o, Wait.settled s !! p = Some o
            ∧ Wait.settle_calls p L = [o]
            ∧ (o = Resolved undefined ∨ o = Rejected Wait.timeout_error)).
Proof.
  intros Hrun Hp.
  destruct (Wait_run_Account _ _ _ _ [] Wait_Inv_empty Wait_Account_empty Hrun)
    as [HI [A1 A2 A3 A4]]. simpl in *.
  rewrite A1 in Hp. apply elem_of_seq in Hp as [_ Hp]. simpl in Hp.
  destruct (decide (Exists (λ w, Wait.wait_promise w = p) (Wait.onConnect s)))
    as [(w & Hw & <-)%Exists_exists|Hno].
  - left. exists w. split; [done|]. split; [done|]. split; [by apply HI|].
    split; [by apply Wait_waiting_unsettled|by apply A2].
  - right.
    assert (∀ w, w ∈ Wait.onConnect s → Wait.wait_promise w ≠ p) as Hno'.
    { intros w Hw Hwp. apply Hno, Exists_exists. eauto. }
    split; [done|]. split.
    { intros t w Ht. apply Hno'. by apply (Wait.inv_timer _ HI) in Ht as [? _]. }
    destruct (proj2 (Wait.inv_settled _ HI p)) as [o Ho]; [done|].
    exists o. split; [done|]. by apply A3.
Qed.

(** X24.  What ends a wait for the connection, in a state reached by
    calls of [waitForConnection], [connect] events and timers firing.  A
    [connect] event resolves the promise of every call that is waiting, in
    the order of the listeners, clearing the timer of each: no listener and no
    timer is left.  The timer of a call takes the listener of that call off
    [connect] and rejects its promise with 'Connection timeout'; the other
    calls go on waiting.  On a client that is connected
    [waitForConnection] returns at once: no promise, timer or listener is
    made. *)
Theorem connect_and_timeout_release_a_waiting_call
    (es : list Wait.Event) (s : Wait.Waiters) (L : list Wait.Effect) :
  Wait.run Wait.empty es = Some (s, L) →
  (* the connect event *)
  (∃ s', Wait.step s Wait.Connect = Some (s', Wait.released (Wait.onConnect s))
         ∧ Wait.onConnect s' = []
         ∧ Wait.timers s' = ∅
         ∧ ∀ w, w ∈ Wait.onConnect s →
                Wait.settled s' !! Wait.wait_promise w = Some (Resolved undefined)
                ∧ Wait.settle_calls (Wait.wait_promise w) (Wait.released (Wait.onConnect s))
                  = [Resolved undefined])
  (* the timer of a call *)
  ∧ (∀ t w, Wait.timers s !! t = Some w →
       ∃ s', Wait.step s (Wait.TimerFire t) =
               Some (s', [Wait.EOff w;
                          Wait.ESettle (Wait.wait_promise w) (Rejected Wait.timeout_error)])
             ∧ (w ∉ Wait.onConnect s')
             ∧ Wait.timers s' !! t = None
             ∧ Wait.settled s' !! Wait.wait_promise w = Some (Rejected Wait.timeout_error)
             ∧ (∀ x, x ≠ w → x ∈ Wait.onConnect s → x ∈ Wait.onConnect s'))
  (* a call on a client that is connected *)
  ∧ (∀ timeout_arg c, Client.isConnected c = true →
       Wait.waitForConnection timeout_arg c s = (None, s, [])).
Proof.
  intros Hrun.
  destruct (Wait_run_Account _ _ _ _ [] Wait_Inv_empty Wait_Account_empty Hrun)
    as [HI _].
  split; [|split].
  - destruct (Wait_emit_connect s HI) as (s' & Heq & HI' & Hnil & Hempty & _ & Hin & _).
    exists s'. simpl. rewrite Heq. split; [done|]. split; [done|]. split; [done|].
    intros w Hw. split; [by apply Hin|].
    apply Wait_settle_calls_released_in; [done|apply HI|apply HI].
  - intros t w Ht. simpl. rewrite Ht. eexists. split; [reflexivity|].
    pose proof Ht as Ht'. apply (Wait.inv_timer _ HI) in Ht' as [Hw <-].
    simpl. rewrite (Wait_waiting_unsettled s w HI Hw).
    split; [|split; [by rewrite lookup_delete_eq|split; [by rewrite lookup_insert_eq|]]].
    + intros [Hne _]%list_elem_of_filter. done.
    + intros x Hne Hx. by apply list_elem_of_filter.
  - intros timeout_arg c Hc. unfold Wait.waitForConnection. by rewrite Hc.
Qed.

Lemma waiting_for_the_connection_settles_once_witness :
  (∃ w, w ∈ Wait.onConnect (Wait.after waiting_trace)
        ∧ Wait.wait_promise w = 1
        ∧ Wait.timers (Wait.after waiting_trace) !! Wait.wait_timer w = Some w
        ∧ Wait.settled (Wait.after waiting_trace) !! 1 = None
        ∧ Wait.settle_calls 1 (Wait.log_after waiting_trace) = [])
  ∨ ((∀ w, w ∈ Wait.onConnect (Wait.after waiting_trace) → Wait.wait_promise w ≠ 1)
     ∧ (∀ t w, Wait.timers (Wait.after waiting_trace) !! t = Some w →
               Wait.wait_promise w ≠ 1)
     ∧ ∃ o, Wait.settled (Wait.after waiting_trace) !! 1 = Some o
            ∧ Wait.settle_calls 1 (Wait.log_after waiting_trace) = [o]
            ∧ (o = Resolved undefined ∨ o = Rejected Wait.timeout_error)).
Proof.
  apply (waiting_for_the_connection_settles_once waiting_trace
           (Wait.after waiting_trace) (Wait.log_after waiting_trace) 1).
  - vm_compute. reflexivity.
  - vm_compute. right. left.
Defined.

Example waiting_trace_settled :
  Wait.settled (Wait.after (waiting_trace ++ [Wait.Connect]))
  = {[0 := Resolved undefined; 1 := Rejected Wait.timeout_error; 2 := Resolved undefined]}
  ∧ Wait.onConnect (Wait.after (waiting_trace ++ [Wait.Connect])) = []
  ∧ Wait.timers (Wait.after (waiting_trace ++ [Wait.Connect])) = ∅.
Proof. vm_compute. done. Qed.

Lemma connect_and_timeout_release_a_waiting_call_witness :
  (∃ s', Wait.step (Wait.after waiting_trace) Wait.Connect =
           Some (s', Wait.released (Wait.onConnect (Wait.after waiting_trace)))
         ∧ Wait.onConnect s' = []
         ∧ Wait.timers s' = ∅
         ∧ ∀ w, w ∈ Wait.onConnect (Wait.after waiting_trace) →
                Wait.settled s' !! Wait.wait_promise w = Some (Resolved undefined)
                ∧ Wait.settle_calls (Wait.wait_promise w)
                    (Wait.released (Wait.onConnect (Wait.after waiting_trace)))
                  = [Resolved undefined])
  ∧ (∀ t w, Wait.timers (Wait.after waiting_trace) !! t = Some w →
       ∃ s', Wait.step (Wait.after waiting_trace) (Wait.TimerFire t) =
               Some (s', [Wait.EOff w;
                          Wait.ESettle (Wait.wait_promise w) (Rejected Wait.timeout_error)])
             ∧ (w ∉ Wait.onConnect s')
             ∧ Wait.timers s' !! t = None
             ∧ Wait.settled s' !! Wait.wait_promise w = Some (Rejected Wait.timeout_error)
             ∧ (∀ x, x ≠ w → x ∈ Wait.onConnect (Wait.after waiting_trace) →
                    x ∈ Wait.onConnect s'))
  ∧ (∀ timeout_arg c, Client.isConnected c = true →
       Wait.waitForConnection timeout_arg c (Wait.after waiting_trace)
       = (None, Wait.after waiting_trace, [])).
Proof.
  apply (connect_and_timeout_release_a_waiting_call waiting_trace
           (Wait.after waiting_trace) (Wait.log_after waiting_trace)).
  vm_compute. reflexivity.
Defined.

(** * Updates of the configuration of the client *)

Lemma updated_snoc c ps p :
  Client.updated c (ps ++ [p]) = Client.updateConfig p (Client.updated c ps).
Proof. unfold Client.updated. by rewrite foldl_app. Qed.

Lemma updated_keeps c ps :
  Client.wsClient (Client.updated c ps) = Client.wsClient c
  ∧ Client.serviceName (Client.updated c ps) = Client.serviceName c
  ∧ Client.watched (Client.updated c ps) = Client.watched c
  ∧ (is_Some (Client.httpClient (Client.updated c ps)) ↔ is_Some (Client.httpClient c)).
Proof.
  induction ps as [|p ps IH] using rev_ind; [done|].
  rewrite updated_snoc. destruct IH as (<- & <- & <- & <-).
  split; [done|]. split; [done|]. split; [done|].
  cbn [Client.updateConfig Client.httpClient].
  destruct (Client.httpClient (Client.updated c ps)); [|done].
  destruct (_ || _); split; eauto.
Qed.

Lemma new_fields o ctor :
  Client.serviceName (Client.new o ctor).1 = Client.Options.serviceName o
  ∧ Client.options (Client.new o ctor).1 = o
  ∧ Client.httpClient (Client.new o ctor).1 =
      (if Client.given (Client.Options.httpBaseUrl o)
       then Some (Http.new (Client.http_options o)) else None)
  ∧ (is_Some (Client.wsClient (Client.new o ctor).1)
     ↔ Client.given (Client.Options.wsUrl o) = true)
  ∧ (∀ w, Client.wsClient (Client.new o ctor).1 = Some w → options w = Client.ws_options o).
Proof.
  unfold Client.new.
  destruct (Client.given (Client.Options.wsUrl o)).
  - assert (∀ b : bool, is_Some (Some b) ↔ true = true) as Hyes by (split; eauto).
    destruct (bool_decide _); [destruct ctor as [e|]|]; simpl.
    all: split; [done|]; split; [done|]; split; [done|]; split; [split; eauto|].
    all: by intros w [= <-].
  - simpl. split; [done|]. split; [done|]. split; [done|].
    split; [split; [by intros [? [=]]|done]|done].
Qed.

(** X25.  [updateConfig] changes no client into one with another
    transport.  After any updates of a client made with the options [o],
    the WebSocket client is the one the constructor made (with its socket
    and its options: [wsUrl], [timeout], [retryAttempts] and [retryDelay]
    given later do not reach it), the service name is that of [o], and the
    client has an HTTP client exactly when [o] had a [httpBaseUrl] and a
    WebSocket client exactly when [o] had a [wsUrl].  So a client made
    without [wsUrl] goes on refusing [connect], [sendAction], [subscribe]
    and [broadcast] with 'WebSocket client not configured. Provide wsUrl in
    options.', also after an update that gives a [wsUrl]. *)
Theorem updateConfig_makes_no_transport
    (o : Client.Options.t) (ctor : option Error) (ps : list Client.Partial.t) :
  let c := (Client.new o ctor).1 in
  let c' := Client.updated c ps in
  Client.wsClient c' = Client.wsClient c
  ∧ Client.serviceName c' = Client.Options.serviceName o
  ∧ (is_Some (Client.httpClient c') ↔ Client.given (Client.Options.httpBaseUrl o) = true)
  ∧ (is_Some (Client.wsClient c') ↔ Client.given (Client.Options.wsUrl o) = true)
  ∧ (∀ w, Client.wsClient c' = Some w → options w = Client.ws_options o)
  ∧ (Client.given (Client.Options.wsUrl o) = false →
       (∀ ctor', Client.connect ctor' c' = (Client.RejectedWith Client.not_configured, c', []))
       ∧ (∀ a pl tm n1 n2,
            Client.sendAction a pl tm n1 n2 c' =
              (Client.RejectedWith Client.not_configured, c', []))
       ∧ (∀ channel h,
            Client.subscribe channel h c' =
              (Client.RejectedWith Client.not_configured, c', []))
       ∧ (∀ channel data,
            Client.broadcast channel data c' = (Thrown Client.not_configured, c', []))).
Proof.
  intros c c'.
  destruct (updated_keeps c ps) as (Hws & Hname & _ & Hhttp).
  destruct (new_fields o ctor) as (Hn & _ & Hh & Hw & Ho).
  fold c in Hn, Hh, Hw, Ho. fold c' in Hws, Hname, Hhttp.
  split; [done|]. split; [congruence|]. split.
  { rewrite Hhttp, Hh. destruct (Client.given _); [by eauto|]. split; [by intros [? [=]]|done]. }
  split; [by rewrite Hws|]. split; [by rewrite Hws|].
  intros Hno.
  assert (Client.wsClient c' = None) as Hnone.
  { rewrite Hws. apply eq_None_not_Some. intros Hs%Hw. congruence. }
  unfold Client.connect, Client.sendAction, Client.subscribe, Client.broadcast,
    Client.forward. rewrite Hnone. done.
Qed.

Lemma updateConfig_described p c :
  Client.gives_values p = true →
  Client.given (Client.Options.httpBaseUrl (Client.options c)) = true →
  Client.httpClient c = Some (Http.new (Client.http_options (Client.options c))) →
  Client.given (Client.Options.httpBaseUrl (Client.options (Client.updateConfig p c))) = true
  ∧ Client.httpClient (Client.updateConfig p c) =
      Some (Http.new (Client.http_options (Client.options (Client.updateConfig p c)))).
Proof.
  unfold Client.gives_values. intros Hp Hu Hc.
  rewrite !andb_true_iff in Hp. destruct Hp as ((((Hpu & Hpt) & Hpa) & Hpd) & Hph).
  apply bool_decide_eq_true_1 in Hph.
  destruct c as [o name http ws watched]. simpl in *. subst http.
  destruct p as [pn pu pw pt pa pd ph pc]. simpl in *. subst ph.
  destruct o as [on ou ow ot oa od oh oc]. simpl in *.
  destruct ou as [u|]; [|done].
  unfold Client.given, Client.truthy_N, Client.truthy_nat in *.
  apply negb_true_iff in Hu.
  destruct pu as [[s|]|], pt as [[t|]|], pa as [[a|]|], pd as [[d|]|];
    try discriminate; cbn [default Client.read mbind option_bind id] in *.
  all: repeat match goal with
         | H : negb _ = true |- _ => apply negb_true_iff in H
         end.
  all: unfold Http.updateConfig, Http.new, Client.http_update, Client.http_options;
    cbn -[String.eqb Http.remove_trailing_slash N.eqb Nat.eqb];
    repeat match goal with
         | H : _ = false |- _ => rewrite H
         end; cbn -[String.eqb Http.remove_trailing_slash N.eqb Nat.eqb].
  all: try done.
  all: split; [done|].
  all: repeat match goal with
         | H : _ = false |- _ => rewrite H
         end; done.
Qed.

(** X26.  The options a client stores describe its HTTP client, as long
    as the updates give values.  For a client made with a [httpBaseUrl]
    and then updated any number of times, each update giving no headers
    and, for [httpBaseUrl], [timeout], [retryAttempts] and [retryDelay],
    either nothing or a truthy value: the HTTP client is the one the
    constructor of [DaebusHttpClient] would make from the stored options,
    and the client [forService] makes for another service has that same
    HTTP configuration and the new service name. *)
Theorem options_describe_the_http_client
    (o : Client.Options.t) (ctor ctor' : option Error) (ps : list Client.Partial.t)
    (name : string) :
  Client.given (Client.Options.httpBaseUrl o) = true →
  Forall (λ p, Client.gives_values p = true) ps →
  let c := Client.updated (Client.new o ctor).1 ps in
  Client.httpClient c = Some (Http.new (Client.http_options (Client.options c)))
  ∧ Client.httpClient (Client.forService name ctor' c).1 = Client.httpClient c
  ∧ Client.serviceName (Client.forService name ctor' c).1 = name.
Proof.
  intros Ho Hps c.
  assert (Client.given (Client.Options.httpBaseUrl (Client.options c)) = true
          ∧ Client.httpClient c = Some (Http.new (Client.http_options (Client.options c))))
    as [Hu Hc].
  { subst c. induction ps as [|p ps IH] using rev_ind.
    - destruct (new_fields o ctor) as (_ & Hopt & Hh & _).
      simpl. rewrite Hopt, Hh, Ho. done.
    - apply Forall_app in Hps as [Hps [Hp _]%Forall_cons].
      rewrite updated_snoc. destruct (IH Hps) as [IH1 IH2].
      by apply updateConfig_described. }
  split; [done|].
  destruct (new_fields
              {| Client.Options.serviceName := name;
                 Client.Options.httpBaseUrl := Client.Options.httpBaseUrl (Client.options c);
                 Client.Options.wsUrl := Client.Options.wsUrl (Client.options c);
                 Client.Options.timeout := Client.Options.timeout (Client.options c);
                 Client.Options.retryAttempts :=
                   Client.Options.retryAttempts (Client.options c);
                 Client.Options.retryDelay := Client.Options.retryDelay (Client.options c);
                 Client.Options.headers := Client.Options.headers (Client.options c);
                 Client.Options.autoConnect := Client.Options.autoConnect (Client.options c) |}
              ctor') as (Hn & _ & Hh & _).
  unfold Client.forService. rewrite Hn, Hh, Hc. simpl. by rewrite Hu.
Qed.

Lemma options_describe_the_http_client_witness :
  Client.httpClient (Client.updated (Client.new http_only_options None).1
                       [retry_update; url_update])
  = Some (Http.new (Client.http_options
                      (Client.options
                         (Client.updated (Client.new http_only_options None).1
                            [retry_update; url_update]))))
  ∧ Client.httpClient
      (Client.forService "svc2" None
         (Client.updated (Client.new http_only_options None).1
            [retry_update; url_update])).1
    = Client.httpClient (Client.updated (Client.new http_only_options None).1
                           [retry_update; url_update])
  ∧ Client.serviceName
      (Client.forService "svc2" None
         (Client.updated (Client.new http_only_options None).1
            [retry_update; url_update])).1 = "svc2".
Proof.
  apply (options_describe_the_http_client http_only_options None None
           [retry_update; url_update] "svc2").
  - reflexivity.
  - repeat constructor.
Defined.
